(** * Pinochle score keeper: the hand model, the scoring engine and the session

    A shallow embedding of [src/models/GameHand.js] and of the [Game] class
    (the session model that owns the hand list, the cached scores and the
    dealer rotation), with the properties of the scoring rules proved over it.

    Conventions of the embedding.
    - JavaScript numbers that hold points are modelled as exact integers [Z];
      [%] is the truncated remainder [Z.rem].  The one place where the code
      leaves the integers, the sum of [score / 10] in [validate], is computed
      on IEEE 754 doubles ([Double], the binary64 operations of [SpecFloat]).
    - [null] / [undefined] are [None].  Truthiness tests ([!x], [x || d]) are
      written out: the empty string and the number 0 are falsy.
    - The plain objects [playerMeld] and [playerScores] are finite maps from
      player ids to numbers ([gmap string Z]); a missing key reads [undefined].
      The maps do not record the order in which their keys were created;
      [validate], which goes through the keys, takes that order as an
      argument.
    - The [scores] array is a list of records, searched front to back as
      [Array.prototype.find] does.
    - Methods that assign to fields of [this] are functions from the receiver
      to the updated receiver; an uncaught [TypeError] is the [TypeError]
      constructor of [result].
    - The clock ([new Date().toISOString()], [Date.now()]) is an argument.
    - Objects are modelled by value: a hand or a session is the record of its
      fields, and the session read back by [fromData] stands for the one that
      was written by [toData] (as when a game is saved and loaded again).
      The one object that two sessions can hold at the same time, the
      [scores] array that [toData] hands out and [fromData] adopts, is
      modelled a second time in [Shared], where the arrays live in a store
      and a method that throws leaves behind what it has written. *)

From Stdlib Require Import ZArith QArith Lia SpecFloat.
From stdpp Require Import gmap strings list fin_maps pretty.

Local Open Scope Z_scope.

(** ** JavaScript odds and ends *)

(** [x || 0] for a number-or-undefined [x]. *)
Definition orZero (x : option Z) : Z :=
  match x with
  | Some v => if v =? 0 then 0 else v
  | None => 0
  end.

(** Truthiness of a string and of a number. *)
Definition strTruthy (s : string) : bool := negb (String.eqb s "").
Definition numTruthy (n : Z) : bool := negb (n =? 0).

(** A number that may be [NaN] (the dealer index after [% 0]). *)
Inductive jsnum : Type :=
| Num (z : Z)
| NaN.

#[export] Instance jsnum_eq_dec : EqDecision jsnum.
Proof. solve_decision. Defined.

(** [a % b] on integers: truncated remainder, [NaN] when [b] is 0. *)
Definition jsRem (a : jsnum) (b : Z) : jsnum :=
  match a with
  | Num x => if b =? 0 then NaN else Num (Z.rem x b)
  | NaN => NaN
  end.

(** [a + 1]. *)
Definition jsSucc (a : jsnum) : jsnum :=
  match a with
  | Num x => Num (x + 1)
  | NaN => NaN
  end.

(** Normal completion or an uncaught [TypeError]. *)
Inductive result (A : Type) : Type :=
| Ok (a : A)
| TypeError.
Arguments Ok {A} a.
Arguments TypeError {A}.

Definition bindR {A B} (r : result A) (k : A -> result B) : result B :=
  match r with
  | Ok a => k a
  | TypeError => TypeError
  end.

#[export] Instance result_ret : MRet result := fun _ a => Ok a.
#[export] Instance result_bind : MBind result := fun _ _ k r => bindR r k.

(** [xs.forEach(f)] where [f] updates a state and may throw. *)
Fixpoint forEach {A S : Type} (f : A -> S -> result S) (xs : list A) (s : S)
  : result S :=
  match xs with
  | [] => Ok s
  | x :: rest => s' ← f x s; forEach f rest s'
  end.

(** ** IEEE 754 double precision

    The numbers of JavaScript: binary64, rounding to nearest with ties to
    even, as [SpecFloat] defines the operations. *)

Module Double.

Definition t : Type := spec_float.

(** The double nearest to an integer: the integer itself up to 2^53. *)
Definition ofZ (z : Z) : t := binary_normalize 53 1024 z 0 false.

Definition add (x y : t) : t := SFadd 53 1024 x y.

Definition div (x y : t) : t := SFdiv 53 1024 x y.

(** [x > y], which is false when either side is not a number. *)
Definition gt (x y : t) : bool := SFltb y x.

(** [p] with [n] zero bits appended, and the number of bits of [p]. *)
Definition shl (n : nat) (p : positive) : positive := Nat.iter n xO p.

Definition digits (p : positive) : Z := Zpos (digits2_pos p).

(** The double that holds the positive integer [p] (below 2^53): the bits of
    [p] moved up to fill the 53 bits of the mantissa. *)
Definition canon (p : positive) : t :=
  S754_finite false (shl (Z.to_nat (53 - digits p)) p) (digits p - 53).

End Double.

(** ** Players *)

Module Player.
Record t : Type := mk { id : string; name : string }.

#[export] Instance eq_dec : EqDecision t.
Proof. solve_decision. Defined.
End Player.

(** ** GameHand.js *)

Module GameHand.

Record t : Type := mk {
  handNumber : Z;
  winningBid : option Z;
  bidderId : option string;
  bidderName : option string;
  playerMeld : gmap string Z;
  playerScores : gmap string Z;
  timestamp : string;
  dealerId : string;
  dealerName : string;
  thrownIn : bool
}.

(** The record written by [toData] and read by [fromData].  Stored data may
    lack [playerMeld], [playerScores] and [thrownIn] (legacy records), which
    is what the [||] defaults of [fromData] are for. *)
Record data : Type := mkData {
  d_handNumber : Z;
  d_winningBid : option Z;
  d_bidderId : option string;
  d_bidderName : option string;
  d_playerMeld : option (gmap string Z);
  d_playerScores : option (gmap string Z);
  d_timestamp : string;
  d_dealerId : string;
  d_dealerName : string;
  d_thrownIn : option bool
}.

(** [constructor(handNumber, dealerId, dealerName)]; [now] is
    [new Date().toISOString()]. *)
Definition new (now : string) (handNumber : Z) (dealerId dealerName : string) : t :=
  {| handNumber := handNumber;
     winningBid := None;
     bidderId := None;
     bidderName := None;
     playerMeld := ∅;
     playerScores := ∅;
     timestamp := now;
     dealerId := dealerId;
     dealerName := dealerName;
     thrownIn := false |}.

Definition setWinningBid (bid : Z) (bidder bidderNm : string) (h : t) : t :=
  {| handNumber := handNumber h;
     winningBid := Some bid;
     bidderId := Some bidder;
     bidderName := Some bidderNm;
     playerMeld := playerMeld h;
     playerScores := playerScores h;
     timestamp := timestamp h;
     dealerId := dealerId h;
     dealerName := dealerName h;
     thrownIn := thrownIn h |}.

Definition setPlayerMeld (pid : string) (meld : Z) (h : t) : t :=
  {| handNumber := handNumber h;
     winningBid := winningBid h;
     bidderId := bidderId h;
     bidderName := bidderName h;
     playerMeld := <[pid := meld]> (playerMeld h);
     playerScores := playerScores h;
     timestamp := timestamp h;
     dealerId := dealerId h;
     dealerName := dealerName h;
     thrownIn := thrownIn h |}.

Definition setPlayerScore (pid : string) (sc : Z) (h : t) : t :=
  {| handNumber := handNumber h;
     winningBid := winningBid h;
     bidderId := bidderId h;
     bidderName := bidderName h;
     playerMeld := playerMeld h;
     playerScores := <[pid := sc]> (playerScores h);
     timestamp := timestamp h;
     dealerId := dealerId h;
     dealerName := dealerName h;
     thrownIn := thrownIn h |}.

Definition throwIn (h : t) : t :=
  {| handNumber := handNumber h;
     winningBid := None;
     bidderId := None;
     bidderName := None;
     playerMeld := ∅;
     playerScores := ∅;
     timestamp := timestamp h;
     dealerId := dealerId h;
     dealerName := dealerName h;
     thrownIn := true |}.

(** [isBidderSet()]: the guard [!this.bidderId || !this.winningBid] rejects
    [null], the empty id and a bid of 0. *)
Definition isBidderSet (h : t) : bool :=
  match bidderId h, winningBid h with
  | Some b, Some bid =>
      if negb (strTruthy b) || negb (numTruthy bid) then false
      else
        let bidderMeld := orZero (playerMeld h !! b) in
        let bidderScore := orZero (playerScores h !! b) in
        bidderMeld + bidderScore <? bid
  | _, _ => false
  end.

Definition getPlayerHandTotal (pid : string) (h : t) : Z :=
  let meld := orZero (playerMeld h !! pid) in
  let sc := orZero (playerScores h !! pid) in
  meld + sc.

Record validation : Type := mkValidation {
  valid : bool;
  errors : list string
}.

(** [players.find(p => p.id === playerId)] followed by
    [player?.name || 'Player']. *)
Definition displayName (players : list Player.t) (pid : string) : string :=
  match List.find (fun p => String.eqb (Player.id p) pid) players with
  | Some p => if strTruthy (Player.name p) then Player.name p else "Player"
  | None => "Player"
  end.

(** The entries of an object, its keys taken in the order [keys]: the order
    in which [for ... in] and [Object.values] go through them, which for
    player ids is the order in which the keys were created.  A key that the
    object does not hold is passed over. *)
Definition entriesIn (keys : list string) (m : gmap string Z) : list (string * Z) :=
  omap (fun k => (fun v => (k, v)) <$> m !! k) keys.

(** The [for (const playerId in this.playerMeld)] loop: one message for
    each entry whose meld leaves a remainder modulo 10. *)
Definition meldErrors (meldKeys : list string) (players : list Player.t) (h : t)
  : list string :=
  flat_map
    (fun '(pid, meld) =>
       if negb (Z.rem meld 10 =? 0)
       then [displayName players pid ++ "'s meld must be divisible by 10"]%string
       else [])
    (entriesIn meldKeys (playerMeld h)).

(** [Object.values(this.playerScores).reduce((sum, score) => sum + score / 10, 0)],
    every division and every addition rounded to a double. *)
Definition totalTricks (scoreKeys : list string) (h : t) : Double.t :=
  foldl (fun sum score => Double.add sum (Double.div (Double.ofZ score) (Double.ofZ 10)))
        (Double.ofZ 0)
        ((entriesIn scoreKeys (playerScores h)).*2).

Definition trickErrors (scoreKeys : list string) (h : t) : list string :=
  if Double.gt (totalTricks scoreKeys h) (Double.ofZ 25)
  then ["Total tricks cannot exceed 25"%string]
  else [].

(** [validate(players)] as a method call: the result together with the
    receiver after the call.  The body only reads the fields of [this];
    [meldKeys] and [scoreKeys] are the keys of [this.playerMeld] and of
    [this.playerScores] in the order the loops visit them. *)
Definition validate (meldKeys scoreKeys : list string) (players : list Player.t) (h : t)
  : validation * t :=
  let errs := meldErrors meldKeys players h ++ trickErrors scoreKeys h in
  ({| valid := Nat.eqb (length errs) 0; errors := errs |}, h).

Definition fromData (now : string) (d : data) : t :=
  let hand := new now (d_handNumber d) (d_dealerId d) (d_dealerName d) in
  {| handNumber := handNumber hand;
     winningBid := d_winningBid d;
     bidderId := d_bidderId d;
     bidderName := d_bidderName d;
     playerMeld := default ∅ (d_playerMeld d);
     playerScores := default ∅ (d_playerScores d);
     timestamp := d_timestamp d;
     dealerId := dealerId hand;
     dealerName := dealerName hand;
     thrownIn := default false (d_thrownIn d) |}.

Definition toData (h : t) : data :=
  {| d_handNumber := handNumber h;
     d_winningBid := winningBid h;
     d_bidderId := bidderId h;
     d_bidderName := bidderName h;
     d_playerMeld := Some (playerMeld h);
     d_playerScores := Some (playerScores h);
     d_timestamp := timestamp h;
     d_dealerId := dealerId h;
     d_dealerName := dealerName h;
     d_thrownIn := Some (thrownIn h) |}.

End GameHand.

(** ** The Game class (session model) *)

Module ScoreEntry.
(** One element of [game.scores]: [{ playerId, name, score }]. *)
Record t : Type := mk { playerId : string; name : string; score : Z }.

#[export] Instance eq_dec : EqDecision t.
Proof. solve_decision. Defined.

Definition setScore (v : Z) (s : t) : t :=
  {| playerId := playerId s; name := name s; score := v |}.
End ScoreEntry.

Module Game.

(** [teamAssignments] is not set by the class itself: the game controller
    stores [{ teamA, teamB }] on the session object of a 4-player game. *)
Record t : Type := mk {
  id : string;
  gameType : Z;
  players : list Player.t;
  hands : list GameHand.t;
  scores : list ScoreEntry.t;
  startTime : string;
  endTime : option string;
  targetScore : Z;
  dealerIndex : jsnum;
  winnerId : option string;
  winnerName : option string;
  teamAssignments : option (list Player.t * list Player.t)
}.

(** The record written by [toData] and read by [fromData]. *)
Record data : Type := mkData {
  d_id : string;
  d_gameType : Z;
  d_players : list Player.t;
  d_hands : list GameHand.data;
  d_scores : list ScoreEntry.t;
  d_startTime : string;
  d_endTime : option string;
  d_targetScore : Z;
  d_dealerIndex : jsnum;
  d_winnerId : option string;
  d_winnerName : option string
}.

Definition withScores (sc : list ScoreEntry.t) (g : t) : t :=
  {| id := id g; gameType := gameType g; players := players g;
     hands := hands g; scores := sc; startTime := startTime g;
     endTime := endTime g; targetScore := targetScore g;
     dealerIndex := dealerIndex g; winnerId := winnerId g;
     winnerName := winnerName g; teamAssignments := teamAssignments g |}.

Definition withHands (hs : list GameHand.t) (g : t) : t :=
  {| id := id g; gameType := gameType g; players := players g;
     hands := hs; scores := scores g; startTime := startTime g;
     endTime := endTime g; targetScore := targetScore g;
     dealerIndex := dealerIndex g; winnerId := winnerId g;
     winnerName := winnerName g; teamAssignments := teamAssignments g |}.

Definition withDealerIndex (d : jsnum) (g : t) : t :=
  {| id := id g; gameType := gameType g; players := players g;
     hands := hands g; scores := scores g; startTime := startTime g;
     endTime := endTime g; targetScore := targetScore g;
     dealerIndex := d; winnerId := winnerId g;
     winnerName := winnerName g; teamAssignments := teamAssignments g |}.

(** [constructor(players, gameType)]; [nowId] is [Date.now().toString()]
    and [nowIso] is [new Date().toISOString()]. *)
Definition new (nowId nowIso : string) (players : list Player.t) (gameType : Z) : t :=
  {| id := nowId;
     gameType := gameType;
     players := players;
     hands := [];
     scores := map (fun p => ScoreEntry.mk (Player.id p) (Player.name p) 0) players;
     startTime := nowIso;
     endTime := None;
     targetScore := if gameType =? 2 then 1000 else 1500;
     dealerIndex := Num 0;
     winnerId := None;
     winnerName := None;
     teamAssignments := None |}.

(** [this.players[this.dealerIndex]]. *)
Definition getCurrentDealer (g : t) : option Player.t :=
  match dealerIndex g with
  | Num d => if d <? 0 then None else players g !! Z.to_nat d
  | NaN => None
  end.

Definition advanceDealer (g : t) : t :=
  withDealerIndex
    (jsRem (jsSucc (dealerIndex g)) (Z.of_nat (length (players g)))) g.

Definition getNextHandNumber (g : t) : Z := Z.of_nat (length (hands g)) + 1.

(** [const e = scores.find(s => s.playerId === pid); e.score += delta]:
    the first entry with that id is updated in place; when there is none,
    [e] is [undefined] and reading [e.score] throws. *)
Fixpoint addToScore (pid : option string) (delta : Z) (sc : list ScoreEntry.t)
  : result (list ScoreEntry.t) :=
  match sc with
  | [] => TypeError
  | s :: rest =>
      if bool_decide (Some (ScoreEntry.playerId s) = pid)
      then Ok (ScoreEntry.setScore (ScoreEntry.score s + delta) s :: rest)
      else rest' ← addToScore pid delta rest; Ok (s :: rest')
  end.

(** The body of the two [this.players.forEach] loops for one player. *)
Definition creditPlayer (h : GameHand.t) (p : Player.t) (sc : list ScoreEntry.t)
  : result (list ScoreEntry.t) :=
  let meld := orZero (GameHand.playerMeld h !! Player.id p) in
  let score := orZero (GameHand.playerScores h !! Player.id p) in
  addToScore (Some (Player.id p)) (meld + score) sc.

(** The body of [this.hands.forEach] for one hand.  In the set branch
    [score -= hand.winningBid] subtracts the bid ([null] would count 0). *)
Definition scoreHand (ps : list Player.t) (h : GameHand.t) (sc : list ScoreEntry.t)
  : result (list ScoreEntry.t) :=
  if GameHand.thrownIn h then Ok sc
  else if GameHand.isBidderSet h then
    sc' ← addToScore (GameHand.bidderId h) (- default 0 (GameHand.winningBid h)) sc;
    forEach
      (fun p acc =>
         if bool_decide (Some (Player.id p) ≠ GameHand.bidderId h)
         then creditPlayer h p acc
         else Ok acc)
      ps sc'
  else forEach (creditPlayer h) ps sc.

Definition resetScores (sc : list ScoreEntry.t) : list ScoreEntry.t :=
  map (ScoreEntry.setScore 0) sc.

Definition recalculateScores (g : t) : result t :=
  sc ← forEach (scoreHand (players g)) (hands g) (resetScores (scores g));
  Ok (withScores sc g).

Definition addHand (h : GameHand.t) (g : t) : result t :=
  let g1 := withHands (hands g ++ [h]) g in
  g2 ← recalculateScores g1;
  Ok (advanceDealer g2).

(** *** The scoring pass on the array itself

    [recalculateScores] updates the entries of [this.scores] in place.  When
    [find] comes back empty-handed, the [TypeError] leaves the entries as the
    steps before it wrote them: a step is described here by the array it
    leaves and by whether it completed. *)

(** A single update: it either goes through or throws before it has
    written anything. *)
Definition settle (r : result (list ScoreEntry.t)) (sc : list ScoreEntry.t)
  : list ScoreEntry.t * bool :=
  match r with
  | Ok sc' => (sc', true)
  | TypeError => (sc, false)
  end.

(** [xs.forEach(f)] where a throwing [f] ends the loop. *)
Fixpoint forEachInPlace {A S : Type} (f : A -> S -> S * bool) (xs : list A) (s : S)
  : S * bool :=
  match xs with
  | [] => (s, true)
  | x :: rest =>
      let '(s', completed) := f x s in
      if completed then forEachInPlace f rest s' else (s', false)
  end.

(** The body of [this.hands.forEach] for one hand. *)
Definition scoreHandInPlace (ps : list Player.t) (h : GameHand.t) (sc : list ScoreEntry.t)
  : list ScoreEntry.t * bool :=
  if GameHand.thrownIn h then (sc, true)
  else if GameHand.isBidderSet h then
    let '(sc', completed) :=
      settle (addToScore (GameHand.bidderId h) (- default 0 (GameHand.winningBid h)) sc) sc in
    if completed then
      forEachInPlace
        (fun p acc =>
           if bool_decide (Some (Player.id p) ≠ GameHand.bidderId h)
           then settle (creditPlayer h p acc) acc
           else (acc, true))
        ps sc'
    else (sc', false)
  else forEachInPlace (fun p acc => settle (creditPlayer h p acc) acc) ps sc.

(** The array after [recalculateScores] and whether the method returned. *)
Definition recalculateInPlace (ps : list Player.t) (hs : list GameHand.t)
  (sc : list ScoreEntry.t) : list ScoreEntry.t * bool :=
  forEachInPlace (scoreHandInPlace ps) hs (resetScores sc).

(** [reduce] without an initial value keeps the element on the left only
    when its score is strictly greater. *)
Definition higher (prev current : ScoreEntry.t) : ScoreEntry.t :=
  if ScoreEntry.score current <? ScoreEntry.score prev then prev else current.

Definition checkForWinner (g : t) : option ScoreEntry.t :=
  let winningPlayers :=
    List.filter (fun s => targetScore g <=? ScoreEntry.score s) (scores g) in
  match winningPlayers with
  | first :: rest => Some (foldl higher first rest)
  | [] => None
  end.

(** [endGame(winnerId, winnerName)]; [nowIso] is the clock reading. *)
Definition endGame (nowIso : string) (wid wname : string) (g : t) : t :=
  {| id := id g; gameType := gameType g; players := players g;
     hands := hands g; scores := scores g; startTime := startTime g;
     endTime := Some nowIso; targetScore := targetScore g;
     dealerIndex := dealerIndex g; winnerId := Some wid;
     winnerName := Some wname; teamAssignments := teamAssignments g |}.

Definition isCompleted (g : t) : bool :=
  match endTime g with Some _ => true | None => false end.

(** [fromData(data)] and [toData()] by value: the fields of the session that
    is read back, and of the record that is written, as they are when the
    call returns.  That [scores] is one and the same array on both sides is
    what [Shared] below adds. *)
Definition fromData (nowId nowIso : string) (d : data) : t :=
  let game := new nowId nowIso (d_players d) (d_gameType d) in
  {| id := d_id d;
     gameType := gameType game;
     players := players game;
     hands := map (GameHand.fromData nowIso) (d_hands d);
     scores := d_scores d;
     startTime := d_startTime d;
     endTime := d_endTime d;
     targetScore := d_targetScore d;
     dealerIndex := d_dealerIndex d;
     winnerId := d_winnerId d;
     winnerName := d_winnerName d;
     teamAssignments := teamAssignments game |}.

Definition toData (g : t) : data :=
  {| d_id := id g;
     d_gameType := gameType g;
     d_players := players g;
     d_hands := map GameHand.toData (hands g);
     d_scores := scores g;
     d_startTime := startTime g;
     d_endTime := endTime g;
     d_targetScore := targetScore g;
     d_dealerIndex := dealerIndex g;
     d_winnerId := winnerId g;
     d_winnerName := winnerName g |}.

(** [getStatus()]; [durationMinutes] is what [getDurationMinutes()] reads off
    the clock.  [reduce] without an initial value throws a [TypeError] on an
    empty array. *)
Record status : Type := mkStatus {
  st_currentHand : Z;
  st_leader : string;
  st_leaderScore : Z;
  st_targetScore : Z;
  st_hasWinner : bool;
  st_winner : option string;
  st_winnerScore : option Z;
  st_duration : Z
}.

Definition getStatus (durationMinutes : Z) (g : t) : result status :=
  let winner := checkForWinner g in
  let currentHand := getNextHandNumber g in
  match scores g with
  | [] => TypeError
  | first :: rest =>
      let leader := foldl higher first rest in
      Ok {| st_currentHand := currentHand;
            st_leader := ScoreEntry.name leader;
            st_leaderScore := ScoreEntry.score leader;
            st_targetScore := targetScore g;
            st_hasWinner := match winner with Some _ => true | None => false end;
            st_winner :=
              match winner with
              | Some w => if strTruthy (ScoreEntry.name w) then Some (ScoreEntry.name w) else None
              | None => None
              end;
            st_winnerScore :=
              match winner with
              | Some w => if numTruthy (ScoreEntry.score w) then Some (ScoreEntry.score w) else None
              | None => None
              end;
            st_duration := durationMinutes |}
  end.

End Game.

(** ** The score array as a shared object

    [toData()] hands out [this.scores] itself and [fromData(data)] adopts
    [data.scores]: the session that is read back holds the very array, and
    the very entries, of the session that was written, and
    [recalculateScores] rewrites the entries in place.  Here the score
    arrays live in a store and a session refers to its array by address.
    The other fields are held by value as before (the hand list is copied
    by [toData] and [fromData], and no method of the session writes into a
    hand).  A method reports whether it returned; when it threw, the store
    and the session are as the method left them. *)

Module Shared.

(** The score arrays, by address. *)
Abbreviation store := (list (list ScoreEntry.t)).

(** A session object: the address of its [scores] array and its other
    fields (the [scores] of [fields] is left empty). *)
Record session : Type := mkSession { scoresAt : nat; fields : Game.t }.

Definition scoresOf (st : store) (s : session) : list ScoreEntry.t :=
  default [] (st !! scoresAt s).

(** The fields of the session as they read in the store [st]. *)
Definition view (st : store) (s : session) : Game.t :=
  Game.withScores (scoresOf st s) (fields s).

Definition onFields (f : Game.t -> Game.t) (s : session) : session :=
  {| scoresAt := scoresAt s; fields := f (fields s) |}.

(** [new Game(players, gameType)]: the constructor builds a new array. *)
Definition new (nowId nowIso : string) (players : list Player.t) (gameType : Z)
  (st : store) : session * store :=
  let g := Game.new nowId nowIso players gameType in
  ({| scoresAt := length st; fields := Game.withScores [] g |}, st ++ [Game.scores g]).

Definition recalculateScores (s : session) (st : store) : store * bool :=
  let '(sc, completed) :=
    Game.recalculateInPlace (Game.players (fields s)) (Game.hands (fields s))
      (scoresOf st s) in
  (<[scoresAt s := sc]> st, completed).

(** [addHand(hand)]: the hand is pushed before the scores are recomputed, so
    it stays on the list when the recomputation throws; the dealer moves on
    only when it did not. *)
Definition addHand (h : GameHand.t) (s : session) (st : store)
  : session * store * bool :=
  let s1 := onFields (fun g => Game.withHands (Game.hands g ++ [h]) g) s in
  let '(st', completed) := recalculateScores s1 st in
  if completed then (onFields Game.advanceDealer s1, st', true)
  else (s1, st', false).

Definition advanceDealer (s : session) : session := onFields Game.advanceDealer s.

Definition endGame (nowIso wid wname : string) (s : session) : session :=
  onFields (Game.endGame nowIso wid wname) s.

(** The record written by [toData]: [scores] is the array of the session. *)
Record data : Type := mkData { d_scoresAt : nat; d_fields : Game.data }.

Definition toData (s : session) : data :=
  {| d_scoresAt := scoresAt s; d_fields := Game.toData (fields s) |}.

(** [fromData(data)]: the array that the constructor builds is dropped for
    [data.scores]. *)
Definition fromData (nowId nowIso : string) (d : data) (st : store) : session * store :=
  let built :=
    new nowId nowIso (Game.d_players (d_fields d)) (Game.d_gameType (d_fields d)) st in
  ({| scoresAt := d_scoresAt d;
      fields := Game.withScores [] (Game.fromData nowId nowIso (d_fields d)) |},
   built.2).

End Shared.

(** ** utils/config.js *)

Module Config.

(** [CONFIG.GAME.TARGET_SCORES] and [CONFIG.GAME.MIN_BIDS], keyed by the
    number of players. *)
Definition TARGET_SCORES : gmap Z Z := {[ 2 := 1000; 3 := 1500; 4 := 1500 ]}.
Definition MIN_BIDS : gmap Z Z := {[ 2 := 150; 3 := 250; 4 := 250 ]}.

Definition MIN_PLAYERS : Z := 2.
Definition MAX_PLAYERS : Z := 4.

(** [table[playerCount] || table[3]]; the key 3 is present in both tables. *)
Definition lookupOr3 (table : gmap Z Z) (playerCount : Z) : Z :=
  match table !! playerCount with
  | Some v => if numTruthy v then v else table !!! 3
  | None => table !!! 3
  end.

Definition isValidPlayerCount (playerCount : Z) : bool :=
  (MIN_PLAYERS <=? playerCount) && (playerCount <=? MAX_PLAYERS).

Definition getMinBid (playerCount : Z) : Z := lookupOr3 MIN_BIDS playerCount.

Definition getTargetScore (playerCount : Z) : Z := lookupOr3 TARGET_SCORES playerCount.

End Config.

(** ** utils/helpers.js: Validation *)

Module Validation.

(** [{ valid: true, value }] or [{ valid: false, error }]. *)
Inductive verdict : Type :=
| Valid (value : Z)
| Invalid (error : string).

Definition isValid (v : verdict) : bool :=
  match v with Valid _ => true | Invalid _ => false end.

Definition meld (m : jsnum) : verdict :=
  match m with
  | NaN => Invalid "Meld must be a number"
  | Num m =>
      if m <? 0 then Invalid "Meld cannot be negative"
      else if negb (Z.rem m 10 =? 0) then Invalid "Meld must be divisible by 10"
      else if 1000 <? m then Invalid "Meld value is too high"
      else Valid m
  end.

Definition tricks (t : jsnum) : verdict :=
  match t with
  | NaN => Invalid "Tricks must be a number"
  | Num t =>
      if t <? 0 then Invalid "Tricks cannot be negative"
      else if 25 <? t then Invalid "Tricks cannot exceed 25"
      else Valid t
  end.

Definition bid (b : jsnum) (minBid : Z) : verdict :=
  match b with
  | NaN => Invalid "Bid must be a number"
  | Num b =>
      if b <? minBid then Invalid ("Bid must be at least " ++ pretty minBid)
      else if negb (Z.rem b 10 =? 0) then Invalid "Bid must be divisible by 10"
      else if 2000 <? b then Invalid "Bid is too high"
      else Valid b
  end.

Definition totalTricks (trickCounts : list Z) : verdict :=
  let total := foldl (fun sum count => sum + count) 0 trickCounts in
  if 25 <? total
  then Invalid ("Total tricks (" ++ pretty total ++ ") cannot exceed 25")
  else Valid total.

End Validation.

(** ** controllers/GameController.js: the hand entry flow

    The part of the controller that decides what becomes of the session: the
    values read from the form are arguments, a message shown by
    [notificationService.error] before an early [return] is [Rejected], an
    exception caught by the method's [try]/[catch] is [Failed].  Saving,
    statistics, warnings and the display are left out. *)

Module GameController.

(** [this.pendingHand]. *)
Record pending : Type := mkPending {
  p_winningBid : Z;
  p_bidderId : string;
  p_bidderName : string
}.

(** The form: for each player id, [parseInt(meld-<id>.value) || 0],
    [parseInt(score-<id>.value) || 0] and [nines-only-<id>.checked || false]. *)
Record form : Type := mkForm {
  meldOf : string → Z;
  tricksOf : string → Z;
  ninesOnlyOf : string → bool
}.

Inductive outcome (A : Type) : Type :=
| Done (a : A)
| Rejected (msg : string)
| Failed.
Arguments Done {A} a.
Arguments Rejected {A} msg.
Arguments Failed {A}.

(** A [for ... of] loop whose body may [return] a message. *)
Fixpoint forOf {A S : Type} (body : A → S → outcome S) (xs : list A) (s : S)
  : outcome S :=
  match xs with
  | [] => Done s
  | x :: rest =>
      match body x s with
      | Done s' => forOf body rest s'
      | Rejected msg => Rejected msg
      | Failed => Failed
      end
  end.

(** [nextToMeldPhase()]: [bidInput] is [parseInt(winningBidInput.value)],
    [bidderChoice] the value of the bidder select (empty when none). *)
Definition nextToMeldPhase (bidInput : jsnum) (bidderChoice : string) (g : Game.t)
  : outcome pending :=
  let minBid := Config.getMinBid (Game.gameType g) in
  match Validation.bid bidInput minBid with
  | Validation.Invalid e => Rejected e
  | Validation.Valid winningBid =>
      if negb (strTruthy bidderChoice) then Rejected "Please select a bidder"
      else
        match List.find (fun p => String.eqb (Player.id p) bidderChoice) (Game.players g) with
        | Some bidder =>
            Done {| p_winningBid := winningBid;
                    p_bidderId := bidderChoice;
                    p_bidderName := Player.name bidder |}
        | None => Failed
        end
  end.

(** [isPlayerBidderTeammate(playerId)]; [pend] is [this.pendingHand]. *)
Definition isPlayerBidderTeammate (pend : option pending) (playerId : string) (g : Game.t)
  : bool :=
  match pend with
  | None => false
  | Some pend =>
      if negb (Game.gameType g =? 4) then false
      else
        match Game.teamAssignments g with
        | None => false
        | Some (teamA, _) =>
            let bidderOnTeamA :=
              existsb (fun p => String.eqb (Player.id p) (p_bidderId pend)) teamA in
            let playerOnTeamA :=
              existsb (fun p => String.eqb (Player.id p) playerId) teamA in
            Bool.eqb bidderOnTeamA playerOnTeamA
        end
  end.

(** [nextToScorePhase()]: the number of tricks shown as required. *)
Definition tricksRequired (winningBid meldValue : Z) : Z :=
  let required := (winningBid - meldValue) / 10 in
  if required <? 1 then 1 else required.

(** Whether [nextToScorePhase()] shows the shoot-the-moon options. *)
Definition moonOptionsShown (winningBid meldValue : Z) : bool :=
  25 <? tricksRequired winningBid meldValue.

(** The meld safety rule of [submitHand()] for one player. *)
Definition finalMeld (pend : pending) (f : form) (player : Player.t) (meld tricks : Z) : Z :=
  if bool_decide (Player.id player ≠ p_bidderId pend) && (0 <? meld) then
    if ((meld =? 10) || (meld =? 20)) && ninesOnlyOf f (Player.id player) then meld
    else if tricks <? 1 then 0
    else meld
  else meld.

(** The keys of [hand.playerMeld] and of [hand.playerScores] in the order in
    which the loop of [submitHand()] creates them on the new hand: the first
    assignment to a key appends it, a later one leaves it where it is. *)
Definition createdKeys (players : list Player.t) : list string :=
  foldl
    (fun keys p =>
       if bool_decide (Player.id p ∈ keys) then keys else keys ++ [Player.id p])
    [] players.

(** The body of the [for (const player of this.currentGame.players)] loop of
    [submitHand()]; the state is the hand under construction and
    [trickCounts]. *)
Definition collectPlayer (pend : pending) (f : form) (player : Player.t)
  (st : GameHand.t * list Z) : outcome (GameHand.t * list Z) :=
  let meld := meldOf f (Player.id player) in
  let tricks := tricksOf f (Player.id player) in
  match Validation.meld (Num meld) with
  | Validation.Invalid e => Rejected (Player.name player ++ ": " ++ e)
  | Validation.Valid _ =>
      match Validation.tricks (Num tricks) with
      | Validation.Invalid e => Rejected (Player.name player ++ ": " ++ e)
      | Validation.Valid _ =>
          Done (GameHand.setPlayerScore (Player.id player) (tricks * 10)
                  (GameHand.setPlayerMeld (Player.id player)
                     (finalMeld pend f player meld tricks) st.1),
                st.2 ++ [tricks])
      end
  end.

(** The hand [submitHand()], [throwInHand()] and [shotTheMoon()] start from;
    [dealer.id] throws when there is no current dealer. *)
Definition freshHand (now : string) (g : Game.t) : outcome GameHand.t :=
  match Game.getCurrentDealer g with
  | Some dealer =>
      Done (GameHand.new now (Game.getNextHandNumber g) (Player.id dealer) (Player.name dealer))
  | None => Failed
  end.

Definition addToGame (hand : GameHand.t) (g : Game.t) : outcome (Game.t * GameHand.t) :=
  match Game.addHand hand g with
  | Ok g' => Done (g', hand)
  | TypeError => Failed
  end.

(** [submitHand()] with a pending hand: the new session and the hand added. *)
Definition submitHand (now : string) (pend : pending) (f : form) (g : Game.t)
  : outcome (Game.t * GameHand.t) :=
  match freshHand now g with
  | Done hand0 =>
      let hand1 :=
        GameHand.setWinningBid (p_winningBid pend) (p_bidderId pend) (p_bidderName pend) hand0 in
      match forOf (collectPlayer pend f) (Game.players g) (hand1, []) with
      | Done (hand, trickCounts) =>
          match Validation.totalTricks trickCounts with
          | Validation.Invalid e => Rejected e
          | Validation.Valid _ =>
              let keys := createdKeys (Game.players g) in
              let handValidation :=
                (GameHand.validate keys keys (Game.players g) hand).1 in
              if negb (GameHand.valid handValidation)
              then Rejected (default "" (head (GameHand.errors handValidation)))
              else addToGame hand g
          end
      | Rejected msg => Rejected msg
      | Failed => Failed
      end
  | Rejected msg => Rejected msg
  | Failed => Failed
  end.

(** [throwInHand()]. *)
Definition throwInHand (now : string) (g : Game.t) : outcome (Game.t * GameHand.t) :=
  match freshHand now g with
  | Done hand0 => addToGame (GameHand.throwIn hand0) g
  | Rejected msg => Rejected msg
  | Failed => Failed
  end.

(** The body of the loop of [shotTheMoon()]. *)
Definition moonPlayer (pend : pending) (f : form) (hand : GameHand.t) (player : Player.t)
  : GameHand.t :=
  if bool_decide (Player.id player = p_bidderId pend)
  then GameHand.setPlayerScore (Player.id player) 500
         (GameHand.setPlayerMeld (Player.id player) 0 hand)
  else GameHand.setPlayerScore (Player.id player) 0
         (GameHand.setPlayerMeld (Player.id player) (meldOf f (Player.id player)) hand).

(** [shotTheMoon()] with a pending hand. *)
Definition shotTheMoon (now : string) (pend : pending) (f : form) (g : Game.t)
  : outcome (Game.t * GameHand.t) :=
  match freshHand now g with
  | Done hand0 =>
      let hand1 :=
        GameHand.setWinningBid (p_winningBid pend) (p_bidderId pend) (p_bidderName pend) hand0 in
      addToGame (foldl (moonPlayer pend f) hand1 (Game.players g)) g
  | Rejected msg => Rejected msg
  | Failed => Failed
  end.

End GameController.

(** * The vocabulary of the specification *)

#[export] Instance Z_divide_dec (a b : Z) : Decision (a | b).
Proof.
  destruct (decide (a = 0)) as [->|Ha].
  - destruct (decide (b = 0)) as [->|Hb];
      [left; apply Z.divide_0_r | right; by intros H%Z.divide_0_l].
  - destruct (decide (Z.rem b a = 0)) as [H|H]; [left|right];
      by rewrite <- Z.rem_divide.
Defined.

#[export] Instance Q_le_dec (x y : Q) : Decision (x <= y)%Q.
Proof.
  destruct (Qlt_le_dec y x) as [Hlt|Hle]; [right; by apply Qlt_not_le | by left].
Defined.

(** ** Hands *)

Module HandSpec.
Import GameHand.

(** The bidder's meld plus trick score, a missing entry counting as 0. *)
Definition bidderTotal (b : string) (h : t) : Z :=
  default 0 (playerMeld h !! b) + default 0 (playerScores h !! b).

(** The sum of the stored trick scores. *)
Definition trickPoints (h : t) : Z :=
  foldr Z.add 0 ((map_to_list (playerScores h)).*2).

(** [keys] lists the keys of the object [m], each once. *)
Definition enumerates (keys : list string) (m : gmap string Z) : Prop :=
  NoDup keys ∧ ∀ k, k ∈ keys ↔ is_Some (m !! k).

(** The entries of [playerMeld] whose value is not a multiple of 10, in the
    order of the keys. *)
Definition badMelds (meldKeys : list string) (h : t) : list (string * Z) :=
  filter (λ kv, ¬ (10 | kv.2)) (entriesIn meldKeys (playerMeld h)).

(** The trick scores as the hand model of the specification has them: each
    a number of tricks times 10, none negative, and a total in the range in
    which a double holds every integer. *)
Definition tricksTimesTen (h : t) : Prop :=
  map_Forall (λ _ s, 0 ≤ s ∧ (10 | s)) (playerScores h)
  ∧ trickPoints h < 2 ^ 53.

Definition meldMessage (players : list Player.t) (kv : string * Z) : string :=
  (displayName players kv.1 ++ "'s meld must be divisible by 10")%string.

(** *** Sample hands *)

(** Alice melds 55 and takes 14 tricks, Bob melds 30 and takes 12: one meld
    off the grid and 26 tricks. *)
Definition crookedHand : t :=
  setPlayerScore "p2" 120
    (setPlayerScore "p1" 140
       (setPlayerMeld "p2" 30
          (setPlayerMeld "p1" 55 (new "t1" 1 "p1" "Alice")))).

(** Melds of 20 and 40, and trick scores that are no multiples of 10 and add
    up to 250. *)
Definition roundingHand : t :=
  setPlayerScore "p3" 88
    (setPlayerScore "p2" 161
       (setPlayerScore "p1" 1
          (setPlayerMeld "p2" 40
             (setPlayerMeld "p1" 20 (new "t1" 1 "p1" "Alice"))))).

(** The operations a caller can apply to a hand after it was created. *)
Inductive op : Type :=
| SetWinningBid (bid : Z) (bidder bidderNm : string)
| SetPlayerMeld (pid : string) (meld : Z)
| SetPlayerScore (pid : string) (sc : Z)
| ThrowIn.

Definition apply (o : op) (h : t) : t :=
  match o with
  | SetWinningBid bid b n => setWinningBid bid b n h
  | SetPlayerMeld p m => setPlayerMeld p m h
  | SetPlayerScore p s => setPlayerScore p s h
  | ThrowIn => throwIn h
  end.

Definition run (ops : list op) (h : t) : t := foldl (fun h o => apply o h) h ops.

End HandSpec.

(** ** Sessions *)

Module GameSpec.
Import Game.

Definition scoreIds (sc : list ScoreEntry.t) : list string :=
  ScoreEntry.playerId <$> sc.

Definition playerIds (g : t) : list string := Player.id <$> players g.

(** What one hand adds to the total of player [pid]: nothing when the hand
    was thrown in; when the bidder is set, minus the bid for the bidder and
    meld plus trick score for everybody else; otherwise meld plus trick
    score for everybody.  A missing map entry counts 0. *)
Definition handContribution (h : GameHand.t) (pid : string) : Z :=
  if GameHand.thrownIn h then 0
  else if GameHand.isBidderSet h then
    if bool_decide (GameHand.bidderId h = Some pid)
    then - default 0 (GameHand.winningBid h)
    else default 0 (GameHand.playerMeld h !! pid)
         + default 0 (GameHand.playerScores h !! pid)
  else default 0 (GameHand.playerMeld h !! pid)
       + default 0 (GameHand.playerScores h !! pid).

(** The fold of the hands, in order, from a zero baseline. *)
Definition replay (hs : list GameHand.t) (pid : string) : Z :=
  foldl (fun total h => total + handContribution h pid) 0 hs.

(** The score list in which every entry holds the replayed total of its
    player. *)
Definition replayedScores (hs : list GameHand.t) (sc : list ScoreEntry.t)
  : list ScoreEntry.t :=
  map (fun s => ScoreEntry.setScore (replay hs (ScoreEntry.playerId s)) s) sc.

(** The bidder of a hand that is scored as set has an entry in the score
    list (otherwise [find] comes back empty-handed). *)
Definition bidderKnown (known : list string) (h : GameHand.t) : Prop :=
  GameHand.thrownIn h = false → GameHand.isBidderSet h = true →
  ∃ b, GameHand.bidderId h = Some b ∧ b ∈ known.

(** The shape the constructor gives a session and every operation keeps:
    distinct player ids, one score entry per player in player order, and
    bidders that are players. *)
Record wellFormed (g : t) : Prop := {
  wf_nodup : NoDup (playerIds g);
  wf_aligned : scoreIds (scores g) = playerIds g;
  wf_bidders : Forall (bidderKnown (playerIds g)) (hands g)
}.

Definition bump (f : string → Z) (sc : list ScoreEntry.t) : list ScoreEntry.t :=
  map (fun s => ScoreEntry.setScore (ScoreEntry.score s + f (ScoreEntry.playerId s)) s) sc.

(** Meld plus trick score of player [q] in hand [h]. *)
Definition handTotal (h : GameHand.t) (q : string) : Z :=
  default 0 (GameHand.playerMeld h !! q) + default 0 (GameHand.playerScores h !! q).

(** What a [players.forEach] pass that skips the ids rejected by [keep] adds
    for player [q]. *)
Definition credited (h : GameHand.t) (keep : string → bool) (q : string) : Z :=
  if keep q then handTotal h q else 0.

Definition creditIf (h : GameHand.t) (keep : string → bool)
  (p : Player.t) (acc : list ScoreEntry.t) : result (list ScoreEntry.t) :=
  if keep (Player.id p) then creditPlayer h p acc else Ok acc.

(** The score list the scoring engine computes for the session's hands from
    a zero baseline (what [recalculateScores] stores). *)
Definition engineScores (g : t) : result (list ScoreEntry.t) :=
  forEach (scoreHand (players g)) (hands g) (resetScores (scores g)).

(** [currentGame.teamAssignments = teamAssignments], as the game controller
    does after creating a 4-player session. *)
Definition withTeams (teams : list Player.t * list Player.t) (g : t) : t :=
  {| id := id g; gameType := gameType g; players := players g;
     hands := hands g; scores := scores g; startTime := startTime g;
     endTime := endTime g; targetScore := targetScore g;
     dealerIndex := dealerIndex g; winnerId := winnerId g;
     winnerName := winnerName g; teamAssignments := Some teams |}.

(** *** Sample sessions *)

Definition alice : Player.t := Player.mk "p1" "Alice".
Definition bob : Player.t := Player.mk "p2" "Bob".

(** Alice bids 300, melds 50 and takes 14 tricks: 190, she is set.  Bob melds
    30 and takes 11 tricks. *)
Definition setHand : GameHand.t :=
  GameHand.setPlayerScore "p2" 110
    (GameHand.setPlayerScore "p1" 140
       (GameHand.setPlayerMeld "p2" 30
          (GameHand.setPlayerMeld "p1" 50
             (GameHand.setWinningBid 300 "p1" "Alice"
                (GameHand.new "t1" 1 "p1" "Alice"))))).

(** Bob bids 150 and makes it with 30 + 120; Alice melds nothing and takes
    13 tricks. *)
Definition madeHand : GameHand.t :=
  GameHand.setPlayerScore "p2" 120
    (GameHand.setPlayerScore "p1" 130
       (GameHand.setPlayerMeld "p2" 30
          (GameHand.setWinningBid 150 "p2" "Bob"
             (GameHand.new "t2" 2 "p2" "Bob")))).

Definition thrownHand : GameHand.t :=
  GameHand.throwIn (GameHand.new "t3" 3 "p1" "Alice").

Definition twoPlayerGame : t := new "1700000000000" "t0" [alice; bob] 2.

(** Two hands on record and a score cache that was not refreshed yet. *)
Definition staleGame : t := withHands [setHand; madeHand] twoPlayerGame.

Definition orElse (r : result t) (g : t) : t :=
  match r with Ok g' => g' | TypeError => g end.

Definition afterSetHand : t := orElse (addHand setHand twoPlayerGame) twoPlayerGame.

Definition afterThrownHand : t := orElse (addHand thrownHand afterSetHand) afterSetHand.

(** Three players, two of them tied at the top above the target of 1500. *)
Definition tieGame : t :=
  withScores
    [ScoreEntry.mk "p1" "Alice" 1600; ScoreEntry.mk "p2" "Bob" 1600;
     ScoreEntry.mk "p3" "Carol" 1500]
    (new "1" "t0" [Player.mk "p1" "Alice"; Player.mk "p2" "Bob"; Player.mk "p3" "Carol"] 3).

(** The 4-player team scenario: Alice and Charlie (800 + 750) against Bob and
    Diana (600 + 700), target 1500. *)
Definition teamGame : t :=
  let alice := Player.mk "player1" "Alice" in
  let bob := Player.mk "player2" "Bob" in
  let carol := Player.mk "player3" "Charlie" in
  let diana := Player.mk "player4" "Diana" in
  withScores
    [ScoreEntry.mk "player1" "Alice" 800; ScoreEntry.mk "player2" "Bob" 600;
     ScoreEntry.mk "player3" "Charlie" 750; ScoreEntry.mk "player4" "Diana" 700]
    (withTeams ([alice; carol], [bob; diana])
       (new "1234567890123" "2023-01-01T12:00:00.000Z" [alice; bob; carol; diana] 4)).

End GameSpec.

(** ** Sessions that share a score array *)

Module SharedSpec.
Import GameSpec.

(** The states that one session object goes through when it alone writes
    its score array: the object is built by the constructor, or read back
    by [fromData] from what [toData] wrote and used in place of the session
    that was written; the calls made on it return; and whatever else
    happens in the store leaves its array alone. *)
Inductive reachable : Shared.store → Shared.session → Prop :=
| reach_new st nowId nowIso ps gt :
    reachable (Shared.new nowId nowIso ps gt st).2 (Shared.new nowId nowIso ps gt st).1
| reach_addHand st s h s' st' :
    reachable st s → Shared.addHand h s st = (s', st', true) → reachable st' s'
| reach_recalculateScores st s st' :
    reachable st s → Shared.recalculateScores s st = (st', true) → reachable st' s
| reach_endGame st s nowIso wid wname :
    reachable st s → reachable st (Shared.endGame nowIso wid wname s)
| reach_advanceDealer st s :
    reachable st s → reachable st (Shared.advanceDealer s)
| reach_roundTrip st s nowId nowIso :
    reachable st s →
    reachable (Shared.fromData nowId nowIso (Shared.toData s) st).2
              (Shared.fromData nowId nowIso (Shared.toData s) st).1
| reach_elsewhere st st' s :
    reachable st s → st' !! Shared.scoresAt s = st !! Shared.scoresAt s →
    reachable st' s.

(** *** Two sessions on one array

    [original] is a new two-player session in an empty store; [loaded] is
    [Game.fromData(original.toData())]; then [setHand] is added to the
    original. *)
Definition original : Shared.session * Shared.store :=
  Shared.new "1700000000000" "t0" [alice; bob] 2 [].

Definition loaded : Shared.session * Shared.store :=
  Shared.fromData "1700000000001" "t1" (Shared.toData original.1) original.2.

Definition originalPlayed : Shared.session * Shared.store * bool :=
  Shared.addHand setHand original.1 loaded.2.

(** The loaded session as it reads after the original took the hand. *)
Definition loadedAfterwards : Game.t := Shared.view originalPlayed.1.2 loaded.1.

(** *** A call that throws

    A hand whose bidder, "p9", is not at the table and is set: [find] has no
    score entry for the bidder. *)
Definition strangerHand : GameHand.t :=
  GameHand.setPlayerMeld "p1" 20
    (GameHand.setWinningBid 300 "p9" "Zed" (GameHand.new "t4" 2 "p2" "Bob")).

Definition strangerAdded : Shared.session * Shared.store * bool :=
  Shared.addHand strangerHand originalPlayed.1.1 originalPlayed.1.2.

Definition afterStranger : Game.t := Shared.view strangerAdded.1.2 strangerAdded.1.1.

(** A round trip on the way: the loaded session takes the place of the
    original. *)
Definition loadedPlayed : Shared.session * Shared.store * bool :=
  Shared.addHand thrownHand
    (Shared.endGame "t5" "p2" "Bob"
       (Shared.fromData "1700000000002" "t2" (Shared.toData originalPlayed.1.1)
          originalPlayed.1.2).1)
    (Shared.fromData "1700000000002" "t2" (Shared.toData originalPlayed.1.1)
       originalPlayed.1.2).2.

End SharedSpec.

(** ** Further vocabulary: operations in sequence *)

Module ExtraSpec.
Import Game GameSpec.

(** The session with [teamAssignments] left [undefined]. *)
Definition dropTeams (g : t) : t :=
  {| id := id g; gameType := gameType g; players := players g;
     hands := hands g; scores := scores g; startTime := startTime g;
     endTime := endTime g; targetScore := targetScore g;
     dealerIndex := dealerIndex g; winnerId := winnerId g;
     winnerName := winnerName g; teamAssignments := None |}.

(** What one hand needs from the score list for the scoring pass to go
    through: nothing when it was thrown in; otherwise an entry for the bidder
    when the bidder is set, and an entry for every player who is credited. *)
Definition scorable (ids : list string) (ps : list Player.t) (h : GameHand.t) : Prop :=
  GameHand.thrownIn h = false →
  (GameHand.isBidderSet h = true → ∃ b, GameHand.bidderId h = Some b ∧ b ∈ ids)
  ∧ (∀ p, p ∈ ps →
       (GameHand.isBidderSet h = true → Some (Player.id p) ≠ GameHand.bidderId h) →
       Player.id p ∈ ids).

(** The hands that were not thrown in. *)
Definition liveHands (hs : list GameHand.t) : list GameHand.t :=
  List.filter (fun h => negb (GameHand.thrownIn h)) hs.

(** Calls on a session, and a sequence of them run in order. *)
Inductive call : Type :=
| AddHand (h : GameHand.t)
| RecalculateScores
| AdvanceDealer
| EndGame (nowIso wid wname : string)
| SaveAndLoad (nowId nowIso : string).

Definition isEndGame (c : call) : bool :=
  match c with EndGame _ _ _ => true | _ => false end.

Definition runCall (c : call) (g : t) : result t :=
  match c with
  | AddHand h => addHand h g
  | RecalculateScores => recalculateScores g
  | AdvanceDealer => Ok (advanceDealer g)
  | EndGame nowIso wid wname => Ok (endGame nowIso wid wname g)
  | SaveAndLoad nowId nowIso => Ok (fromData nowId nowIso (toData g))
  end.

Definition runCalls (cs : list call) (g : t) : result t := forEach runCall cs g.

(** The hands handed to [addHand] in a sequence of calls, in call order. *)
Definition addedHands (cs : list call) : list GameHand.t :=
  flat_map (fun c => match c with AddHand h => [h] | _ => [] end) cs.

(** The running winner while the score list is scanned: nobody yet, or the
    best qualifying entry so far. *)
Definition bestSoFar (target : Z) (a : ScoreEntry.t) (o : option ScoreEntry.t) : Prop :=
  match o with
  | None => ScoreEntry.score a < target
  | Some w => a = w ∧ target ≤ ScoreEntry.score w
  end.

Definition winnerFrom (o : option ScoreEntry.t) (qualifying : list ScoreEntry.t)
  : option ScoreEntry.t :=
  match o, qualifying with
  | Some w, _ => Some (foldl higher w qualifying)
  | None, x :: rest => Some (foldl higher x rest)
  | None, [] => None
  end.

End ExtraSpec.

(** ** Further vocabulary: the hand entry flow *)

Module ControllerSpec.
Import Game GameSpec GameController.

Definition sumZ (l : list Z) : Z := foldr Z.add 0 l.

(** The meld that [submitHand()] stores for the player with id [k]. *)
Definition storedMeld (pend : pending) (f : form) (k : string) : Z :=
  finalMeld pend f (Player.mk k EmptyString) (meldOf f k) (tricksOf f k).

(** What the form holds for a player passes [Validation.meld] and
    [Validation.tricks]. *)
Definition entryValid (f : form) (k : string) : Prop :=
  (0 ≤ meldOf f k ≤ 1000 ∧ (10 | meldOf f k)) ∧ 0 ≤ tricksOf f k ≤ 25.

(** The state of the loop of [submitHand()] after the players [seen]. *)
Record collected (pend : pending) (f : form) (start : GameHand.t)
  (seen : list Player.t) (hand : GameHand.t) (trickCounts : list Z) : Prop := {
  co_meld : ∀ k, GameHand.playerMeld hand !! k
                 = if bool_decide (k ∈ Player.id <$> seen)
                   then Some (storedMeld pend f k)
                   else GameHand.playerMeld start !! k;
  co_score : ∀ k, GameHand.playerScores hand !! k
                  = if bool_decide (k ∈ Player.id <$> seen)
                    then Some (tricksOf f k * 10)
                    else GameHand.playerScores start !! k;
  co_counts : trickCounts = (fun p => tricksOf f (Player.id p)) <$> seen;
  co_valid : ∀ p, p ∈ seen → entryValid f (Player.id p);
  co_bid : GameHand.winningBid hand = GameHand.winningBid start
           ∧ GameHand.bidderId hand = GameHand.bidderId start
           ∧ GameHand.bidderName hand = GameHand.bidderName start;
  co_head : GameHand.handNumber hand = GameHand.handNumber start
            ∧ GameHand.dealerId hand = GameHand.dealerId start
            ∧ GameHand.dealerName hand = GameHand.dealerName start
            ∧ GameHand.timestamp hand = GameHand.timestamp start
            ∧ GameHand.thrownIn hand = GameHand.thrownIn start
}.

(** What [shotTheMoon()] stores for the player with id [k]. *)
Definition moonMeld (pend : pending) (f : form) (k : string) : Z :=
  if bool_decide (k = p_bidderId pend) then 0 else meldOf f k.

Definition moonScore (pend : pending) (k : string) : Z :=
  if bool_decide (k = p_bidderId pend) then 500 else 0.

(** The hand at position [i] of the hand list carries the number [i + 1] and
    the player seated at [i mod players.length] as its dealer. *)
Definition recorded (ps : list Player.t) (i : nat) (h : GameHand.t) : Prop :=
  GameHand.handNumber h = Z.of_nat i + 1
  ∧ ∃ dealer, ps !! (i mod length ps)%nat = Some dealer
              ∧ GameHand.dealerId h = Player.id dealer
              ∧ GameHand.dealerName h = Player.name dealer.

(** The shape of a session that was built through the hand entry flow, with
    [ps] seated at the table. *)
Record seated (ps : list Player.t) (g : Game.t) : Prop := {
  se_players : players g = ps;
  se_wellFormed : wellFormed g;
  se_scores : scores g = replayedScores (hands g) (scores g);
  se_dealer : dealerIndex g = Num (Z.of_nat (length (hands g) mod length ps));
  se_hands : ∀ i h, hands g !! i = Some h → recorded ps i h
}.

(** The sessions the hand entry flow produces: a new game, then hands
    submitted, thrown in or shot at the moon, the pending hand coming from
    [nextToMeldPhase()] on the session at hand. *)
Inductive played (ps : list Player.t) : Game.t → Prop :=
| played_new nowId nowIso gt :
    played ps (Game.new nowId nowIso ps gt)
| played_teams g teams :
    played ps g → played ps (withTeams teams g)
| played_submit g now bidInput choice pend f g' h :
    played ps g → nextToMeldPhase bidInput choice g = Done pend →
    submitHand now pend f g = Done (g', h) → played ps g'
| played_throwIn g now g' h :
    played ps g → throwInHand now g = Done (g', h) → played ps g'
| played_moon g now bidInput choice pend f g' h :
    played ps g → nextToMeldPhase bidInput choice g = Done pend →
    shotTheMoon now pend f g = Done (g', h) → played ps g'.

(** *** Sample forms *)

Definition emptyGame : Game.t := Game.new "1700000000001" "t0" [] 2.

(** Alice bids 200 in the two-player game. *)
Definition samplePending : pending :=
  {| p_winningBid := 200; p_bidderId := "p1"; p_bidderName := "Alice" |}.

(** Alice melds 50 and takes 20 tricks; Bob melds 20 in nines and takes none. *)
Definition sampleForm : form :=
  {| meldOf := fun k => if String.eqb k "p1" then 50 else if String.eqb k "p2" then 20 else 0;
     tricksOf := fun k => if String.eqb k "p1" then 20 else 0;
     ninesOnlyOf := fun k => String.eqb k "p2" |}.

(** The same with 10 tricks for Bob: 30 tricks in all. *)
Definition crowdedForm : form :=
  {| meldOf := meldOf sampleForm;
     tricksOf := fun k => if String.eqb k "p1" then 20 else if String.eqb k "p2" then 10 else 0;
     ninesOnlyOf := ninesOnlyOf sampleForm |}.

(** Alice bids 600 and shoots the moon. *)
Definition moonPending : pending :=
  {| p_winningBid := 600; p_bidderId := "p1"; p_bidderName := "Alice" |}.

Definition outcomeGame (o : outcome (Game.t * GameHand.t)) (g : Game.t) : Game.t :=
  match o with Done (g', _) => g' | _ => g end.

Definition outcomeHand (o : outcome (Game.t * GameHand.t)) (h : GameHand.t) : GameHand.t :=
  match o with Done (_, h') => h' | _ => h end.

Definition submittedGame : Game.t :=
  outcomeGame (submitHand "t1" samplePending sampleForm twoPlayerGame) twoPlayerGame.

Definition submittedHand : GameHand.t :=
  outcomeHand (submitHand "t1" samplePending sampleForm twoPlayerGame) thrownHand.

Definition moonGame : Game.t :=
  outcomeGame (shotTheMoon "t1" moonPending sampleForm twoPlayerGame) twoPlayerGame.

Definition moonHand : GameHand.t :=
  outcomeHand (shotTheMoon "t1" moonPending sampleForm twoPlayerGame) thrownHand.

(** A bid on record and nothing else. *)
Definition bareBidHand : GameHand.t :=
  GameHand.setWinningBid 300 "p1" "Alice" (GameHand.new "t1" 1 "p2" "Bob").

Definition recalculatedGame : Game.t := orElse (recalculateScores staleGame) staleGame.

Definition sampleCalls : list ExtraSpec.call :=
  [ExtraSpec.AddHand setHand; ExtraSpec.EndGame "t5" "p2" "Bob";
   ExtraSpec.AddHand thrownHand; ExtraSpec.SaveAndLoad "1700000000009" "t9"].

Definition afterSampleCalls : Game.t :=
  orElse (ExtraSpec.runCalls sampleCalls twoPlayerGame) twoPlayerGame.

End ControllerSpec.

(** * Properties of a hand *)

(** ** Basic facts *)

Lemma bind_Ok {A B} (a : A) (k : A → result B) : (Ok a ≫= k) = k a.
Proof. reflexivity. Qed.

Lemma forEach_cons {A S} (f : A → S → result S) x xs s :
  forEach f (x :: xs) s = f x s ≫= forEach f xs.
Proof. reflexivity. Qed.

Lemma orZero_default (x : option Z) : orZero x = default 0 x.
Proof. destruct x as [v|]; simpl; [destruct (Z.eqb_spec v 0); lia | done]. Qed.

Lemma strTruthy_true (s : string) : strTruthy s = true ↔ s ≠ ""%string.
Proof.
  unfold strTruthy. destruct (String.eqb_spec s "") as [->|Hne]; simpl.
  - split; [discriminate | congruence].
  - split; auto.
Qed.

Lemma numTruthy_true (n : Z) : numTruthy n = true ↔ n ≠ 0.
Proof. unfold numTruthy. destruct (Z.eqb_spec n 0); simpl; split; (congruence || lia || auto). Qed.

(** * Doubles that hold integers

    The sums of [validate] stay exact as long as they stay on integers below
    2^53: rounding has nothing to drop. *)

Module DoubleFacts.
Import Double.

Lemma iter_pos_nat {A} (f : A → A) (p : positive) (x : A) :
  SpecFloat.iter_pos f p x = Nat.iter (Pos.to_nat p) f x.
Proof.
  assert (∀ q y, SpecFloat.iter_pos f q y = Pos.iter f y q) as Hpos.
  { induction q as [q IH|q IH|]; intros y; simpl; [|by rewrite !IH|done].
    by rewrite !IH, <- !Pos.iter_swap. }
  rewrite Hpos, Pos2Nat.inj_iter. by induction (Pos.to_nat p).
Qed.

Lemma pos_iter_shl (q : positive) (p : positive) :
  Pos.iter xO p q = shl (Pos.to_nat q) p.
Proof. unfold shl. rewrite Pos2Nat.inj_iter. by induction (Pos.to_nat q). Qed.

Lemma shl_add n m p : shl (n + m) p = shl n (shl m p).
Proof. unfold shl. apply Nat.iter_add. Qed.

Lemma Zpos_shl n p : Zpos (shl n p) = Zpos p * 2 ^ Z.of_nat n.
Proof.
  induction n as [|n IH]; [simpl; lia|].
  rewrite Nat2Z.inj_succ, Z.pow_succ_r by lia.
  change (Zpos (shl (S n) p)) with (2 * Zpos (shl n p)). rewrite IH. lia.
Qed.

Lemma digits_shl n p : digits (shl n p) = digits p + Z.of_nat n.
Proof.
  unfold digits. induction n as [|n IH]; [simpl; lia|].
  change (shl (S n) p) with (xO (shl n p)). simpl digits2_pos.
  rewrite Pos2Z.inj_succ, IH. lia.
Qed.

Lemma digits_pos p : 1 ≤ digits p.
Proof. unfold digits. lia. Qed.

Lemma digits_bounds p : 2 ^ (digits p - 1) ≤ Zpos p < 2 ^ digits p.
Proof.
  unfold digits. induction p as [p IH|p IH|]; simpl digits2_pos;
    [| |simpl; lia].
  - rewrite Pos2Z.inj_succ. change (Zpos p~1) with (2 * Zpos p + 1).
    replace (Z.succ (Zpos (digits2_pos p)) - 1) with (Z.succ (Zpos (digits2_pos p) - 1)) by lia.
    rewrite !Z.pow_succ_r by lia.
    generalize dependent (2 ^ (Zpos (digits2_pos p) - 1)).
    generalize (2 ^ Zpos (digits2_pos p)). intros. lia.
  - rewrite Pos2Z.inj_succ. change (Zpos p~0) with (2 * Zpos p).
    replace (Z.succ (Zpos (digits2_pos p)) - 1) with (Z.succ (Zpos (digits2_pos p) - 1)) by lia.
    rewrite !Z.pow_succ_r by lia.
    generalize dependent (2 ^ (Zpos (digits2_pos p) - 1)).
    generalize (2 ^ Zpos (digits2_pos p)). intros; lia.
Qed.

Lemma digits_le p n : 0 ≤ n → Zpos p < 2 ^ n → digits p ≤ n.
Proof.
  intros Hn Hlt. destruct (digits_bounds p) as [Hlo _].
  destruct (Z_le_gt_dec (digits p) n) as [|Hgt]; [done|].
  assert (2 ^ n ≤ 2 ^ (digits p - 1)) by (apply Z.pow_le_mono_r; lia). lia.
Qed.

Lemma digits_ge p n : 2 ^ n ≤ Zpos p → n < digits p.
Proof.
  intros Hle. destruct (digits_bounds p) as [_ Hhi].
  destruct (Z_lt_le_dec n (digits p)) as [|Hge]; [done|].
  assert (2 ^ digits p ≤ 2 ^ n) by (apply Z.pow_le_mono_r; lia). lia.
Qed.

Lemma shr_shl n p :
  Nat.iter n shr_1 {| shr_m := Zpos (shl n p); shr_r := false; shr_s := false |}
  = {| shr_m := Zpos p; shr_r := false; shr_s := false |}.
Proof.
  induction n as [|n IH]; [done|].
  rewrite Nat.iter_succ_r. change (shl (S n) p) with (xO (shl n p)). exact IH.
Qed.

Lemma fexp_small d : -1021 ≤ d → fexp 53 1024 d = d - 53.
Proof. intros Hd. unfold fexp, emin. lia. Qed.

(** Rounding an integer below 2^53 that comes with [k] trailing zero bits
    drops nothing. *)
Lemma round_exact (p : positive) (k : nat) :
  digits p ≤ 53 → 53 ≤ digits p + Z.of_nat k →
  binary_round_aux 53 1024 false (Zpos (shl k p)) (- Z.of_nat k) loc_Exact = canon p.
Proof.
  intros Hd Hk. pose proof (digits_pos p) as Hd1.
  set (j := Z.to_nat (53 - digits p)).
  set (n := Z.to_nat (digits p - 53 + Z.of_nat k)).
  assert (k = (n + j)%nat) as Hsplit by lia.
  assert (shr_fexp 53 1024 (Zpos (shl k p)) (- Z.of_nat k) loc_Exact
          = ({| shr_m := Zpos (shl j p); shr_r := false; shr_s := false |}, digits p - 53))
    as Hfirst.
  { unfold shr_fexp. simpl Zdigits2. fold (digits (shl k p)).
    rewrite digits_shl.
    replace (digits p + Z.of_nat k + - Z.of_nat k) with (digits p) by lia.
    rewrite fexp_small by lia. simpl shr_record_of_loc. unfold shr.
    destruct (digits p - 53 - - Z.of_nat k) as [|q|q] eqn:Hq; [| |lia].
    - assert (n = 0%nat) as Hn by lia. rewrite Hsplit, Hn. simpl. f_equal. lia.
    - rewrite iter_pos_nat. replace (Pos.to_nat q) with n by lia.
      rewrite Hsplit at 1. rewrite shl_add, shr_shl. f_equal. lia. }
  unfold binary_round_aux. rewrite Hfirst. simpl shr_m. simpl loc_of_shr_record.
  simpl round_nearest_even.
  assert (shr_fexp 53 1024 (Zpos (shl j p)) (digits p - 53) loc_Exact
          = ({| shr_m := Zpos (shl j p); shr_r := false; shr_s := false |}, digits p - 53))
    as Hsecond.
  { unfold shr_fexp. simpl Zdigits2. fold (digits (shl j p)).
    rewrite digits_shl.
    replace (digits p + Z.of_nat j + (digits p - 53)) with (digits p) by lia.
    rewrite fexp_small by lia. by rewrite Z.sub_diag. }
  rewrite Hsecond. simpl shr_m.
  destruct (Z.leb_spec (digits p - 53) (1024 - 53)); [done|lia].
Qed.

Lemma round_shifted (p : positive) (k : nat) :
  digits p ≤ 53 →
  binary_round 53 1024 false (shl k p) (- Z.of_nat k) = canon p.
Proof.
  intros Hd. pose proof (digits_pos p) as Hd1.
  unfold binary_round. fold (digits (shl k p)). rewrite digits_shl.
  replace (digits p + Z.of_nat k + - Z.of_nat k) with (digits p) by lia.
  rewrite fexp_small by lia. unfold shl_align.
  destruct (digits p - 53 - - Z.of_nat k) as [|q|q] eqn:Hq.
  - apply round_exact; lia.
  - apply round_exact; lia.
  - rewrite pos_iter_shl, <- shl_add.
    replace (digits p - 53) with (- Z.of_nat (Pos.to_nat q + k)) by lia.
    apply round_exact; lia.
Qed.

Lemma ofZ_0 : ofZ 0 = S754_zero false.
Proof. reflexivity. Qed.

Lemma ofZ_pos (p : positive) : Zpos p < 2 ^ 53 → ofZ (Zpos p) = canon p.
Proof.
  intros Hp. unfold ofZ, binary_normalize.
  apply (round_shifted p 0). by apply digits_le.
Qed.

(** Adding two non-negative integers is exact as long as the sum stays below
    2^53. *)
Lemma add_exact (a b : Z) :
  0 ≤ a → 0 ≤ b → a + b < 2 ^ 53 → add (ofZ a) (ofZ b) = ofZ (a + b).
Proof.
  intros Ha Hb Hsum.
  destruct a as [|pa|pa]; [|clear Ha|lia].
  { rewrite ofZ_0, Z.add_0_l. unfold add.
    destruct b as [|pb|pb]; [done| |lia]. by rewrite ofZ_pos by lia. }
  destruct b as [|pb|pb]; [|clear Hb|lia].
  { rewrite ofZ_0, Z.add_0_r. unfold add. by rewrite ofZ_pos by lia. }
  rewrite !ofZ_pos by lia. unfold add, canon, SFadd, cond_Zopp.
  assert (digits pa ≤ 53) as Hda by (apply digits_le; lia).
  assert (digits pb ≤ 53) as Hdb by (apply digits_le; lia).
  pose proof (digits_pos pa). pose proof (digits_pos pb).
  set (ez := Z.min (digits pa - 53) (digits pb - 53)).
  set (K := Z.to_nat (- ez)).
  assert (∀ p, digits p ≤ 53 → ez ≤ digits p - 53 →
            fst (shl_align (shl (Z.to_nat (53 - digits p)) p) (digits p - 53) ez)
            = shl K p) as Halign.
  { intros p Hp Hez. unfold shl_align.
    destruct (ez - (digits p - 53)) as [|q|q] eqn:Hq; simpl; [|lia|].
    - f_equal. lia.
    - rewrite pos_iter_shl, <- shl_add. f_equal. lia. }
  rewrite !Halign by lia.
  assert (Zpos (shl K pa) + Zpos (shl K pb) = Zpos (shl K (pa + pb))) as ->.
  { rewrite !Zpos_shl. lia. }
  unfold binary_normalize. replace ez with (- Z.of_nat K) by lia.
  rewrite round_shifted by (apply digits_le; lia).
  change (Zpos pa + Zpos pb) with (Zpos (pa + pb)). by rewrite ofZ_pos by lia.
Qed.

(** Dividing ten times an integer by ten is exact. *)
Lemma div10_exact (t : Z) :
  0 ≤ t → 10 * t < 2 ^ 53 → div (ofZ (10 * t)) (ofZ 10) = ofZ t.
Proof.
  intros Ht Hlt. destruct t as [|pt|pt]; [done| |lia].
  change (10 * Zpos pt) with (Zpos (10 * pt)) in *.
  rewrite !ofZ_pos by lia. unfold div, canon at 1 2, SFdiv.
  set (D := digits (10 * pt)).
  assert (digits pt ≤ 53) as Hdt by (apply digits_le; lia).
  assert (D ≤ 53) as HD by (apply digits_le; lia).
  pose proof (digits_pos pt) as Hdt1.
  assert (digits pt + 3 < D + 1 ∧ D ≤ digits pt + 4) as [HD3 HD4].
  { destruct (digits_bounds pt) as [Hlo Hhi]. split.
    - assert (digits pt + 2 < D); [|lia]. apply digits_ge.
      replace (digits pt + 2) with (digits pt - 1 + 3) by lia.
      rewrite Z.pow_add_r by lia. change (2 ^ 3) with 8. lia.
    - apply digits_le; [lia|]. rewrite Z.pow_add_r by lia. change (2 ^ 4) with 16. lia. }
  change (digits 10) with 4. change (Z.to_nat (53 - 4)) with 49%nat.
  change (4 - 53) with (-49).
  set (k := Z.to_nat (57 - D)).
  assert (digits (shl 49 10) = 53) as Hd10 by reflexivity.
  assert (Zpos (shl 49 10) = 10 * 2 ^ 49) as Hm10 by (by rewrite Zpos_shl).
  set (m10 := shl 49 10) in *.
  assert (SFdiv_core_binary 53 1024 (Zpos (shl (Z.to_nat (53 - D)) (10 * pt))) (D - 53)
            (Zpos m10) (-49)
          = (Zpos (shl k pt), - Z.of_nat k, loc_Exact)) as ->.
  { unfold SFdiv_core_binary. cbn [Zdigits2].
    change (Zpos (digits2_pos m10)) with (digits m10).
    change (Zpos (digits2_pos (shl (Z.to_nat (53 - D)) (10 * pt))))
      with (digits (shl (Z.to_nat (53 - D)) (10 * pt))).
    rewrite digits_shl, Hd10. fold D.
    replace (D + Z.of_nat (Z.to_nat (53 - D)) + (D - 53) - (53 + -49))
      with (D - 4) by lia.
    rewrite fexp_small by lia.
    replace (Z.min (D - 4 - 53) (D - 53 - -49)) with (D - 57) by lia.
    replace (D - 53 - -49 - (D - 57)) with 53 by lia.
    rewrite Z.shiftl_mul_pow2 by lia.
    assert (Zpos (shl (Z.to_nat (53 - D)) (10 * pt)) * 2 ^ 53
            = Zpos (shl k pt) * Zpos m10) as ->.
    { rewrite Hm10, !Zpos_shl. rewrite Pos2Z.inj_mul.
      replace (Z.of_nat (Z.to_nat (53 - D))) with (53 - D) by lia.
      replace (Z.of_nat k) with (4 + (53 - D)) by lia.
      rewrite (Z.pow_add_r 2 4) by lia.
      change (2 ^ 4) with 16. change (2 ^ 53) with (16 * 2 ^ 49).
      generalize (2 ^ (53 - D)) (2 ^ 49). intros; lia. }
    pose proof (Z.div_mul (Zpos (shl k pt)) (Zpos m10) ltac:(lia)) as Hq.
    pose proof (Z.mod_mul (Zpos (shl k pt)) (Zpos m10) ltac:(lia)) as Hr.
    unfold Z.div, Z.modulo in Hq, Hr.
    destruct (Z.div_eucl _ _) as [q r]. simpl in Hq, Hr. subst q r.
    f_equal. f_equal. lia. }
  apply round_exact; lia.
Qed.

(** Comparing with 25. *)
Lemma gt_25 (s : Z) : 0 ≤ s → s < 2 ^ 53 → gt (ofZ s) (ofZ 25) = (25 <? s).
Proof.
  intros Hs Hlt. destruct s as [|ps|ps]; [done| |lia].
  rewrite ofZ_pos by done. unfold gt, SFltb, SFcompare, ofZ.
  change (binary_normalize 53 1024 25 0 false) with (canon 25). unfold canon.
  change (digits 25) with 5. destruct (digits_bounds ps) as [Hlo Hhi].
  destruct (Z.compare_spec (5 - 53) (digits ps - 53)) as [Heq|Hl|Hg].
  - assert (digits ps = 5) as Hd by lia. rewrite Hd in *.
    change (Pos.compare_cont Eq ?a ?b) with (a ?= b)%positive.
    change (Z.to_nat (53 - 5)) with 48%nat.
    pose proof (Zpos_shl 48 25) as H25. pose proof (Zpos_shl 48 ps) as Hps.
    change (2 ^ Z.of_nat 48) with 281474976710656 in *.
    destruct (Pos.compare_spec (shl 48 25) (shl 48 ps)) as [Heq'|Hl|Hg];
      symmetry; [apply Z.ltb_ge|apply Z.ltb_lt|apply Z.ltb_ge]; lia.
  - symmetry. apply Z.ltb_lt.
    assert (2 ^ 5 ≤ 2 ^ (digits ps - 1)) by (apply Z.pow_le_mono_r; lia).
    change (2 ^ 5) with 32 in *. lia.
  - symmetry. apply Z.ltb_ge.
    assert (2 ^ digits ps ≤ 2 ^ 4) by (apply Z.pow_le_mono_r; lia).
    change (2 ^ 4) with 16 in *. lia.
Qed.
(** The sum of [validate] over scores that are multiples of 10. *)
Lemma sum_tenths_exact (l : list Z) (a : Z) :
  0 ≤ a → Forall (λ s, 0 ≤ s ∧ (10 | s)) l → 10 * a + foldr Z.add 0 l < 2 ^ 53 →
  foldl (fun sum score => add sum (div (ofZ score) (ofZ 10))) (ofZ a) l
  = ofZ (a + foldr Z.add 0 l / 10).
Proof.
  intros Ha Hl. revert a Ha. induction Hl as [|x l [Hx [t ->]] Hl IH]; intros a Ha Hsum.
  - simpl. by rewrite Z.add_0_r.
  - simpl in *.
    assert (0 ≤ foldr Z.add 0 l) as Hrest.
    { clear -Hl. induction Hl as [|y l [Hy _] _ IH]; simpl; lia. }
    replace (t * 10) with (10 * t) by lia.
    rewrite div10_exact, add_exact by lia.
    rewrite IH by lia. f_equal.
    replace (10 * t + foldr Z.add 0 l) with (t * 10 + foldr Z.add 0 l) by lia.
    rewrite Z.div_add_l by lia. lia.
Qed.

End DoubleFacts.

Module HandFacts.
Import GameHand HandSpec.

Lemma getPlayerHandTotal_default pid h : getPlayerHandTotal pid h = bidderTotal pid h.
Proof. unfold getPlayerHandTotal, bidderTotal. by rewrite !orZero_default. Qed.

Lemma isBidderSet_inv h :
  isBidderSet h = true →
  ∃ b bid, bidderId h = Some b ∧ winningBid h = Some bid ∧ b ≠ ""%string ∧
           bid ≠ 0 ∧ bidderTotal b h < bid.
Proof.
  unfold isBidderSet, bidderTotal.
  destruct (bidderId h) as [b|]; [|discriminate].
  destruct (winningBid h) as [bid|]; [|discriminate].
  destruct (strTruthy b) eqn:Hb; simpl; [|discriminate].
  destruct (numTruthy bid) eqn:Hn; simpl; [|discriminate].
  rewrite !orZero_default. intros Hlt%Z.ltb_lt.
  exists b, bid. by rewrite <- strTruthy_true, <- numTruthy_true.
Qed.

(** C5.  [isBidderSet()] answers true exactly when a bidder and a bid are
    both set (a non-empty id, and a bid that is neither [null] nor 0, as the
    guard of the method reads them) and the bidder's meld plus trick score,
    missing entries counting 0, is strictly below the bid.  An exact make is
    not a set, and an absent bidder or bid is never a set.  On a hand whose
    bidder id is not empty and whose bidder total is not negative, the guard
    asks no more than that bidder and bid are not [null]. *)
Theorem isBidderSet_iff (h : t) :
  (isBidderSet h = true ↔
     ∃ b bid, bidderId h = Some b ∧ b ≠ ""%string ∧
              winningBid h = Some bid ∧ bid ≠ 0 ∧
              default 0 (playerMeld h !! b) + default 0 (playerScores h !! b) < bid)
  ∧ (∀ b bid, bidderId h = Some b ∧ winningBid h = Some bid ∧
              default 0 (playerMeld h !! b) + default 0 (playerScores h !! b) = bid →
              isBidderSet h = false)
  ∧ (bidderId h = None ∨ winningBid h = None → isBidderSet h = false)
  ∧ ((∀ b, bidderId h = Some b → b ≠ ""%string ∧ 0 ≤ bidderTotal b h) →
     (isBidderSet h = true ↔
        ∃ b bid, bidderId h = Some b ∧ winningBid h = Some bid ∧ bidderTotal b h < bid)).
Proof.
  split; [split|split; [|split]].
  - intros (b & bid & ? & ? & ? & ? & ?)%isBidderSet_inv. by exists b, bid.
  - intros (b & bid & Hb & Hne & Hbid & Hnz & Hlt).
    unfold isBidderSet. rewrite Hb, Hbid.
    apply strTruthy_true in Hne. apply numTruthy_true in Hnz.
    rewrite Hne, Hnz. simpl. rewrite !orZero_default. by apply Z.ltb_lt.
  - intros b bid (Hb & Hbid & Heq).
    unfold isBidderSet. rewrite Hb, Hbid.
    destruct (negb (strTruthy b) || negb (numTruthy bid)); [done|].
    rewrite !orZero_default. apply Z.ltb_ge. lia.
  - unfold isBidderSet. intros [-> | ->]; [done|]. by destruct (bidderId h).
  - intros Hdata. split.
    + intros (b & bid & ? & ? & ? & ? & ?)%isBidderSet_inv. by exists b, bid.
    + intros (b & bid & Hb & Hbid & Hlt).
      destruct (Hdata b Hb) as [Hne Hpos].
      unfold isBidderSet. rewrite Hb, Hbid.
      apply strTruthy_true in Hne. rewrite Hne.
      assert (numTruthy bid = true) as -> by (apply numTruthy_true; lia).
      simpl. rewrite !orZero_default. by apply Z.ltb_lt.
Qed.

Lemma hand_roundtrip (now : string) (h : t) : fromData now (toData h) = h.
Proof. by destruct h. Qed.

(** C7.  Reading back the record written by [toData] gives the hand itself,
    field for field, whatever the clock says and whether or not the hand was
    thrown in. *)
Theorem fromData_toData (now : string) (h : t) : fromData now (toData h) = h.
Proof. apply hand_roundtrip. Qed.

(** ** validate *)

Lemma rem10_divide (m : Z) : Z.rem m 10 = 0 ↔ (10 | m).
Proof. apply Z.rem_divide. lia. Qed.

Lemma entriesIn_nil (m : gmap string Z) : entriesIn [] m = [].
Proof. reflexivity. Qed.

Lemma entriesIn_cons (k : string) (keys : list string) (m : gmap string Z) :
  entriesIn (k :: keys) m
  = match m !! k with
    | Some v => (k, v) :: entriesIn keys m
    | None => entriesIn keys m
    end.
Proof. unfold entriesIn. simpl. by destruct (m !! k). Qed.

Lemma entriesIn_empty (keys : list string) : entriesIn keys ∅ = [].
Proof.
  induction keys as [|k keys IH]; [done|].
  by rewrite entriesIn_cons, lookup_empty.
Qed.

Lemma elem_of_entriesIn (keys : list string) (m : gmap string Z) (k : string) (v : Z) :
  (k, v) ∈ entriesIn keys m ↔ k ∈ keys ∧ m !! k = Some v.
Proof.
  induction keys as [|k' keys IH].
  - rewrite entriesIn_nil. split; [by intros ?%not_elem_of_nil|by intros [?%not_elem_of_nil _]].
  - rewrite entriesIn_cons, elem_of_cons. destruct (m !! k') as [v'|] eqn:Hk'.
    + rewrite elem_of_cons, IH. split.
      * intros [[= -> ->]|[? ?]]; auto.
      * intros [[->|?] Hv]; [left|right; done]. congruence.
    + rewrite IH. split; [intros [? ?]; auto|].
      intros [[->|?] Hv]; [congruence|done].
Qed.

Lemma NoDup_entriesIn (keys : list string) (m : gmap string Z) :
  NoDup keys → NoDup (entriesIn keys m).
Proof.
  induction 1 as [|k keys Hk _ IH]; [constructor|].
  rewrite entriesIn_cons. destruct (m !! k) as [v|]; [|done].
  constructor; [|done]. by intros [? _]%elem_of_entriesIn.
Qed.

(** An enumeration of the keys gives the entries of the map, in some
    order. *)
Lemma entriesIn_enumerates (keys : list string) (m : gmap string Z) :
  enumerates keys m → entriesIn keys m ≡ₚ map_to_list m.
Proof.
  intros [Hnd Hkeys]. apply NoDup_Permutation.
  - by apply NoDup_entriesIn.
  - apply NoDup_map_to_list.
  - intros [k v]. rewrite elem_of_entriesIn, elem_of_map_to_list. split; [by intros [_ ?]|].
    intros Hv. split; [|done]. apply Hkeys. by exists v.
Qed.

(** A way to check an enumeration by computation. *)
Lemma enumerates_dom (keys : list string) (m : gmap string Z) :
  bool_decide (NoDup keys) = true →
  bool_decide (list_to_set keys =@{gset string} dom m) = true →
  enumerates keys m.
Proof.
  intros Hnd%bool_decide_eq_true Hdom%bool_decide_eq_true. split; [done|].
  intros k. by rewrite <- elem_of_dom, <- Hdom, elem_of_list_to_set.
Qed.

Lemma foldr_add_perm (l l' : list Z) : l ≡ₚ l' → foldr Z.add 0 l = foldr Z.add 0 l'.
Proof. induction 1; simpl; lia. Qed.

Lemma trickPoints_entriesIn (scoreKeys : list string) (h : t) :
  enumerates scoreKeys (playerScores h) →
  foldr Z.add 0 ((entriesIn scoreKeys (playerScores h)).*2) = trickPoints h.
Proof.
  intros Hkeys. unfold trickPoints. apply foldr_add_perm.
  by rewrite (entriesIn_enumerates _ _ Hkeys).
Qed.

Lemma meldErrors_badMelds meldKeys players h :
  meldErrors meldKeys players h = meldMessage players <$> badMelds meldKeys h.
Proof.
  unfold meldErrors, badMelds.
  induction (entriesIn meldKeys (playerMeld h)) as [|[pid m] l IH]; [done|].
  simpl. rewrite IH, filter_cons. simpl.
  destruct (Z.eqb_spec (Z.rem m 10) 0) as [Hz|Hz]; simpl.
  - rewrite decide_False; [done|]. intros Hn. apply Hn. by apply rem10_divide.
  - rewrite decide_True; [done|]. intros Hd. by apply Hz, rem10_divide.
Qed.

Lemma badMelds_nil meldKeys h :
  map_Forall (λ _ m, (10 | m)) (playerMeld h) → badMelds meldKeys h = [].
Proof.
  intros Hm. unfold badMelds.
  assert (Forall (λ kv, (10 | kv.2)) (entriesIn meldKeys (playerMeld h))) as Hall.
  { apply Forall_forall. intros [k m] [_ Hk]%elem_of_entriesIn. by apply (Hm k). }
  induction Hall as [|kv l Hkv _ IH]; [done|].
  rewrite filter_cons. by rewrite decide_False by auto.
Qed.

(** On trick scores that are multiples of 10 the doubles of [validate] hold
    the number of tricks itself. *)
Lemma totalTricks_exact (scoreKeys : list string) (h : t) :
  enumerates scoreKeys (playerScores h) → tricksTimesTen h →
  totalTricks scoreKeys h = Double.ofZ (trickPoints h / 10).
Proof.
  intros Hkeys [Hten Hsafe]. unfold totalTricks.
  rewrite (DoubleFacts.sum_tenths_exact _ 0); [| done | | ].
  - by rewrite (trickPoints_entriesIn _ _ Hkeys).
  - apply Forall_fmap, Forall_forall. intros [k v] [_ Hk]%elem_of_entriesIn.
    by apply (Hten k).
  - by rewrite (trickPoints_entriesIn _ _ Hkeys).
Qed.

Lemma trickPoints_nonneg (h : t) :
  map_Forall (λ _ s, 0 ≤ s ∧ (10 | s)) (playerScores h) → 0 ≤ trickPoints h ∧ (10 | trickPoints h).
Proof.
  intros Hten. unfold trickPoints.
  apply map_Forall_to_list in Hten.
  induction Hten as [|[k v] l [Hv Hd] _ [IH1 IH2]].
  - split; [simpl; lia|apply Z.divide_0_r].
  - rewrite fmap_cons. cbn [foldr snd] in *.
    split; [lia|by apply Z.divide_add_r].
Qed.

Lemma tenth_le_25 (tp : Z) : (10 | tp) → (inject_Z tp / 10 <= 25)%Q ↔ tp / 10 ≤ 25.
Proof.
  intros [t ->]. rewrite Z.div_mul by lia. split.
  - intros Hle. apply (Qmult_le_compat_r _ _ 10) in Hle; [|done].
    assert (inject_Z (t * 10) / 10 * 10 == inject_Z (t * 10))%Q as Heq by (field).
    rewrite Heq in Hle. change (25 * 10)%Q with (inject_Z 250) in Hle.
    rewrite <- Zle_Qle in Hle. lia.
  - intros Hle. apply Qle_shift_div_r; [reflexivity|].
    change (25 * 10)%Q with (inject_Z 250). rewrite <- Zle_Qle. lia.
Qed.

Lemma trickErrors_exact (scoreKeys : list string) (h : t) :
  enumerates scoreKeys (playerScores h) → tricksTimesTen h →
  trickErrors scoreKeys h
  = if decide (inject_Z (trickPoints h) / 10 <= 25)%Q then []
    else ["Total tricks cannot exceed 25"%string].
Proof.
  intros Hkeys Hten. unfold trickErrors.
  rewrite (totalTricks_exact _ _ Hkeys Hten).
  destruct Hten as [Hten Hsafe]. destruct (trickPoints_nonneg h Hten) as [Hpos Hdiv].
  assert (0 ≤ trickPoints h / 10) by (apply Z.div_pos; lia).
  assert (trickPoints h / 10 < 2 ^ 53).
  { apply Z.le_lt_trans with (trickPoints h); [|done].
    apply Z.div_le_upper_bound; lia. }
  rewrite DoubleFacts.gt_25 by done.
  destruct (Z.ltb_spec 25 (trickPoints h / 10)); destruct (decide _) as [Hq|Hq];
    try done; rewrite tenth_le_25 in Hq by done; lia.
Qed.

(** C8, amended.  [validate(players)] leaves the hand as it was, and [valid]
    says whether the error list is empty.  On a hand whose stored trick
    scores are numbers of tricks times 10 (what [setPlayerScore] is
    documented to take: none negative, their total below 2^53), whatever
    the order in which the keys of the two objects are gone through: the
    error list is one message for each stored meld that is not a multiple
    of 10, each such player once and in the order of the keys, followed by
    one message when the total of tricks (the sum of the stored trick scores
    divided by 10) exceeds 25; so the list is empty exactly when every
    stored meld is a multiple of 10 and the tricks total at most 25. *)
Theorem validate_spec (meldKeys scoreKeys : list string) (players : list Player.t) (h : t) :
  (validate meldKeys scoreKeys players h).2 = h
  ∧ (valid (validate meldKeys scoreKeys players h).1 = true
     ↔ errors (validate meldKeys scoreKeys players h).1 = [])
  ∧ (enumerates meldKeys (playerMeld h) → enumerates scoreKeys (playerScores h) →
     tricksTimesTen h →
     errors (validate meldKeys scoreKeys players h).1 =
       (meldMessage players <$> badMelds meldKeys h) ++
       (if decide (inject_Z (trickPoints h) / 10 <= 25)%Q then []
        else ["Total tricks cannot exceed 25"%string])
     ∧ badMelds meldKeys h ≡ₚ filter (λ kv, ¬ (10 | kv.2)) (map_to_list (playerMeld h))
     ∧ (errors (validate meldKeys scoreKeys players h).1 = [] ↔
          map_Forall (λ _ m, (10 | m)) (playerMeld h) ∧
          (inject_Z (trickPoints h) / 10 <= 25)%Q)).
Proof.
  split; [done|]. split.
  { simpl. rewrite Nat.eqb_eq. apply length_zero_iff_nil. }
  intros Hmk Hsk Hten.
  assert (errors (validate meldKeys scoreKeys players h).1 =
            (meldMessage players <$> badMelds meldKeys h) ++
            (if decide (inject_Z (trickPoints h) / 10 <= 25)%Q then []
             else ["Total tricks cannot exceed 25"%string])) as Herrors.
  { simpl. by rewrite meldErrors_badMelds, (trickErrors_exact _ _ Hsk Hten). }
  assert (badMelds meldKeys h ≡ₚ filter (λ kv, ¬ (10 | kv.2)) (map_to_list (playerMeld h)))
    as Hbad.
  { unfold badMelds. by rewrite (entriesIn_enumerates _ _ Hmk). }
  split; [done|]. split; [done|]. rewrite Herrors. split.
  - intros [Hm Ht]%app_eq_nil. split.
    + apply fmap_nil_inv in Hm. rewrite Hm in Hbad. symmetry in Hbad.
      apply Permutation_nil_r in Hbad.
      apply map_Forall_to_list, Forall_forall. intros [k m] Hin. simpl.
      destruct (decide (10 | m)) as [|Hn]; [done|].
      assert ((k, m) ∈ filter (λ kv, ¬ (10 | kv.2)) (map_to_list (playerMeld h))) as Hin'
        by (by apply list_elem_of_filter).
      rewrite Hbad in Hin'. by apply not_elem_of_nil in Hin'.
    + by destruct (decide _).
  - intros [Hm Ht]. rewrite (badMelds_nil _ _ Hm). by rewrite decide_True.
Qed.

Lemma crookedHand_shape :
  enumerates ["p1"; "p2"]%string (playerMeld crookedHand)
  ∧ enumerates ["p1"; "p2"]%string (playerScores crookedHand)
  ∧ tricksTimesTen crookedHand.
Proof.
  split; [by apply enumerates_dom; vm_compute|].
  split; [by apply enumerates_dom; vm_compute|].
  split; [|by vm_compute].
  apply map_Forall_to_list, Forall_forall. intros [k v] Hkv. simpl.
  assert (v = 140 ∨ v = 120) as [->| ->].
  { apply elem_of_map_to_list in Hkv. unfold crookedHand in Hkv. simpl in Hkv.
    apply lookup_insert_Some in Hkv as [[_ <-]|[_ Hkv]]; [by right|].
    apply lookup_insert_Some in Hkv as [[_ <-]|[_ Hkv]]; [by left|].
    by rewrite lookup_empty in Hkv. }
  - split; [lia|by exists 14].
  - split; [lia|by exists 12].
Qed.

Lemma validate_spec_witness :
  errors (validate ["p1"; "p2"]%string ["p1"; "p2"]%string
            [Player.mk "p1" "Alice"; Player.mk "p2" "Bob"] crookedHand).1
  = ["Alice's meld must be divisible by 10"%string; "Total tricks cannot exceed 25"%string].
Proof.
  destruct crookedHand_shape as (Hmk & Hsk & Hten).
  destruct (validate_spec ["p1"; "p2"]%string ["p1"; "p2"]%string
              [Player.mk "p1" "Alice"; Player.mk "p2" "Bob"] crookedHand)
    as (_ & _ & Hspec).
  destruct (Hspec Hmk Hsk Hten) as (Herrors & _).
  rewrite Herrors. vm_compute. reflexivity.
Defined.

(** Outside that range the doubles show (C8 does not hold for every hand):
    with melds of 20 and 40 and trick scores 1, 161 and 88, stored in this
    order, every meld is a multiple of 10 and the trick scores add up to
    250, a total of 25 tricks; the sum of the tenths comes out above 25 and
    the hand is turned down. *)
Lemma validate_rounds_the_total :
  map_Forall (λ _ m, (10 | m)) (playerMeld roundingHand)
  ∧ trickPoints roundingHand = 250
  ∧ (inject_Z (trickPoints roundingHand) / 10 <= 25)%Q
  ∧ totalTricks ["p1"; "p2"; "p3"]%string roundingHand
    = S754_finite false 7036874417766401 (-48)
  ∧ Double.ofZ 25 = S754_finite false 7036874417766400 (-48)
  ∧ validate ["p1"; "p2"]%string ["p1"; "p2"; "p3"]%string [] roundingHand
    = ({| valid := false; errors := ["Total tricks cannot exceed 25"%string] |},
       roundingHand).
Proof.
  split.
  { intros k m Hk. unfold roundingHand in Hk. simpl in Hk.
    apply lookup_insert_Some in Hk as [[_ <-]|[_ Hk]]; [by exists 4|].
    apply lookup_insert_Some in Hk as [[_ <-]|[_ Hk]]; [by exists 2|].
    by rewrite lookup_empty in Hk. }
  split; [by vm_compute|]. split; [by vm_compute|].
  split; [by vm_compute|]. split; by vm_compute.
Qed.

(** ** throwIn *)

(** The setters are not guarded: a hand that was thrown in takes a bid
    again (the irreversibility that C9 asks for does not hold). *)
Lemma thrownIn_hand_takes_bid :
  let h := setWinningBid 300 "p1" "Alice" (throwIn (new "t0" 1 "p2" "Bob")) in
  thrownIn h = true ∧ winningBid h = Some 300 ∧ bidderId h = Some "p1"%string
  ∧ bidderName h = Some "Alice"%string.
Proof. by cbv. Qed.

Lemma run_app ops1 ops2 h : run (ops1 ++ ops2) h = run ops2 (run ops1 h).
Proof. unfold run. apply foldl_app. Qed.

Lemma apply_keeps_thrownIn o h : thrownIn h = true → thrownIn (apply o h) = true.
Proof. by destruct o. Qed.

Lemma run_keeps_thrownIn ops h : thrownIn h = true → thrownIn (run ops h) = true.
Proof.
  revert h. induction ops as [|o ops IH]; intros h Hh; [done|].
  apply IH. by apply apply_keeps_thrownIn.
Qed.

(** C9, amended.  [throwIn()] clears the bid, the bidder and both maps and
    raises the flag; no later hand operation lowers the flag; the setters
    store what they are given on a thrown-in hand as on any other. *)
Theorem throwIn_clears_flag_stays (h : t) (ops : list op) :
  (winningBid (throwIn h) = None ∧ bidderId (throwIn h) = None
   ∧ bidderName (throwIn h) = None ∧ playerMeld (throwIn h) = ∅
   ∧ playerScores (throwIn h) = ∅ ∧ thrownIn (throwIn h) = true)
  ∧ thrownIn (run ops (throwIn h)) = true
  ∧ (∀ bid b n, winningBid (run (ops ++ [SetWinningBid bid b n]) (throwIn h)) = Some bid
                ∧ bidderId (run (ops ++ [SetWinningBid bid b n]) (throwIn h)) = Some b
                ∧ bidderName (run (ops ++ [SetWinningBid bid b n]) (throwIn h)) = Some n)
  ∧ (∀ p m, playerMeld (run (ops ++ [SetPlayerMeld p m]) (throwIn h)) !! p = Some m)
  ∧ (∀ p s, playerScores (run (ops ++ [SetPlayerScore p s]) (throwIn h)) !! p = Some s).
Proof.
  split; [done|]. split; [by apply run_keeps_thrownIn|].
  split; [|split]; intros; rewrite run_app; simpl;
    [done | apply lookup_insert_eq | apply lookup_insert_eq].
Qed.

End HandFacts.

(** * Properties of the session *)

Module GameFacts.
Import Game GameSpec.

Lemma thrownIn_bidderKnown known h : GameHand.thrownIn h = true → bidderKnown known h.
Proof. intros Ht Hf. congruence. Qed.

(** The three cases of the scoring rule, spelled out. *)
Lemma handContribution_cases (h : GameHand.t) (pid : string) :
  (GameHand.thrownIn h = true → handContribution h pid = 0)
  ∧ (GameHand.thrownIn h = false → GameHand.isBidderSet h = true →
     ∃ b bid, GameHand.bidderId h = Some b ∧ GameHand.winningBid h = Some bid
              ∧ handContribution h b = - bid
              ∧ (pid ≠ b → handContribution h pid = handTotal h pid))
  ∧ (GameHand.thrownIn h = false → GameHand.isBidderSet h = false →
     handContribution h pid = handTotal h pid).
Proof.
  unfold handContribution, handTotal. repeat split.
  - by intros ->.
  - intros -> Hset. rewrite Hset.
    destruct (HandFacts.isBidderSet_inv h Hset) as (b & bid & Hb & Hbid & _).
    exists b, bid. rewrite Hb, Hbid. repeat split.
    + by rewrite bool_decide_eq_true_2.
    + intros Hne. rewrite bool_decide_eq_false_2; [done|congruence].
  - by intros -> ->.
Qed.

(** Whatever a thrown-in hand carries, the scoring pass skips it. *)
Lemma scoreHand_thrownIn ps h sc : GameHand.thrownIn h = true → scoreHand ps h sc = Ok sc.
Proof. intros Ht. unfold scoreHand. by rewrite Ht. Qed.

(** ** Adding to every entry at once *)

Lemma bump_ids f sc : scoreIds (bump f sc) = scoreIds sc.
Proof. unfold scoreIds, bump. rewrite <- list_fmap_compose. by apply list_fmap_ext. Qed.

Lemma bump_ext f g sc :
  (∀ q, q ∈ scoreIds sc → f q = g q) → bump f sc = bump g sc.
Proof.
  intros Hfg. apply map_ext_in. intros s Hs. f_equal. f_equal.
  apply Hfg. unfold scoreIds. apply list_elem_of_fmap.
  exists s. split; [done|]. by apply list_elem_of_In.
Qed.

Lemma bump_bump f g sc : bump g (bump f sc) = bump (fun q => f q + g q) sc.
Proof.
  unfold bump. rewrite map_map. apply map_ext. intros [i n s]. simpl.
  unfold ScoreEntry.setScore. simpl. f_equal. lia.
Qed.

Lemma bump_zero f sc : (∀ q, q ∈ scoreIds sc → f q = 0) → bump f sc = sc.
Proof.
  intros Hz. induction sc as [|[i n s] sc IH]; [done|]. simpl. f_equal.
  - unfold ScoreEntry.setScore. simpl. f_equal.
    rewrite Hz; [lia|]. unfold scoreIds. simpl. by left.
  - apply IH. intros q Hq. apply Hz. unfold scoreIds. simpl. by right.
Qed.

Lemma addToScore_bump pid d sc :
  NoDup (scoreIds sc) → pid ∈ scoreIds sc →
  addToScore (Some pid) d sc
  = Ok (bump (fun q => if bool_decide (q = pid) then d else 0) sc).
Proof.
  induction sc as [|[i n s] sc IH]; intros Hnd Hin.
  - by apply not_elem_of_nil in Hin.
  - unfold scoreIds in *. simpl in *. apply NoDup_cons in Hnd as [Hni Hnd].
    destruct (decide (i = pid)) as [->|Hne].
    + rewrite !bool_decide_eq_true_2 by done.
      f_equal. f_equal. symmetry. apply bump_zero. intros q Hq.
      rewrite bool_decide_eq_false_2; [done|]. intros ->. by apply Hni.
    + rewrite bool_decide_eq_false_2 by congruence.
      apply elem_of_cons in Hin as [->|Hin]; [done|].
      rewrite IH by done. simpl.
      rewrite bool_decide_eq_false_2 by done.
      f_equal. f_equal. unfold ScoreEntry.setScore. simpl. f_equal. lia.
Qed.

(** ** One pass over the players *)

Section CreditLoop.
Variable h : GameHand.t.
Variable keep : string → bool.

Local Abbreviation handTotal := (GameSpec.handTotal h).
Local Abbreviation credited := (GameSpec.credited h keep).
Local Abbreviation creditIf := (GameSpec.creditIf h keep).

Lemma creditPlayer_bump p sc :
  NoDup (scoreIds sc) → Player.id p ∈ scoreIds sc →
  creditPlayer h p sc
  = Ok (bump (fun q => if bool_decide (q = Player.id p) then handTotal (Player.id p) else 0) sc).
Proof.
  intros Hnd Hin. unfold creditPlayer, handTotal.
  rewrite !orZero_default. by apply addToScore_bump.
Qed.

Lemma creditLoop_bump ps sc :
  NoDup (Player.id <$> ps) → NoDup (scoreIds sc) →
  (∀ q, q ∈ Player.id <$> ps → q ∈ scoreIds sc) →
  forEach creditIf ps sc
  = Ok (bump (fun q => if bool_decide (q ∈ Player.id <$> ps) then credited q else 0) sc).
Proof.
  revert sc. induction ps as [|p ps IH]; intros sc Hps Hsc Hsub.
  - simpl. f_equal. symmetry. by apply bump_zero.
  - rewrite fmap_cons in Hps, Hsub. apply NoDup_cons in Hps as [Hp Hps].
    assert (Player.id p ∈ scoreIds sc) as Hpin by (apply Hsub; by left).
    assert (∀ q, q ∈ Player.id <$> ps → q ∈ scoreIds sc) as Hsub'
      by (intros q Hq; apply Hsub; by right).
    assert (∀ q, q ≠ Player.id p →
              bool_decide (q ∈ Player.id <$> p :: ps)
              = bool_decide (q ∈ Player.id <$> ps)) as Hother.
    { intros q Hne. apply bool_decide_ext. rewrite fmap_cons, elem_of_cons.
      split; [by intros [?|?] | by right]. }
    rewrite forEach_cons.
    destruct (keep (Player.id p)) eqn:Hk.
    + replace (creditIf p sc) with (creditPlayer h p sc)
        by (unfold creditIf; by rewrite Hk).
      rewrite creditPlayer_bump, bind_Ok by done.
      rewrite IH; [|done|by rewrite bump_ids|by (intros q Hq; rewrite bump_ids; auto)].
      f_equal. rewrite bump_bump. apply bump_ext. intros q _.
      unfold credited.
      destruct (decide (q = Player.id p)) as [->|Hne].
      * rewrite (bool_decide_eq_true_2 (_ = _)) by done.
        rewrite (bool_decide_eq_false_2 (_ ∈ Player.id <$> ps)) by done.
        rewrite bool_decide_eq_true_2 by (rewrite fmap_cons; by left).
        rewrite Hk. lia.
      * rewrite (bool_decide_eq_false_2 (_ = _)) by done.
        rewrite Hother by done. lia.
    + replace (creditIf p sc) with (Ok (A:=list ScoreEntry.t) sc)
        by (unfold creditIf; by rewrite Hk).
      rewrite bind_Ok, IH by done.
      f_equal. apply bump_ext. intros q _. unfold credited.
      destruct (decide (q = Player.id p)) as [->|Hne].
      * rewrite (bool_decide_eq_false_2 (_ ∈ Player.id <$> ps)) by done.
        rewrite bool_decide_eq_true_2 by (rewrite fmap_cons; by left).
        by rewrite Hk.
      * by rewrite Hother.
Qed.
End CreditLoop.

Lemma forEach_ext {A S} (f g : A → S → result S) xs s :
  (∀ x s', f x s' = g x s') → forEach f xs s = forEach g xs s.
Proof.
  intros Hfg. revert s. induction xs as [|x xs IH]; intros s; [done|].
  simpl. rewrite Hfg. destruct (g x s); simpl; [apply IH | done].
Qed.

(** ** One hand, then all hands *)

Lemma scoreHand_bump ps h sc :
  NoDup (Player.id <$> ps) → scoreIds sc = Player.id <$> ps →
  bidderKnown (Player.id <$> ps) h →
  scoreHand ps h sc = Ok (bump (handContribution h) sc).
Proof.
  intros Hnd Hal Hknown.
  assert (NoDup (scoreIds sc)) as Hsc by (by rewrite Hal).
  unfold scoreHand, handContribution.
  destruct (GameHand.thrownIn h) eqn:Hthrown.
  { f_equal. symmetry. by apply bump_zero. }
  destruct (GameHand.isBidderSet h) eqn:Hset.
  - destruct Hknown as (b & Hb & Hin); [done..|].
    rewrite Hb. rewrite addToScore_bump, bind_Ok by (by rewrite ?Hal).
    rewrite (forEach_ext _ (creditIf h (fun q => bool_decide (Some q ≠ Some b)))) by done.
    rewrite creditLoop_bump; [|done|by rewrite bump_ids|by rewrite bump_ids, Hal].
    f_equal. rewrite bump_bump. apply bump_ext. intros q Hq.
    rewrite Hal in Hq. rewrite (bool_decide_eq_true_2 (q ∈ _)) by done.
    unfold credited, handTotal.
    destruct (decide (q = b)) as [->|Hne];
      repeat case_bool_decide; congruence || lia.
  - rewrite (forEach_ext _ (creditIf h (fun _ => true))) by done.
    rewrite creditLoop_bump; [|done|done|by rewrite Hal].
    f_equal. apply bump_ext. intros q Hq. rewrite Hal in Hq.
    by rewrite bool_decide_eq_true_2.
Qed.

Lemma replay_shift hs pid (a c : Z) :
  foldl (fun total h => total + handContribution h pid) (a + c) hs
  = c + foldl (fun total h => total + handContribution h pid) a hs.
Proof.
  revert a. induction hs as [|h hs IH]; intros a; simpl; [lia|].
  rewrite <- IH. f_equal. lia.
Qed.

Lemma replay_cons h hs pid :
  replay (h :: hs) pid = handContribution h pid + replay hs pid.
Proof. unfold replay. simpl. apply replay_shift. Qed.

Lemma forEach_scoreHand_bump ps hs sc :
  NoDup (Player.id <$> ps) → scoreIds sc = Player.id <$> ps →
  Forall (bidderKnown (Player.id <$> ps)) hs →
  forEach (scoreHand ps) hs sc = Ok (bump (replay hs) sc).
Proof.
  intros Hnd Hal Hknown. revert sc Hal.
  induction Hknown as [|h hs Hh _ IH]; intros sc Hal.
  - simpl. f_equal. symmetry. by apply bump_zero.
  - rewrite forEach_cons, scoreHand_bump, bind_Ok by done.
    rewrite IH by (by rewrite bump_ids).
    f_equal. rewrite bump_bump. apply bump_ext. intros q _.
    by rewrite replay_cons.
Qed.

Lemma bump_reset f sc :
  bump f (resetScores sc) = map (fun s => ScoreEntry.setScore (f (ScoreEntry.playerId s)) s) sc.
Proof.
  unfold bump, resetScores. rewrite map_map. apply map_ext. by intros [i n s].
Qed.

Lemma resetScores_ids sc : scoreIds (resetScores sc) = scoreIds sc.
Proof. unfold scoreIds, resetScores. rewrite <- list_fmap_compose. by apply list_fmap_ext. Qed.

Lemma recalculateScores_wellFormed (g : t) :
  wellFormed g →
  recalculateScores g = Ok (withScores (replayedScores (hands g) (scores g)) g).
Proof.
  intros [Hnd Hal Hknown]. unfold recalculateScores.
  rewrite forEach_scoreHand_bump, bind_Ok; [|done|by rewrite resetScores_ids|done].
  by rewrite bump_reset.
Qed.

(** C1.  On a well-formed session [recalculateScores] returns normally and
    changes nothing but the scores; the new score list keeps every entry's
    id and name and gives each player the fold, from zero and in hand
    order, of [handContribution]: nothing for a thrown-in hand; for a hand
    whose bidder is set, minus the bid for the bidder and meld plus trick
    score for every other player; otherwise meld plus trick score for
    every player, the bidder included. *)
Theorem recalculateScores_replay (g : t) :
  wellFormed g →
  recalculateScores g = Ok (withScores (replayedScores (hands g) (scores g)) g).
Proof. apply recalculateScores_wellFormed. Qed.

(** ** The cached scores as an invariant *)

Lemma recalculateScores_engine g :
  recalculateScores g = engineScores g ≫= fun sc => Ok (withScores sc g).
Proof. reflexivity. Qed.

Lemma forEach_preserves {A S B} (f : A → S → result S) (view : S → B) xs :
  (∀ x s s', f x s = Ok s' → view s' = view s) →
  ∀ s s', forEach f xs s = Ok s' → view s' = view s.
Proof.
  intros Hf. induction xs as [|x xs IH]; intros s s' Hrun.
  - by injection Hrun as <-.
  - rewrite forEach_cons in Hrun. destruct (f x s) as [s1|] eqn:Hx; [|done].
    rewrite bind_Ok in Hrun. rewrite (IH _ _ Hrun). by apply (Hf x).
Qed.

Lemma addToScore_reset pid d sc sc' :
  addToScore pid d sc = Ok sc' → resetScores sc' = resetScores sc.
Proof.
  revert sc'. induction sc as [|s sc IH]; intros sc' Hadd; [done|].
  simpl in Hadd. case_bool_decide.
  - by injection Hadd as <-.
  - destruct (addToScore pid d sc) as [rest|]; [|done].
    injection Hadd as <-. simpl. f_equal. by apply IH.
Qed.

Lemma scoreHand_reset ps h sc sc' :
  scoreHand ps h sc = Ok sc' → resetScores sc' = resetScores sc.
Proof.
  unfold scoreHand. destruct (GameHand.thrownIn h).
  { by intros [= <-]. }
  destruct (GameHand.isBidderSet h).
  - destruct (addToScore _ _ sc) as [sc1|] eqn:Hbid; [|done].
    rewrite bind_Ok. intros Hloop.
    rewrite <- (addToScore_reset _ _ _ _ Hbid).
    revert Hloop. apply forEach_preserves. intros p s s'.
    case_bool_decide; [apply addToScore_reset | by intros [= <-]].
  - apply forEach_preserves. intros p s s'. apply addToScore_reset.
Qed.

Lemma engineScores_reset g sc :
  engineScores g = Ok sc → resetScores sc = resetScores (scores g).
Proof.
  unfold engineScores. intros Hrun.
  rewrite (forEach_preserves _ resetScores _ (scoreHand_reset (players g)) _ _ Hrun).
  unfold resetScores. rewrite map_map. by apply map_ext.
Qed.

Lemma engineScores_fixed g sc :
  engineScores g = Ok sc → engineScores (withScores sc g) = Ok sc.
Proof.
  intros Hrun. unfold engineScores in *. simpl.
  by rewrite (engineScores_reset g sc Hrun).
Qed.

Lemma handData_roundtrip now hs :
  map (GameHand.fromData now) (map GameHand.toData hs) = hs.
Proof.
  rewrite map_map. induction hs as [|h hs IH]; [done|].
  simpl. by rewrite IH, HandFacts.hand_roundtrip.
Qed.

(** ** addHand *)

Lemma wellFormed_withHands g h :
  wellFormed g → bidderKnown (playerIds g) h →
  wellFormed (withHands (hands g ++ [h]) g).
Proof.
  intros [Hnd Hal Hknown] Hh. split; [done|done|].
  simpl. apply Forall_app. split; [done|]. by apply Forall_singleton.
Qed.

(** C6.  On a well-formed session, for a hand whose bidder (if the hand is
    scored as set) is a player (a thrown-in hand always qualifies),
    [addHand(h)] appends [h], recomputes every score from the extended hand
    list, and only then rotates the dealer once:
    [dealerIndex] becomes [(dealerIndex + 1) % players.length], which is
    [(dealerIndex + 1) mod players.length] for a non-negative index. *)
Theorem addHand_appends_rescores_rotates (g : t) (h : GameHand.t) (d : Z) :
  wellFormed g → bidderKnown (playerIds g) h →
  players g ≠ [] → dealerIndex g = Num d →
  let n := Z.of_nat (length (players g)) in
  let g1 := withHands (hands g ++ [h]) g in
  let g2 := withScores (replayedScores (hands g ++ [h]) (scores g)) g1 in
  recalculateScores g1 = Ok g2
  ∧ addHand h g = Ok (advanceDealer g2)
  ∧ hands (advanceDealer g2) = hands g ++ [h]
  ∧ scores (advanceDealer g2) = replayedScores (hands g ++ [h]) (scores g)
  ∧ dealerIndex (advanceDealer g2) = Num (Z.rem (d + 1) n)
  ∧ (0 ≤ d → Z.rem (d + 1) n = (d + 1) mod n)
  ∧ players (advanceDealer g2) = players g
  ∧ targetScore (advanceDealer g2) = targetScore g
  ∧ endTime (advanceDealer g2) = endTime g
  ∧ winnerId (advanceDealer g2) = winnerId g.
Proof.
  intros Hwf Hh Hps Hd n g1 g2.
  assert (recalculateScores g1 = Ok g2) as Hrec.
  { unfold g2. by rewrite (recalculateScores_wellFormed g1 (wellFormed_withHands g h Hwf Hh)). }
  assert (n ≠ 0) as Hn.
  { unfold n. destruct (players g); [done|]. simpl. lia. }
  split; [done|]. split.
  { unfold addHand. fold g1. by rewrite Hrec. }
  split; [done|]. split; [done|]. split.
  { unfold advanceDealer. simpl. rewrite Hd. simpl. fold n.
    destruct (Z.eqb_spec n 0); [done|done]. }
  split; [|done].
  intros Hd0. apply Z.rem_mod_nonneg; lia.
Qed.

(** ** endGame *)

Lemma addHand_returns (g : t) (h : GameHand.t) :
  wellFormed g → bidderKnown (playerIds g) h →
  addHand h g
  = Ok (advanceDealer
          (withScores (replayedScores (hands g ++ [h]) (scores g))
             (withHands (hands g ++ [h]) g))).
Proof.
  intros Hwf Hh. unfold addHand.
  by rewrite (recalculateScores_wellFormed _ (wellFormed_withHands g h Hwf Hh)).
Qed.

Lemma wellFormed_endGame nowIso wid wname g :
  wellFormed g → wellFormed (endGame nowIso wid wname g).
Proof. by intros [? ? ?]. Qed.

(** C10.  [endGame] writes [endTime], [winnerId] and [winnerName] and
    nothing else, and a second [endGame] overwrites the three fields.
    [addHand] on an ended session does what it does on the session before it
    was ended, with the three end fields carried along: the same outcome in
    every case, and on a well-formed session, for a hand whose bidder (if
    set) is a player, it returns with the hand appended, the scores replayed
    from the extended hand list and the dealer moved on by one seat, the
    session staying ended. *)
Theorem endGame_frame (nowIso wid wname : string) (g : t) :
  (id (endGame nowIso wid wname g) = id g
   ∧ gameType (endGame nowIso wid wname g) = gameType g
   ∧ players (endGame nowIso wid wname g) = players g
   ∧ hands (endGame nowIso wid wname g) = hands g
   ∧ scores (endGame nowIso wid wname g) = scores g
   ∧ startTime (endGame nowIso wid wname g) = startTime g
   ∧ targetScore (endGame nowIso wid wname g) = targetScore g
   ∧ dealerIndex (endGame nowIso wid wname g) = dealerIndex g
   ∧ teamAssignments (endGame nowIso wid wname g) = teamAssignments g)
  ∧ (endTime (endGame nowIso wid wname g) = Some nowIso
     ∧ winnerId (endGame nowIso wid wname g) = Some wid
     ∧ winnerName (endGame nowIso wid wname g) = Some wname)
  ∧ (∀ h, addHand h (endGame nowIso wid wname g)
          = match addHand h g with
            | Ok g' => Ok (endGame nowIso wid wname g')
            | TypeError => TypeError
            end)
  ∧ (∀ nowIso' wid' wname',
       endGame nowIso' wid' wname' (endGame nowIso wid wname g)
       = endGame nowIso' wid' wname' g)
  ∧ (∀ h d,
       wellFormed g → bidderKnown (playerIds g) h →
       players g ≠ [] → dealerIndex g = Num d →
       ∃ g', addHand h (endGame nowIso wid wname g) = Ok g'
             ∧ hands g' = hands g ++ [h]
             ∧ scores g' = replayedScores (hands g ++ [h]) (scores g)
             ∧ dealerIndex g' = Num (Z.rem (d + 1) (Z.of_nat (length (players g))))
             ∧ players g' = players g
             ∧ endTime g' = Some nowIso
             ∧ winnerId g' = Some wid
             ∧ winnerName g' = Some wname
             ∧ isCompleted g' = true).
Proof.
  split; [done|]. split; [done|]. split; [|split; [done|]].
  - intros h. unfold addHand. rewrite !recalculateScores_engine.
    unfold engineScores. simpl.
    by destruct (forEach (scoreHand (players g)) (hands g ++ [h]) (resetScores (scores g))).
  - intros h d Hwf Hh Hps Hd.
    eexists. split.
    { apply addHand_returns; [by apply wellFormed_endGame|done]. }
    split; [done|]. split; [done|]. split; [|done].
    unfold advanceDealer. simpl. rewrite Hd. simpl.
    destruct (Z.eqb_spec (Z.of_nat (length (players g))) 0) as [Hz|]; [|done].
    destruct (players g); [done|]. simpl in Hz. lia.
Qed.

(** ** checkForWinner *)

Lemma foldl_higher_last (l : list ScoreEntry.t) (a : ScoreEntry.t) :
  ∃ pre post,
    a :: l = pre ++ foldl higher a l :: post
    ∧ Forall (fun s => ScoreEntry.score s ≤ ScoreEntry.score (foldl higher a l)) pre
    ∧ Forall (fun s => ScoreEntry.score s < ScoreEntry.score (foldl higher a l)) post.
Proof.
  induction l as [|x l IH] using rev_ind.
  - exists [], []. by repeat split.
  - destruct IH as (pre & post & Heq & Hpre & Hpost).
    rewrite foldl_app. simpl. set (w := foldl higher a l) in *.
    unfold higher. destruct (Z.ltb_spec (ScoreEntry.score x) (ScoreEntry.score w)).
    + exists pre, (post ++ [x]). split; [|split; [done|]].
      * rewrite app_comm_cons, Heq. by rewrite <- app_assoc.
      * apply Forall_app. split; [done|]. by apply Forall_singleton.
    + exists (pre ++ w :: post), []. split; [|split; [|done]].
      * by rewrite app_comm_cons, Heq.
      * apply Forall_app. split.
        -- eapply Forall_impl; [exact Hpre|]. simpl. intros; lia.
        -- apply Forall_cons. split; [done|].
           eapply Forall_impl; [exact Hpost|]. simpl. intros; lia.
Qed.

Lemma filter_split {A} (f : A → bool) (l pre' post' : list A) (w : A) :
  List.filter f l = pre' ++ w :: post' →
  ∃ pre post, l = pre ++ w :: post
              ∧ List.filter f pre = pre' ∧ List.filter f post = post'.
Proof.
  revert pre'. induction l as [|x l IH]; intros pre' Heq.
  - by destruct pre'.
  - simpl in Heq. destruct (f x) eqn:Hfx.
    + destruct pre' as [|y pre'].
      * injection Heq as Hx Heq. subst x. exists [], l. by repeat split.
      * injection Heq as Hx Heq. subst y.
        destruct (IH _ Heq) as (pre & post & -> & <- & <-).
        exists (x :: pre), post. simpl. by rewrite Hfx.
    + destruct (IH _ Heq) as (pre & post & -> & <- & <-).
      exists (x :: pre), post. simpl. by rewrite Hfx.
Qed.

(** With two players tied at the maximum the later one comes back (C3 asks
    for the first). *)
Lemma checkForWinner_tie_returns_later :
  scores tieGame
  = [ScoreEntry.mk "p1" "Alice" 1600; ScoreEntry.mk "p2" "Bob" 1600;
     ScoreEntry.mk "p3" "Carol" 1500]
  ∧ targetScore tieGame = 1500
  ∧ checkForWinner tieGame = Some (ScoreEntry.mk "p2" "Bob" 1600).
Proof. by repeat split. Qed.

(** C3, amended.  [checkForWinner] returns nothing exactly when no score
    reaches [targetScore]; otherwise it returns an entry of the score list
    that reaches the target, that no entry beats, and that every later
    entry is strictly below: among the players tied at the maximum it is
    the last one in order. *)
Theorem checkForWinner_last_highest (g : t) :
  (checkForWinner g = None ↔
     ∀ s, s ∈ scores g → ScoreEntry.score s < targetScore g)
  ∧ (∀ w, checkForWinner g = Some w →
       ∃ pre post,
         scores g = pre ++ w :: post
         ∧ targetScore g ≤ ScoreEntry.score w
         ∧ (∀ s, s ∈ pre → ScoreEntry.score s ≤ ScoreEntry.score w)
         ∧ (∀ s, s ∈ post → ScoreEntry.score s < ScoreEntry.score w)).
Proof.
  unfold checkForWinner.
  set (f := fun s => targetScore g <=? ScoreEntry.score s).
  split.
  - destruct (List.filter f (scores g)) as [|a l] eqn:Hfil.
    + split; [intros _|done]. intros s Hs.
      destruct (Z.leb_spec (targetScore g) (ScoreEntry.score s)) as [Hq|Hq]; [|done].
      assert (In s (List.filter f (scores g))) as Hin.
      { apply filter_In. split; [by apply list_elem_of_In|]. by apply Z.leb_le. }
      by rewrite Hfil in Hin.
    + split; [done|]. intros Hall. exfalso.
      assert (In a (List.filter f (scores g))) as Hin by (rewrite Hfil; by left).
      apply filter_In in Hin as [Hin Hq]. apply Z.leb_le in Hq.
      apply list_elem_of_In, Hall in Hin. lia.
  - intros w. destruct (List.filter f (scores g)) as [|a l] eqn:Hfil; [done|].
    intros [= <-].
    destruct (foldl_higher_last l a) as (pre' & post' & Heq & Hpre & Hpost).
    set (w := foldl higher a l) in *.
    rewrite Heq in Hfil.
    destruct (filter_split f _ _ _ _ Hfil) as (pre & post & Hsc & Hfpre & Hfpost).
    assert (targetScore g ≤ ScoreEntry.score w) as Hw.
    { assert (In w (List.filter f (scores g))) as Hin.
      { rewrite Hfil. apply in_or_app. right. by left. }
      apply filter_In in Hin as [_ Hq]. by apply Z.leb_le in Hq. }
    exists pre, post. split; [done|]. split; [done|]. split.
    + intros s Hs.
      destruct (Z.leb_spec (targetScore g) (ScoreEntry.score s)) as [Hq|Hq]; [|lia].
      assert (In s pre') as Hin.
      { rewrite <- Hfpre. apply filter_In. split; [by apply list_elem_of_In|].
        by apply Z.leb_le. }
      rewrite Forall_forall in Hpre. by apply Hpre, list_elem_of_In.
    + intros s Hs.
      destruct (Z.leb_spec (targetScore g) (ScoreEntry.score s)) as [Hq|Hq]; [|lia].
      assert (In s post') as Hin.
      { rewrite <- Hfpost. apply filter_In. split; [by apply list_elem_of_In|].
        by apply Z.leb_le. }
      rewrite Forall_forall in Hpost. by apply Hpost, list_elem_of_In.
Qed.

(** C2.  On the team scenario (team A at 800 + 750 = 1550 against a target
    of 1500) [checkForWinner] reports no winner: it compares each player's
    own score with the target and never adds up a team. *)
Theorem checkForWinner_team_scenario :
  targetScore teamGame = 1500
  ∧ teamAssignments teamGame
    = Some ([Player.mk "player1" "Alice"; Player.mk "player3" "Charlie"],
            [Player.mk "player2" "Bob"; Player.mk "player4" "Diana"])
  ∧ checkForWinner teamGame = None.
Proof. by repeat split. Qed.

(** ** The sample sessions *)

Lemma wellFormed_new nowId nowIso ps gt :
  NoDup (Player.id <$> ps) → wellFormed (new nowId nowIso ps gt).
Proof.
  intros Hnd. split; [done| |by apply Forall_nil].
  unfold scoreIds, playerIds. simpl.
  change (map ?f ps) with (f <$> ps).
  rewrite <- list_fmap_compose. by apply list_fmap_ext.
Qed.

Lemma replayedScores_ids hs sc : scoreIds (replayedScores hs sc) = scoreIds sc.
Proof.
  unfold scoreIds, replayedScores. change (map ?f sc) with (f <$> sc).
  rewrite <- list_fmap_compose. by apply list_fmap_ext.
Qed.

Lemma wellFormed_addHand g h g' :
  wellFormed g → bidderKnown (playerIds g) h → addHand h g = Ok g' → wellFormed g'.
Proof.
  intros Hwf Hh Hadd. pose proof (wellFormed_withHands g h Hwf Hh) as Hwf1.
  unfold addHand in Hadd. rewrite (recalculateScores_wellFormed _ Hwf1), bind_Ok in Hadd.
  injection Hadd as <-. destruct Hwf1 as [Hnd Hal Hknown].
  split; [done| |done]. simpl in *. by rewrite replayedScores_ids.
Qed.

Lemma twoPlayer_ids_distinct : NoDup (Player.id <$> [alice; bob]).
Proof. apply NoDup_cons. split; [|apply NoDup_singleton]. by intros [= ]%list_elem_of_singleton. Qed.

Lemma setHand_bidderKnown : bidderKnown ["p1"; "p2"]%string setHand.
Proof. intros _ _. exists "p1"%string. split; [reflexivity | by left]. Qed.

Lemma madeHand_bidderKnown : bidderKnown ["p1"; "p2"]%string madeHand.
Proof. intros _ Hset. vm_compute in Hset. discriminate. Qed.

Lemma staleGame_wellFormed : wellFormed staleGame.
Proof.
  split.
  - exact twoPlayer_ids_distinct.
  - reflexivity.
  - constructor; [exact setHand_bidderKnown|].
    constructor; [exact madeHand_bidderKnown | constructor].
Defined.

Lemma recalculateScores_replay_witness :
  recalculateScores staleGame
  = Ok (withScores [ScoreEntry.mk "p1" "Alice" (-170); ScoreEntry.mk "p2" "Bob" 290]
          staleGame).
Proof.
  rewrite (recalculateScores_replay staleGame staleGame_wellFormed).
  vm_compute. reflexivity.
Defined.

Lemma afterSetHand_added : addHand setHand twoPlayerGame = Ok afterSetHand.
Proof. vm_compute. reflexivity. Qed.

Lemma afterThrownHand_added : addHand thrownHand afterSetHand = Ok afterThrownHand.
Proof. vm_compute. reflexivity. Qed.

Lemma afterSetHand_wellFormed : wellFormed afterSetHand.
Proof.
  apply (wellFormed_addHand twoPlayerGame setHand).
  - apply wellFormed_new, twoPlayer_ids_distinct.
  - exact setHand_bidderKnown.
  - exact afterSetHand_added.
Qed.

Lemma addHand_appends_rescores_rotates_witness :
  dealerIndex afterSetHand = Num 1
  ∧ addHand thrownHand afterSetHand = Ok afterThrownHand
  ∧ hands afterThrownHand = [setHand; thrownHand]
  ∧ scores afterThrownHand
    = [ScoreEntry.mk "p1" "Alice" (-300); ScoreEntry.mk "p2" "Bob" 140]
  ∧ dealerIndex afterThrownHand = Num 0.
Proof.
  destruct (addHand_appends_rescores_rotates afterSetHand thrownHand 1
              afterSetHand_wellFormed
              (thrownIn_bidderKnown (playerIds afterSetHand) thrownHand eq_refl)
              ltac:(discriminate) eq_refl)
    as (_ & Hadd & _).
  split; [reflexivity|]. split; [|by vm_compute].
  rewrite Hadd. vm_compute. reflexivity.
Defined.

Lemma endGame_frame_witness :
  ∃ g', addHand thrownHand (endGame "t5" "p2" "Bob" afterSetHand) = Ok g'
        ∧ hands g' = [setHand; thrownHand]
        ∧ scores g' = [ScoreEntry.mk "p1" "Alice" (-300); ScoreEntry.mk "p2" "Bob" 140]
        ∧ dealerIndex g' = Num 0
        ∧ isCompleted g' = true.
Proof.
  destruct (endGame_frame "t5" "p2" "Bob" afterSetHand) as (_ & _ & _ & _ & Hadd).
  destruct (Hadd thrownHand 1 afterSetHand_wellFormed
              (thrownIn_bidderKnown (playerIds afterSetHand) thrownHand eq_refl)
              ltac:(discriminate) eq_refl)
    as (g' & Hg' & Hhands & Hscores & Hdealer & _ & _ & _ & _ & Hdone).
  exists g'. split; [exact Hg'|]. split; [exact Hhands|].
  split; [rewrite Hscores; vm_compute; reflexivity|].
  split; [exact Hdealer|exact Hdone].
Defined.

End GameFacts.

(** * Sessions that share a score array *)

Module SharedFacts.
Import Game GameSpec SharedSpec GameFacts.

(** ** The scoring pass in place and the scoring pass by value *)

Lemma settle_completed r sc sc' : settle r sc = (sc', true) ↔ r = Ok sc'.
Proof. destruct r as [sc1|]; simpl; split; intros [= ?]; by subst. Qed.

Lemma forEachInPlace_completed {A S} (f : A → S → result S) (g : A → S → S * bool) xs :
  (∀ x s s', g x s = (s', true) ↔ f x s = Ok s') →
  ∀ s s', forEachInPlace g xs s = (s', true) ↔ forEach f xs s = Ok s'.
Proof.
  intros Hfg. induction xs as [|x xs IH]; intros s s'.
  - simpl. split; intros [= ?]; by subst.
  - rewrite forEach_cons. cbn [forEachInPlace].
    destruct (g x s) as [s1 completed] eqn:Hg. destruct completed.
    + apply Hfg in Hg. rewrite Hg. change (Ok s1 ≫= forEach f xs) with (forEach f xs s1).
      apply IH.
    + destruct (f x s) as [s2|] eqn:Hf.
      * apply Hfg in Hf. congruence.
      * split; intros [=].
Qed.

Lemma scoreHandInPlace_completed ps h sc sc' :
  scoreHandInPlace ps h sc = (sc', true) ↔ scoreHand ps h sc = Ok sc'.
Proof.
  unfold scoreHandInPlace, scoreHand. destruct (GameHand.thrownIn h).
  { split; intros [= ?]; by subst. }
  destruct (GameHand.isBidderSet h).
  - destruct (addToScore _ _ sc) as [sc1|]; simpl.
    + change (Ok sc1 ≫= ?k) with (k sc1).
      apply forEachInPlace_completed. intros p s s'.
      case_bool_decide; [apply settle_completed|].
      split; intros [= ?]; by subst.
    + split; intros [=].
  - apply forEachInPlace_completed. intros p s s'. apply settle_completed.
Qed.

(** When it returns, [recalculateScores] leaves in the array what the
    by-value reading of the method computes. *)
Lemma recalculateInPlace_completed ps hs sc sc' :
  recalculateInPlace ps hs sc = (sc', true)
  ↔ forEach (scoreHand ps) hs (resetScores sc) = Ok sc'.
Proof.
  unfold recalculateInPlace. apply forEachInPlace_completed.
  intros h s s'. apply scoreHandInPlace_completed.
Qed.

(** ** A session on its own *)

Lemma scoresOf_insert (st : Shared.store) s sc :
  is_Some (st !! Shared.scoresAt s) →
  Shared.scoresOf (<[Shared.scoresAt s := sc]> st) s = sc.
Proof.
  intros [old Hold]. unfold Shared.scoresOf.
  rewrite list_lookup_insert_eq; [done|]. by apply lookup_lt_Some in Hold.
Qed.

Lemma engineScores_view (st : Shared.store) s :
  engineScores (Shared.view st s)
  = forEach (scoreHand (players (Shared.fields s))) (hands (Shared.fields s))
      (resetScores (Shared.scoresOf st s)).
Proof. reflexivity. Qed.

Lemma recalculateScores_shared s (st st' : Shared.store) :
  is_Some (st !! Shared.scoresAt s) →
  Shared.recalculateScores s st = (st', true) →
  is_Some (st' !! Shared.scoresAt s)
  ∧ recalculateScores (Shared.view st s) = Ok (Shared.view st' s)
  ∧ engineScores (Shared.view st' s) = Ok (scores (Shared.view st' s)).
Proof.
  intros Hin. unfold Shared.recalculateScores.
  destruct (recalculateInPlace _ _ _) as [sc completed] eqn:Hrun.
  intros [= <- ->]. apply recalculateInPlace_completed in Hrun.
  assert (is_Some (<[Shared.scoresAt s := sc]> st !! Shared.scoresAt s)) as Hin'.
  { destruct Hin as [old Hold]. exists sc.
    apply list_lookup_insert_eq. by apply lookup_lt_Some in Hold. }
  split; [done|].
  assert (engineScores (Shared.view st s) = Ok sc) as Hengine by done.
  split.
  - rewrite recalculateScores_engine, Hengine, bind_Ok.
    unfold Shared.view. by rewrite (scoresOf_insert _ _ _ Hin).
  - apply engineScores_fixed in Hengine.
    unfold Shared.view at 2. simpl scores. rewrite (scoresOf_insert _ _ _ Hin).
    rewrite <- Hengine. rewrite !engineScores_view.
    by rewrite (scoresOf_insert _ _ _ Hin).
Qed.

(** What [addHand] leaves when it returns is what the by-value reading of
    the method returns. *)
Lemma addHand_shared h s (st : Shared.store) s' (st' : Shared.store) :
  is_Some (st !! Shared.scoresAt s) →
  Shared.addHand h s st = (s', st', true) →
  is_Some (st' !! Shared.scoresAt s')
  ∧ addHand h (Shared.view st s) = Ok (Shared.view st' s')
  ∧ engineScores (Shared.view st' s') = Ok (scores (Shared.view st' s')).
Proof.
  intros Hin. unfold Shared.addHand.
  set (s1 := Shared.onFields _ s).
  destruct (Shared.recalculateScores s1 st) as [st1 completed] eqn:Hrec.
  destruct completed; [|intros [=]]. intros [= <- <-].
  destruct (recalculateScores_shared s1 st st1 Hin Hrec) as (Hin1 & Hval & Hinv).
  split; [done|]. split; [|done].
  unfold addHand. change (withHands _ (Shared.view st s)) with (Shared.view st s1).
  by rewrite Hval.
Qed.

Lemma view_new nowId nowIso ps gt (st : Shared.store) :
  Shared.view (Shared.new nowId nowIso ps gt st).2 (Shared.new nowId nowIso ps gt st).1
  = new nowId nowIso ps gt.
Proof.
  unfold Shared.view, Shared.scoresOf. simpl.
  by rewrite lookup_app_r, Nat.sub_diag by done.
Qed.

Lemma view_fromData nowId nowIso s (st : Shared.store) :
  is_Some (st !! Shared.scoresAt s) →
  Shared.view (Shared.fromData nowId nowIso (Shared.toData s) st).2
              (Shared.fromData nowId nowIso (Shared.toData s) st).1
  = fromData nowId nowIso (toData (Shared.view st s)).
Proof.
  intros [sc Hsc]. unfold Shared.view, Shared.scoresOf. simpl.
  rewrite lookup_app_l by (by apply lookup_lt_Some in Hsc). by rewrite Hsc.
Qed.

(** C4, amended.  In every state that a session object goes through while
    it alone writes its score array (built by the constructor or read back
    by [fromData] in place of the session that [toData] wrote, then taken
    through calls of [addHand], [recalculateScores], [endGame] and
    [advanceDealer] that return), the array of the session is in the store
    and the cached scores are what the scoring engine computes by replaying
    the hands from a zero baseline. *)
Theorem reachable_scores_cached (st : Shared.store) (s : Shared.session) :
  reachable st s →
  is_Some (st !! Shared.scoresAt s)
  ∧ engineScores (Shared.view st s) = Ok (scores (Shared.view st s)).
Proof.
  induction 1 as [st nowId nowIso ps gt | st s h s' st' _ [Hin _] Hadd
                 | st s st' _ [Hin _] Hrec
                 | st s nowIso wid wname _ IH | st s _ IH
                 | st s nowId nowIso _ [Hin IH] | st st' s _ [Hin IH] Hsame].
  - split.
    + simpl. rewrite lookup_app_r, Nat.sub_diag by done. by eexists.
    + rewrite view_new. unfold engineScores. simpl. f_equal. unfold resetScores.
      rewrite map_map. by apply map_ext.
  - destruct (addHand_shared h s st s' st' Hin Hadd) as (? & _ & ?). by split.
  - destruct (recalculateScores_shared s st st' Hin Hrec) as (? & _ & ?). by split.
  - exact IH.
  - exact IH.
  - split.
    + simpl. destruct Hin as [sc Hsc]. exists sc.
      rewrite lookup_app_l by (by apply lookup_lt_Some in Hsc). done.
    + rewrite (view_fromData _ _ _ _ Hin). unfold engineScores in *. simpl in *.
      by rewrite handData_roundtrip.
  - split; [by rewrite Hsame|].
    unfold Shared.view, Shared.scoresOf in *. by rewrite Hsame.
Qed.

(** [fromData] adopts the array that [toData] hands out: after
    [loaded = Game.fromData(original.toData())], adding a hand to the
    original rewrites the scores of the loaded session, whose hand list is
    still empty (C4 does not hold as it was stated). *)
Lemma loaded_session_follows_original :
  Shared.scoresAt loaded.1 = Shared.scoresAt original.1
  ∧ originalPlayed.2 = true
  ∧ hands loadedAfterwards = []
  ∧ scores loadedAfterwards
    = [ScoreEntry.mk "p1" "Alice" (-300); ScoreEntry.mk "p2" "Bob" 140]
  ∧ engineScores loadedAfterwards
    = Ok [ScoreEntry.mk "p1" "Alice" 0; ScoreEntry.mk "p2" "Bob" 0]
  ∧ replayedScores (hands loadedAfterwards) (scores loadedAfterwards)
    = [ScoreEntry.mk "p1" "Alice" 0; ScoreEntry.mk "p2" "Bob" 0].
Proof. repeat split; vm_compute; reflexivity. Qed.

(** A call of [addHand] that throws has already pushed the hand and reset
    and partly rewritten the scores: the hand stays on the list, the dealer
    does not move, and replaying the hands throws again. *)
Lemma thrown_addHand_leaves_hand :
  strangerAdded.2 = false
  ∧ hands afterStranger = [setHand; strangerHand]
  ∧ scores afterStranger
    = [ScoreEntry.mk "p1" "Alice" (-300); ScoreEntry.mk "p2" "Bob" 140]
  ∧ dealerIndex afterStranger = Num 1
  ∧ engineScores afterStranger = TypeError
  ∧ replayedScores (hands afterStranger) (scores afterStranger)
    = [ScoreEntry.mk "p1" "Alice" (-280); ScoreEntry.mk "p2" "Bob" 140].
Proof. repeat split; vm_compute; reflexivity. Qed.

Lemma loadedPlayed_reachable : reachable loadedPlayed.1.2 loadedPlayed.1.1.
Proof.
  apply (reach_addHand
           (Shared.fromData "1700000000002" "t2" (Shared.toData originalPlayed.1.1)
              originalPlayed.1.2).2
           (Shared.endGame "t5" "p2" "Bob"
              (Shared.fromData "1700000000002" "t2" (Shared.toData originalPlayed.1.1)
                 originalPlayed.1.2).1)
           thrownHand);
    [|by vm_compute].
  apply reach_endGame, reach_roundTrip.
  apply (reach_addHand loaded.2 original.1 setHand); [|by vm_compute].
  apply (reach_elsewhere original.2); [|by vm_compute].
  apply (reach_new [] "1700000000000" "t0" [alice; bob] 2).
Qed.

Lemma reachable_scores_cached_witness :
  engineScores (Shared.view loadedPlayed.1.2 loadedPlayed.1.1)
  = Ok [ScoreEntry.mk "p1" "Alice" (-300); ScoreEntry.mk "p2" "Bob" 140].
Proof.
  rewrite (proj2 (reachable_scores_cached _ _ loadedPlayed_reachable)).
  vm_compute. reflexivity.
Defined.

End SharedFacts.

(** * Further properties of the session *)

Module GameExtras.
Import Game GameSpec ExtraSpec GameFacts.

Lemma scoreIds_of_reset sc sc' :
  resetScores sc' = resetScores sc → scoreIds sc' = scoreIds sc.
Proof. intros Heq. by rewrite <- (resetScores_ids sc'), Heq, resetScores_ids. Qed.

(** X1.  Recomputing twice is recomputing once: the session that
    [recalculateScores] returns is a fixed point of it, it differs from the
    session it was given in the scores only, and its score list has the same
    ids and names in the same order. *)
Theorem recalculateScores_idempotent (g g' : t) :
  recalculateScores g = Ok g' →
  recalculateScores g' = Ok g'
  ∧ g' = withScores (scores g') g
  ∧ resetScores (scores g') = resetScores (scores g).
Proof.
  rewrite recalculateScores_engine. intros Hrec.
  destruct (engineScores g) as [sc|] eqn:Hrun; [|done].
  injection Hrec as <-. split; [|split].
  - rewrite recalculateScores_engine, (engineScores_fixed g sc Hrun). by destruct g.
  - by destruct g.
  - by apply engineScores_reset.
Qed.

Lemma forEach_skip {A S} (f : A → S → result S) (keep : A → bool) xs s :
  (∀ x s', keep x = false → f x s' = Ok s') →
  forEach f (List.filter keep xs) s = forEach f xs s.
Proof.
  intros Hskip. revert s. induction xs as [|x xs IH]; intros s; [done|].
  cbn [List.filter]. destruct (keep x) eqn:Hk.
  - rewrite !forEach_cons. destruct (f x s); [by rewrite !bind_Ok | done].
  - rewrite forEach_cons, (Hskip x s Hk), bind_Ok. apply IH.
Qed.

(** X2.  Thrown-in hands never reach the scores: taking every thrown-in hand
    out of the hand list leaves the outcome of the scoring pass (the score
    list, or the exception) as it is, whatever those hands carry. *)
Theorem thrownIn_hands_do_not_score (g : t) (hs : list GameHand.t) :
  engineScores (withHands (liveHands hs) g) = engineScores (withHands hs g).
Proof.
  unfold engineScores, liveHands. simpl. apply forEach_skip.
  intros h sc Hk. apply scoreHand_thrownIn. by destruct (GameHand.thrownIn h).
Qed.

(** ** When the scoring pass throws *)

Lemma scoreIds_cons s sc : scoreIds (s :: sc) = ScoreEntry.playerId s :: scoreIds sc.
Proof. reflexivity. Qed.

Lemma addToScore_ok_iff pid d sc :
  (∃ sc', addToScore pid d sc = Ok sc') ↔ ∃ b, pid = Some b ∧ b ∈ scoreIds sc.
Proof.
  induction sc as [|s sc IH].
  - split; [by intros [? ?]|]. intros (b & _ & Hin). by apply not_elem_of_nil in Hin.
  - rewrite scoreIds_cons. cbn [addToScore]. case_bool_decide as Hhd.
    + split; [|by eauto]. intros _. exists (ScoreEntry.playerId s).
      split; [done|]. by left.
    + split.
      * intros [sc' Hadd]. destruct (addToScore pid d sc) as [rest|] eqn:Hrest; [|done].
        destruct (proj1 IH (ex_intro _ rest eq_refl)) as (b & -> & Hin).
        exists b. split; [done|]. by right.
      * intros (b & -> & Hin).
        apply elem_of_cons in Hin as [->|Hin]; [done|].
        destruct (proj2 IH (ex_intro _ b (conj eq_refl Hin))) as [rest ->].
        by eexists.
Qed.

Lemma addToScore_ids pid d sc sc' :
  addToScore pid d sc = Ok sc' → scoreIds sc' = scoreIds sc.
Proof. intros Hadd. by apply scoreIds_of_reset, (addToScore_reset pid d). Qed.

Lemma forEach_ok_iff {A S T} (f : A → S → result S) (view : S → T)
  (need : A → T → Prop) xs :
  (∀ x s, (∃ s', f x s = Ok s') ↔ need x (view s)) →
  (∀ x s s', f x s = Ok s' → view s' = view s) →
  ∀ s, (∃ s', forEach f xs s = Ok s') ↔ Forall (fun x => need x (view s)) xs.
Proof.
  intros Hok Hview. induction xs as [|x xs IH]; intros s.
  - split; [constructor | by eexists].
  - rewrite forEach_cons. split.
    + intros [s' Hrun]. destruct (f x s) as [s1|] eqn:Hx; [|done].
      rewrite bind_Ok in Hrun. constructor.
      * apply Hok. by eexists.
      * rewrite <- (Hview x s s1 Hx). apply IH. by eexists.
    + intros Hall. inversion Hall as [|? ? Hx Hrest]; subst.
      apply Hok in Hx as [s1 Hx]. rewrite Hx, bind_Ok.
      apply IH. by rewrite (Hview x s s1 Hx).
Qed.

Lemma scoreHand_ids ps h sc sc' :
  scoreHand ps h sc = Ok sc' → scoreIds sc' = scoreIds sc.
Proof. intros Hrun. by apply scoreIds_of_reset, (scoreHand_reset ps h). Qed.

Lemma creditLoop_ok_iff h (keep : Player.t → bool) ps sc :
  (∃ sc', forEach (fun p acc => if keep p then creditPlayer h p acc else Ok acc) ps sc = Ok sc')
  ↔ ∀ p, p ∈ ps → keep p = true → Player.id p ∈ scoreIds sc.
Proof.
  rewrite (forEach_ok_iff _ scoreIds (fun p ids => keep p = true → Player.id p ∈ ids)).
  - by rewrite Forall_forall.
  - intros p s. destruct (keep p).
    + unfold creditPlayer. rewrite addToScore_ok_iff. split.
      * by intros (b & [= <-] & Hin) _.
      * intros Hin. exists (Player.id p). auto.
    + split; [done | by eexists].
  - intros p s s'. destruct (keep p); [apply addToScore_ids | by intros [= <-]].
Qed.

Lemma scoreHand_ok_iff ps h sc :
  (∃ sc', scoreHand ps h sc = Ok sc') ↔ scorable (scoreIds sc) ps h.
Proof.
  unfold scoreHand, scorable.
  destruct (GameHand.thrownIn h); [split; [done | by eexists]|].
  destruct (GameHand.isBidderSet h) eqn:Hset.
  - split.
    + intros [sc' Hrun] _.
      destruct (addToScore (GameHand.bidderId h) _ sc) as [sc1|] eqn:Hbid; [|done].
      rewrite bind_Ok in Hrun.
      assert (∃ b, GameHand.bidderId h = Some b ∧ b ∈ scoreIds sc) as Hb
        by (apply (addToScore_ok_iff _ (- default 0 (GameHand.winningBid h))); by eexists).
      split; [done|]. intros p Hp Hne.
      rewrite <- (addToScore_ids _ _ _ _ Hbid).
      eapply (proj1 (creditLoop_ok_iff h
                (fun p => bool_decide (Some (Player.id p) ≠ GameHand.bidderId h)) ps sc1));
        [by eexists | done | apply bool_decide_eq_true_2; auto].
    + intros Hneed. destruct (Hneed eq_refl) as [Hb Hps].
      destruct (proj2 (addToScore_ok_iff (GameHand.bidderId h)
                         (- default 0 (GameHand.winningBid h)) sc) (Hb eq_refl))
        as [sc1 Hbid].
      rewrite Hbid, bind_Ok.
      apply (creditLoop_ok_iff h
               (fun p => bool_decide (Some (Player.id p) ≠ GameHand.bidderId h))).
      intros p Hp Hk%bool_decide_eq_true_1.
      rewrite (addToScore_ids _ _ _ _ Hbid). by apply Hps.
  - split.
    + intros Hrun _. split; [done|]. intros p Hp _.
      by apply (proj1 (creditLoop_ok_iff h (fun _ => true) ps sc)).
    + intros Hneed. destruct (Hneed eq_refl) as [_ Hps].
      apply (creditLoop_ok_iff h (fun _ => true)). intros p Hp _. by apply Hps.
Qed.

(** X3.  [recalculateScores] returns normally exactly when every hand that
    was not thrown in finds the score entries it updates: the bidder's when
    the bidder is set, and that of every player it credits.  In every other
    case it throws a [TypeError]. *)
Theorem recalculateScores_returns_iff (g : t) :
  ((∃ g', recalculateScores g = Ok g')
   ↔ Forall (scorable (scoreIds (scores g)) (players g)) (hands g))
  ∧ (recalculateScores g = TypeError
     ↔ ¬ Forall (scorable (scoreIds (scores g)) (players g)) (hands g)).
Proof.
  assert ((∃ sc, engineScores g = Ok sc)
          ↔ Forall (scorable (scoreIds (scores g)) (players g)) (hands g)) as Hiff.
  { unfold engineScores.
    rewrite (forEach_ok_iff _ scoreIds (fun h ids => scorable ids (players g) h)).
    - by rewrite resetScores_ids.
    - intros h s. apply scoreHand_ok_iff.
    - intros h s s'. apply scoreHand_ids. }
  rewrite recalculateScores_engine.
  destruct (engineScores g) as [sc|] eqn:Hrun.
  - rewrite bind_Ok. split.
    + split; [intros _; apply Hiff; by eexists | by eexists].
    + split; [done|]. intros Hn. exfalso. apply Hn, Hiff. by eexists.
  - split.
    + split; [by intros [? ?]|]. intros [sc Hsc]%Hiff. done.
    + split; [|done]. intros _ [sc Hsc]%Hiff. done.
Qed.

(** ** Dealer rotation *)

Lemma advanceDealer_players g : players (advanceDealer g) = players g.
Proof. reflexivity. Qed.

Lemma advanceDealer_index g :
  dealerIndex (advanceDealer g)
  = jsRem (jsSucc (dealerIndex g)) (Z.of_nat (length (players g))).
Proof. reflexivity. Qed.

Lemma iter_advanceDealer_players k g : players (Nat.iter k advanceDealer g) = players g.
Proof. induction k as [|k IH]; [done|]. by rewrite Nat.iter_succ, advanceDealer_players. Qed.

Lemma advanceDealer_in_range g d :
  players g ≠ [] → dealerIndex g = Num d → 0 ≤ d →
  dealerIndex (advanceDealer g) = Num ((d + 1) mod Z.of_nat (length (players g))).
Proof.
  intros Hps Hd Hd0. unfold advanceDealer. simpl. rewrite Hd. simpl.
  assert (Z.of_nat (length (players g)) ≠ 0) as Hn
    by (destruct (players g); [done | simpl; lia]).
  destruct (Z.eqb_spec (Z.of_nat (length (players g))) 0) as [|_]; [done|].
  f_equal. apply Z.rem_mod_nonneg; lia.
Qed.

(** X4.  With at least one player and the dealer index inside the player
    list, [k] calls of [advanceDealer] leave the index at
    [(d + k) mod players.length]; [getCurrentDealer] then always finds the
    player sitting at that index, and after [players.length] calls the deal
    is back where it started. *)
Theorem advanceDealer_cycles (g : t) (d : Z) (k : nat) :
  players g ≠ [] → dealerIndex g = Num d →
  0 ≤ d < Z.of_nat (length (players g)) →
  dealerIndex (Nat.iter k advanceDealer g)
  = Num ((d + Z.of_nat k) mod Z.of_nat (length (players g)))
  ∧ getCurrentDealer (Nat.iter k advanceDealer g)
    = players g !! Z.to_nat ((d + Z.of_nat k) mod Z.of_nat (length (players g)))
  ∧ is_Some (getCurrentDealer (Nat.iter k advanceDealer g))
  ∧ dealerIndex (Nat.iter (length (players g)) advanceDealer g) = Num d.
Proof.
  intros Hps Hd Hrange.
  set (n := Z.of_nat (length (players g))) in *.
  assert (0 < n) as Hn by lia.
  assert (∀ j, dealerIndex (Nat.iter j advanceDealer g) = Num ((d + Z.of_nat j) mod n)) as Hidx.
  { induction j as [|j IH].
    - simpl. rewrite Hd, Z.add_0_r, Z.mod_small; [done | lia].
    - rewrite Nat.iter_succ, (advanceDealer_in_range _ ((d + Z.of_nat j) mod n)).
      + rewrite iter_advanceDealer_players. fold n.
        f_equal. rewrite Zplus_mod_idemp_l. f_equal. lia.
      + by rewrite iter_advanceDealer_players.
      + exact IH.
      + apply Z.mod_pos_bound. lia. }
  assert (getCurrentDealer (Nat.iter k advanceDealer g)
          = players g !! Z.to_nat ((d + Z.of_nat k) mod n)) as Hcur.
  { unfold getCurrentDealer. rewrite Hidx, iter_advanceDealer_players.
    destruct (Z.ltb_spec ((d + Z.of_nat k) mod n) 0) as [Hneg|_]; [|done].
    pose proof (Z.mod_pos_bound (d + Z.of_nat k) n Hn). lia. }
  split; [apply Hidx|]. split; [exact Hcur|]. split.
  - rewrite Hcur. apply lookup_lt_is_Some.
    pose proof (Z.mod_pos_bound (d + Z.of_nat k) n Hn). lia.
  - rewrite Hidx. fold n. f_equal.
    rewrite <- (Z.mul_1_l n) at 1. rewrite Z.mod_add by lia. apply Z.mod_small. lia.
Qed.

(** X5.  A session without players has no dealer to rotate: the first
    [advanceDealer] turns the index into [NaN], where it stays, and
    [getCurrentDealer] finds nobody. *)
Theorem advanceDealer_without_players (g : t) (k : nat) :
  players g = [] →
  dealerIndex (Nat.iter (S k) advanceDealer g) = NaN
  ∧ getCurrentDealer (Nat.iter k advanceDealer g) = None.
Proof.
  intros Hps. split.
  - induction k as [|k IH].
    + rewrite Nat.iter_succ, advanceDealer_index. simpl. rewrite Hps. simpl.
      by destruct (dealerIndex g).
    + by rewrite Nat.iter_succ, advanceDealer_index, IH.
  - unfold getCurrentDealer. rewrite iter_advanceDealer_players, Hps.
    destruct (dealerIndex _) as [d|]; [|done]. by destruct (d <? 0).
Qed.

(** ** Saving and loading *)

(** X6.  A session written by [toData] and read back by [fromData] has every
    field of the original, the hands included, except [teamAssignments],
    which [toData] does not write: a session without team assignments comes
    back unchanged, one with team assignments comes back without them. *)
Theorem game_fromData_toData (nowId nowIso : string) (g : t) :
  fromData nowId nowIso (toData g) = dropTeams g
  ∧ (teamAssignments g = None → fromData nowId nowIso (toData g) = g)
  ∧ (∀ teams, teamAssignments (fromData nowId nowIso (toData (withTeams teams g))) = None).
Proof.
  assert (fromData nowId nowIso (toData g) = dropTeams g) as Heq.
  { unfold fromData, toData, dropTeams. simpl. by rewrite handData_roundtrip. }
  split; [exact Heq|]. split; [|done].
  intros Hnone. rewrite Heq. destruct g. simpl in *. by subst.
Qed.

(** ** getStatus *)

Lemma leader_tracks_winner (target : Z) (rest : list ScoreEntry.t) :
  ∀ a o, bestSoFar target a o →
    bestSoFar target (foldl higher a rest)
      (winnerFrom o (List.filter (fun s => target <=? ScoreEntry.score s) rest)).
Proof.
  induction rest as [|x rest IH]; intros a o Hrel.
  - destruct o; simpl in *; done.
  - cbn [List.filter foldl].
    destruct (Z.leb_spec target (ScoreEntry.score x)) as [Hq|Hq].
    + destruct o as [w|]; simpl in Hrel.
      * destruct Hrel as [-> Hw].
        apply (IH (higher w x) (Some (higher w x))). simpl. split; [done|].
        unfold higher. destruct (_ <? _); lia.
      * assert (higher a x = x) as ->.
        { unfold higher. destruct (Z.ltb_spec (ScoreEntry.score x) (ScoreEntry.score a)); [lia|done]. }
        by apply (IH x (Some x)).
    + destruct o as [w|]; simpl in Hrel.
      * destruct Hrel as [-> Hw].
        assert (higher w x = w) as ->.
        { unfold higher. destruct (Z.ltb_spec (ScoreEntry.score x) (ScoreEntry.score w)); [done|lia]. }
        by apply (IH w (Some w)).
      * apply (IH (higher a x) None). simpl.
        unfold higher. destruct (_ <? _); lia.
Qed.

Lemma checkForWinner_leader (g : t) (first : ScoreEntry.t) (rest : list ScoreEntry.t) :
  scores g = first :: rest →
  bestSoFar (targetScore g) (foldl higher first rest) (checkForWinner g).
Proof.
  intros Hsc. unfold checkForWinner. rewrite Hsc. cbn [List.filter].
  destruct (Z.leb_spec (targetScore g) (ScoreEntry.score first)) as [Hq|Hq].
  - by apply (leader_tracks_winner (targetScore g) rest first (Some first)).
  - apply (leader_tracks_winner (targetScore g) rest first None Hq).
Qed.

(** X7.  [getStatus()] throws on a session with an empty score list.
    Otherwise the leader it reports is an entry of the score list that no
    entry beats; a winner is reported exactly when the leader has reached the
    target, and the winner is then the leader (an empty name or a score of 0
    being reported as [null]); the hand number is one more than the number of
    hands on record. *)
Theorem getStatus_leader_and_winner (durationMinutes : Z) (g : t) :
  (scores g = [] → getStatus durationMinutes g = TypeError)
  ∧ (scores g ≠ [] → ∃ st, getStatus durationMinutes g = Ok st)
  ∧ (∀ st, getStatus durationMinutes g = Ok st →
       (∃ s, s ∈ scores g ∧ ScoreEntry.name s = st_leader st
             ∧ ScoreEntry.score s = st_leaderScore st)
       ∧ (∀ s, s ∈ scores g → ScoreEntry.score s ≤ st_leaderScore st)
       ∧ (st_hasWinner st = true ↔ targetScore g ≤ st_leaderScore st)
       ∧ (st_hasWinner st = true →
            st_winner st = (if strTruthy (st_leader st) then Some (st_leader st) else None)
            ∧ st_winnerScore st
              = (if numTruthy (st_leaderScore st) then Some (st_leaderScore st) else None))
       ∧ (st_hasWinner st = false → st_winner st = None ∧ st_winnerScore st = None)
       ∧ st_currentHand st = Z.of_nat (length (hands g)) + 1
       ∧ st_targetScore st = targetScore g
       ∧ st_duration st = durationMinutes).
Proof.
  unfold getStatus. destruct (scores g) as [|first rest] eqn:Hsc.
  { split; [done|]. split; [done|]. intros st [=]. }
  split; [done|]. split; [by eexists|].
  intros st [= <-]. cbn [st_leader st_leaderScore st_hasWinner st_winner st_winnerScore
                          st_currentHand st_targetScore st_duration].
  pose proof (checkForWinner_leader g first rest Hsc) as Hrel.
  destruct (foldl_higher_last rest first) as (pre & post & Heq & Hpre & Hpost).
  set (leader := foldl higher first rest) in *.
  split; [|split].
  - exists leader. split; [|done]. rewrite Heq. apply elem_of_app. right. by left.
  - intros s Hs. rewrite Heq in Hs. rewrite Forall_forall in Hpre, Hpost.
    apply elem_of_app in Hs as [Hs|Hs]; [by apply Hpre|].
    apply elem_of_cons in Hs as [->|Hs]; [lia|]. specialize (Hpost s Hs). lia.
  - destruct (checkForWinner g) as [w|]; simpl in Hrel.
    + destruct Hrel as [<- Hw]. by repeat split.
    + repeat split; try done; intros; lia.
Qed.

(** ** Sequences of calls *)

Lemma runCall_frame c g g' :
  runCall c g = Ok g' →
  players g' = players g ∧ gameType g' = gameType g ∧ targetScore g' = targetScore g
  ∧ id g' = id g ∧ startTime g' = startTime g
  ∧ hands g' = hands g ++ addedHands [c]
  ∧ (isCompleted g' = true ↔ isCompleted g = true ∨ isEndGame c = true).
Proof.
  destruct c as [h| | |nowIso wid wname|nowId nowIso]; simpl.
  - unfold addHand. rewrite recalculateScores_engine.
    destruct (engineScores _) as [sc|]; [|done]. intros [= <-]. simpl.
    repeat split; try done; [tauto | by intros [?|?]].
  - rewrite recalculateScores_engine.
    destruct (engineScores _) as [sc|]; [|done]. intros [= <-]. simpl.
    rewrite app_nil_r. repeat split; try done; [tauto | by intros [?|?]].
  - intros [= <-]. simpl. rewrite app_nil_r.
    repeat split; try done; [tauto | by intros [?|?]].
  - intros [= <-]. simpl. rewrite app_nil_r. repeat split; try done; tauto.
  - intros [= <-]. simpl. rewrite handData_roundtrip, app_nil_r.
    repeat split; try done; [tauto | by intros [?|?]].
Qed.

(** X8.  Whatever calls are made on a session ([addHand],
    [recalculateScores], [advanceDealer], [endGame], saving and loading), as
    long as they return normally: the players, the game type, the target
    score, the id and the start time never change; the hand list only grows,
    by the hands given to [addHand], in call order; and the session is
    completed afterwards exactly when it was before or [endGame] was among
    the calls, so no call reopens an ended session. *)
Theorem runCalls_frame (cs : list call) (g g' : t) :
  runCalls cs g = Ok g' →
  players g' = players g ∧ gameType g' = gameType g ∧ targetScore g' = targetScore g
  ∧ id g' = id g ∧ startTime g' = startTime g
  ∧ hands g' = hands g ++ addedHands cs
  ∧ getNextHandNumber g' = getNextHandNumber g + Z.of_nat (length (addedHands cs))
  ∧ (isCompleted g' = true ↔ isCompleted g = true ∨ existsb isEndGame cs = true).
Proof.
  unfold runCalls. revert g. induction cs as [|c cs IH]; intros g Hrun.
  - injection Hrun as <-. unfold getNextHandNumber. simpl. rewrite app_nil_r.
    repeat split; try done; [lia | tauto | by intros [?|?]].
  - rewrite forEach_cons in Hrun. destruct (runCall c g) as [g1|] eqn:Hc; [|done].
    rewrite bind_Ok in Hrun.
    destruct (runCall_frame c g g1 Hc) as (Hp & Hg & Ht & Hi & Hs & Hh & Hcompl).
    destruct (IH g1 Hrun) as (Hp' & Hg' & Ht' & Hi' & Hs' & Hh' & Hn' & Hcompl').
    assert (addedHands (c :: cs) = addedHands [c] ++ addedHands cs) as Hadded
      by (unfold addedHands; simpl; by rewrite app_nil_r).
    assert (hands g' = hands g ++ addedHands (c :: cs)) as Hhands
      by (by rewrite Hh', Hh, Hadded, app_assoc).
    repeat split; try congruence.
    + unfold getNextHandNumber. rewrite Hhands, length_app. lia.
    + rewrite Hcompl', Hcompl. cbn [existsb]. rewrite orb_true_iff. tauto.
    + rewrite Hcompl', Hcompl. cbn [existsb]. rewrite orb_true_iff. tauto.
Qed.

End GameExtras.

(** * Further properties of a hand *)

Module HandExtras.
Import GameHand HandSpec HandFacts.

(** X9.  The two setters are per-player stores: after setting a player's meld
    and trick score the hand total of that player is their sum, whatever was
    there before; no other player's total moves; a second [setPlayerMeld]
    for the same player replaces the first, and calls for different players
    can be made in either order. *)
Theorem setters_store_per_player (h : t) (p q : string) (m m' s : Z) :
  getPlayerHandTotal p (setPlayerScore p s (setPlayerMeld p m h)) = m + s
  ∧ (q ≠ p →
     getPlayerHandTotal q (setPlayerScore p s (setPlayerMeld p m h))
     = getPlayerHandTotal q h)
  ∧ setPlayerMeld p m (setPlayerMeld p m' h) = setPlayerMeld p m h
  ∧ (q ≠ p →
     setPlayerMeld p m (setPlayerMeld q m' h) = setPlayerMeld q m' (setPlayerMeld p m h))
  ∧ setPlayerScore p s (setPlayerMeld q m h) = setPlayerMeld q m (setPlayerScore p s h).
Proof.
  split; [|split; [|split; [|split]]].
  - rewrite getPlayerHandTotal_default. unfold bidderTotal. simpl.
    by rewrite !lookup_insert_eq.
  - intros Hne. rewrite !getPlayerHandTotal_default. unfold bidderTotal. simpl.
    by rewrite !lookup_insert_ne.
  - unfold setPlayerMeld. simpl. by rewrite insert_insert_eq.
  - intros Hne. unfold setPlayerMeld. simpl. f_equal. by apply insert_insert_ne.
  - done.
Qed.

(** X10.  Whether the bidder is set depends on the bidder's own entries only:
    storing a meld or a trick score for anybody else leaves [isBidderSet()]
    as it was.  A new hand and a thrown-in hand are never set. *)
Theorem isBidderSet_frame (h : t) (q : string) (v : Z) :
  (bidderId h ≠ Some q →
     isBidderSet (setPlayerMeld q v h) = isBidderSet h
     ∧ isBidderSet (setPlayerScore q v h) = isBidderSet h)
  ∧ isBidderSet (throwIn h) = false
  ∧ (∀ now n dealer dealerNm, isBidderSet (new now n dealer dealerNm) = false).
Proof.
  split; [|done]. intros Hne. unfold isBidderSet. simpl.
  destruct (bidderId h) as [b|]; [|done].
  destruct (winningBid h) as [bid|]; [|done].
  assert (q ≠ b) by congruence.
  by rewrite !lookup_insert_ne.
Qed.

(** X11.  A bidder with a positive bid and no meld or trick entry of their
    own counts as having made nothing: the hand is set.  So is every hand
    read back from a stored record that has the bidder and the bid but lacks
    the two maps; such a record is read as not thrown in when it has no
    flag. *)
Theorem bidder_without_entries_is_set (h : t) (b : string) (bid : Z) :
  bidderId h = Some b → b ≠ ""%string → winningBid h = Some bid → 0 < bid →
  playerMeld h !! b = None → playerScores h !! b = None →
  isBidderSet h = true
  ∧ (∀ now d,
       d_bidderId d = Some b → d_winningBid d = Some bid →
       d_playerMeld d = None → d_playerScores d = None →
       isBidderSet (fromData now d) = true
       ∧ (d_thrownIn d = None → thrownIn (fromData now d) = false)).
Proof.
  intros Hb Hne Hbid Hpos Hm Hs.
  assert (∀ h', bidderId h' = Some b → winningBid h' = Some bid →
                playerMeld h' !! b = None → playerScores h' !! b = None →
                isBidderSet h' = true) as Hset.
  { intros h' Hb' Hbid' Hm' Hs'. unfold isBidderSet.
    rewrite Hb', Hbid', Hm', Hs'.
    apply strTruthy_true in Hne. rewrite Hne.
    assert (numTruthy bid = true) as -> by (apply numTruthy_true; lia).
    simpl. by apply Z.ltb_lt. }
  split; [by apply Hset|].
  intros now d Hdb Hdbid Hdm Hds. split.
  - apply Hset; simpl; rewrite ?Hdm, ?Hds; done.
  - intros Hflag. simpl. by rewrite Hflag.
Qed.

Lemma length_meldErrors meldKeys players h :
  length (meldErrors meldKeys players h) = length (badMelds meldKeys h).
Proof. by rewrite meldErrors_badMelds, length_fmap. Qed.

Lemma validate_no_entries meldKeys scoreKeys players h :
  playerMeld h = ∅ → playerScores h = ∅ →
  (validate meldKeys scoreKeys players h).1 = {| valid := true; errors := [] |}.
Proof.
  intros Hm Hs. unfold validate, meldErrors, trickErrors, totalTricks.
  by rewrite Hm, Hs, !entriesIn_empty.
Qed.

(** X12.  [validate] looks at the two maps and at nothing else: recording a
    bid does not change its result, and whether the hand is valid does not
    depend on the player list it is given (only the names in the messages
    do).  A new hand and a thrown-in hand are valid.  All of this holds
    whatever the order in which the keys of the maps are gone through. *)
Theorem validate_frame (meldKeys scoreKeys : list string)
  (players players' : list Player.t) (h : t) :
  (∀ bid b n, (validate meldKeys scoreKeys players (setWinningBid bid b n h)).1
              = (validate meldKeys scoreKeys players h).1)
  ∧ valid (validate meldKeys scoreKeys players h).1
    = valid (validate meldKeys scoreKeys players' h).1
  ∧ length (errors (validate meldKeys scoreKeys players h).1)
    = length (errors (validate meldKeys scoreKeys players' h).1)
  ∧ (validate meldKeys scoreKeys players (throwIn h)).1 = {| valid := true; errors := [] |}
  ∧ (∀ now n dealer dealerNm,
       (validate meldKeys scoreKeys players (new now n dealer dealerNm)).1
       = {| valid := true; errors := [] |}).
Proof.
  split; [done|]. split; [|split; [|split]].
  - simpl. by rewrite !length_app, !length_meldErrors.
  - simpl. by rewrite !length_app, !length_meldErrors.
  - by apply validate_no_entries.
  - intros. by apply validate_no_entries.
Qed.

End HandExtras.

(** * The hand entry flow *)

Module ControllerFacts.
Import GameHand HandSpec Game GameSpec ExtraSpec GameController ControllerSpec.

Lemma getMinBid_values (n : Z) : Config.getMinBid n = if n =? 2 then 150 else 250.
Proof.
  unfold Config.getMinBid, Config.lookupOr3, Config.MIN_BIDS.
  destruct (decide (n = 2)) as [->|H2]; [done|].
  destruct (decide (n = 3)) as [->|H3]; [done|].
  destruct (decide (n = 4)) as [->|H4]; [done|].
  rewrite !lookup_insert_ne, lookup_singleton_ne by done.
  destruct (Z.eqb_spec n 2); [done|]. reflexivity.
Qed.

Lemma getTargetScore_values (n : Z) : Config.getTargetScore n = if n =? 2 then 1000 else 1500.
Proof.
  unfold Config.getTargetScore, Config.lookupOr3, Config.TARGET_SCORES.
  destruct (decide (n = 2)) as [->|H2]; [done|].
  destruct (decide (n = 3)) as [->|H3]; [done|].
  destruct (decide (n = 4)) as [->|H4]; [done|].
  rewrite !lookup_insert_ne, lookup_singleton_ne by done.
  destruct (Z.eqb_spec n 2); [done|]. reflexivity.
Qed.

(** X13.  The constructor and the configuration agree: for every game type,
    the target score a new session gets is [getTargetScore(gameType)]
    (1000 for two players, 1500 otherwise, the fallback included); the
    minimum bid is 150 for two players and 250 otherwise; and the player
    counts that [isValidPlayerCount] accepts are exactly those with an entry
    of their own in both tables. *)
Theorem config_matches_constructor (nowId nowIso : string) (ps : list Player.t) (gt : Z) :
  targetScore (Game.new nowId nowIso ps gt) = Config.getTargetScore gt
  ∧ Config.getTargetScore gt = (if gt =? 2 then 1000 else 1500)
  ∧ Config.getMinBid gt = (if gt =? 2 then 150 else 250)
  ∧ (Config.isValidPlayerCount gt = true
     ↔ is_Some (Config.TARGET_SCORES !! gt) ∧ is_Some (Config.MIN_BIDS !! gt)).
Proof.
  split; [by rewrite getTargetScore_values|].
  split; [apply getTargetScore_values|]. split; [apply getMinBid_values|].
  unfold Config.isValidPlayerCount, Config.MIN_PLAYERS, Config.MAX_PLAYERS,
    Config.TARGET_SCORES, Config.MIN_BIDS.
  rewrite andb_true_iff, !Z.leb_le.
  destruct (decide (gt = 2)) as [->|H2]; [by split; [split; eexists | lia]|].
  destruct (decide (gt = 3)) as [->|H3]; [by split; [split; eexists | lia]|].
  destruct (decide (gt = 4)) as [->|H4]; [by split; [split; eexists | lia]|].
  rewrite !lookup_insert_ne, lookup_singleton_ne by done.
  split; [lia|]. by intros [[? ?] _].
Qed.

Lemma bid_valid_iff (b : jsnum) (minBid v : Z) :
  Validation.bid b minBid = Validation.Valid v
  ↔ b = Num v ∧ minBid ≤ v ≤ 2000 ∧ (10 | v).
Proof.
  unfold Validation.bid. destruct b as [x|].
  2:{ split; [done | by intros [? _]]. }
  destruct (Z.ltb_spec x minBid).
  { split; [done|]. intros ([= ->] & ? & _). lia. }
  destruct (Z.eqb_spec (Z.rem x 10) 0) as [Hrem|Hrem]; simpl.
  2:{ split; [done|]. intros ([= ->] & _ & Hdiv). exfalso. by apply Hrem, HandFacts.rem10_divide. }
  destruct (Z.ltb_spec 2000 x).
  { split; [done|]. intros ([= ->] & ? & _). lia. }
  split.
  - intros [= <-]. split; [done|]. split; [lia|]. by apply HandFacts.rem10_divide.
  - by intros ([= ->] & _).
Qed.

Lemma find_player_Some ps pid p :
  List.find (fun p => String.eqb (Player.id p) pid) ps = Some p →
  p ∈ ps ∧ Player.id p = pid.
Proof.
  intros Hfind. apply find_some in Hfind as [Hin Heq].
  split; [by apply list_elem_of_In|]. by apply String.eqb_eq.
Qed.

Lemma find_player_None ps pid :
  List.find (fun p => String.eqb (Player.id p) pid) ps = None → pid ∉ Player.id <$> ps.
Proof.
  intros Hfind (p & -> & Hin)%list_elem_of_fmap.
  apply list_elem_of_In in Hin.
  pose proof (find_none _ _ Hfind p Hin) as Hne. simpl in Hne.
  by rewrite String.eqb_refl in Hne.
Qed.

Lemma nextToMeldPhase_Done_inv (bidInput : jsnum) (choice : string) (g : Game.t)
  (pend : pending) :
  nextToMeldPhase bidInput choice g = Done pend →
  bidInput = Num (p_winningBid pend)
  ∧ Config.getMinBid (gameType g) ≤ p_winningBid pend ≤ 2000
  ∧ 150 ≤ p_winningBid pend
  ∧ (10 | p_winningBid pend)
  ∧ p_bidderId pend = choice ∧ choice ≠ ""%string
  ∧ (∃ p, p ∈ players g ∧ Player.id p = choice ∧ Player.name p = p_bidderName pend)
  ∧ (∀ h, bidderId h = Some (p_bidderId pend) → winningBid h = Some (p_winningBid pend) →
          (isBidderSet h = true ↔ bidderTotal (p_bidderId pend) h < p_winningBid pend)).
Proof.
  unfold nextToMeldPhase.
  destruct (Validation.bid bidInput _) as [v|e] eqn:Hbid; [|done].
  apply bid_valid_iff in Hbid as (-> & Hrange & Hdiv).
  destruct (strTruthy choice) eqn:Hchoice; simpl; [|done].
  destruct (List.find _ _) as [bidder|] eqn:Hfind; [|done].
  intros [= <-]. simpl.
  apply find_player_Some in Hfind as [Hin Hid].
  apply strTruthy_true in Hchoice.
  assert (150 ≤ v) as Hv.
  { rewrite getMinBid_values in Hrange. destruct (gameType g =? 2); lia. }
  repeat split; try done; try lia.
  - by exists bidder.
  - intros (b & bid & Hb & Hbd & _ & _ & Hlt)%HandFacts.isBidderSet_inv. congruence.
  - intros Hlt. unfold isBidderSet.
    match goal with Hb : bidderId _ = _, Hw : winningBid _ = _ |- _ => rewrite Hb, Hw end.
    apply strTruthy_true in Hchoice. rewrite Hchoice.
    assert (numTruthy v = true) as -> by (apply numTruthy_true; lia).
    simpl. rewrite !orZero_default. by apply Z.ltb_lt.
Qed.

(** X14.  [nextToMeldPhase()] lets a bid through only when it is a number, a
    multiple of 10, at least the minimum bid of the game type (so at least
    150) and at most 2000, and when the chosen bidder is one of the players
    of the session; the pending hand then carries that bid, the chosen id and
    that player's name.  With any such pending bid, whether the bidder is set
    is decided by the totals alone: the [null]/0 guard of [isBidderSet()]
    never steps in. *)
Theorem nextToMeldPhase_accepts (bidInput : jsnum) (choice : string) (g : Game.t)
  (pend : pending) :
  nextToMeldPhase bidInput choice g = Done pend →
  bidInput = Num (p_winningBid pend)
  ∧ Config.getMinBid (gameType g) ≤ p_winningBid pend ≤ 2000
  ∧ 150 ≤ p_winningBid pend
  ∧ (10 | p_winningBid pend)
  ∧ p_bidderId pend = choice ∧ choice ≠ ""%string
  ∧ (∃ p, p ∈ players g ∧ Player.id p = choice ∧ Player.name p = p_bidderName pend)
  ∧ (∀ h, bidderId h = Some (p_bidderId pend) → winningBid h = Some (p_winningBid pend) →
          (isBidderSet h = true ↔ bidderTotal (p_bidderId pend) h < p_winningBid pend)).
Proof. apply nextToMeldPhase_Done_inv. Qed.

(** X15.  When bid and meld differ by a multiple of 10, the number that
    [nextToScorePhase()] shows as tricks required is the least number of
    tricks, one at least, with which the bidder is not set; and the
    shoot-the-moon options are shown exactly when even all 25 tricks would
    leave the bidder short of the bid. *)
Theorem tricksRequired_least (winningBid meldValue : Z) :
  (10 | winningBid - meldValue) →
  1 ≤ tricksRequired winningBid meldValue
  ∧ winningBid ≤ meldValue + 10 * tricksRequired winningBid meldValue
  ∧ (∀ t, 1 ≤ t < tricksRequired winningBid meldValue → meldValue + 10 * t < winningBid)
  ∧ (moonOptionsShown winningBid meldValue = true ↔ meldValue + 10 * 25 < winningBid).
Proof.
  intros [k Hk]. unfold moonOptionsShown, tricksRequired.
  rewrite Hk, Z.div_mul by lia.
  destruct (Z.ltb_spec k 1); rewrite Z.ltb_lt; repeat split; intros; lia.
Qed.

(** ** Sums over the trick map *)

Lemma sumZ_perm (l l' : list Z) : l ≡ₚ l' → sumZ l = sumZ l'.
Proof. induction 1; simpl; lia. Qed.

Lemma sumZ_cons (x : Z) (l : list Z) : sumZ (x :: l) = x + sumZ l.
Proof. reflexivity. Qed.

Lemma sumZ_app (l l' : list Z) : sumZ (l ++ l') = sumZ l + sumZ l'.
Proof. induction l as [|x l IH]; simpl; lia. Qed.

Lemma foldl_sum (l : list Z) (a : Z) : foldl (fun sum count => sum + count) a l = a + sumZ l.
Proof. revert a. induction l as [|x l IH]; intros a; simpl; [lia|]. rewrite IH. lia. Qed.

Lemma sumvals_insert (m : gmap string Z) (k : string) (v : Z) :
  m !! k = None →
  sumZ ((map_to_list (<[k:=v]> m)).*2) = v + sumZ ((map_to_list m).*2).
Proof.
  intros Hk. rewrite (sumZ_perm _ (((k, v) :: map_to_list m).*2)); [done|].
  by rewrite map_to_list_insert.
Qed.

Lemma sumvals_nonneg (m : gmap string Z) :
  (∀ k v, m !! k = Some v → 0 ≤ v) → 0 ≤ sumZ ((map_to_list m).*2).
Proof.
  induction m as [|k v m Hk IH] using map_ind; intros Hpos.
  - by rewrite map_to_list_empty.
  - rewrite sumvals_insert by done.
    assert (0 ≤ v) by (apply (Hpos k); by rewrite lookup_insert_eq).
    assert (0 ≤ sumZ ((map_to_list m).*2)); [|lia].
    apply IH. intros k' v' Hk'. apply (Hpos k').
    rewrite lookup_insert_ne; [done|]. intros ->. congruence.
Qed.

Lemma sumvals_ge_entry (m : gmap string Z) (k : string) (v : Z) :
  (∀ k' v', m !! k' = Some v' → 0 ≤ v') → m !! k = Some v →
  v ≤ sumZ ((map_to_list m).*2).
Proof.
  intros Hpos Hk. rewrite <- (insert_id m k v Hk), <- insert_delete_eq.
  rewrite sumvals_insert by apply lookup_delete_eq.
  assert (0 ≤ sumZ ((map_to_list (delete k m)).*2)); [|lia].
  apply sumvals_nonneg. intros k' v' Hk'.
  apply lookup_delete_Some in Hk' as [_ Hk']. by apply (Hpos k').
Qed.

Lemma sumZ_filter_split (G : string → Z) (k : string) (l : list string) :
  k ∈ l → (∀ x, x ∈ l → 0 ≤ G x) →
  G k + sumZ (G <$> filter (fun x => x ≠ k) l) ≤ sumZ (G <$> l).
Proof.
  induction l as [|x l IH]; intros Hin Hpos; [by apply not_elem_of_nil in Hin|].
  assert (0 ≤ G x) by (apply Hpos; by left).
  assert (∀ y, y ∈ l → 0 ≤ G y) as Hpos' by (intros y Hy; apply Hpos; by right).
  rewrite filter_cons. destruct (decide (x ≠ k)) as [Hne|Heq].
  - rewrite !fmap_cons, !sumZ_cons.
    apply elem_of_cons in Hin as [->|Hin]; [done|]. specialize (IH Hin Hpos'). lia.
  - assert (x = k) as -> by (destruct (decide (x = k)); [done|by destruct Heq]).
    rewrite !fmap_cons, !sumZ_cons. destruct (decide (k ∈ l)) as [Hin'|Hnin].
    + specialize (IH Hin' Hpos'). lia.
    + assert (filter (fun x => x ≠ k) l = l) as ->; [|lia].
      clear -Hnin. induction l as [|y l IH]; [done|].
      rewrite filter_cons. apply not_elem_of_cons in Hnin as [Hne Hnin].
      rewrite decide_True by done. by rewrite IH.
Qed.

Lemma sumvals_le_list (m : gmap string Z) (G : string → Z) :
  ∀ l, (∀ k v, m !! k = Some v → v = G k ∧ k ∈ l) → (∀ k, k ∈ l → 0 ≤ G k) →
       sumZ ((map_to_list m).*2) ≤ sumZ (G <$> l).
Proof.
  induction m as [|k v m Hk IH] using map_ind; intros l Hm Hpos.
  - rewrite map_to_list_empty. simpl.
    clear Hm. induction l as [|x l IHl]; [done|]. rewrite fmap_cons, sumZ_cons.
    change (sumZ [].*2) with 0 in *.
    assert (0 ≤ G x) by (apply Hpos; by left).
    assert (0 ≤ sumZ (G <$> l)); [|lia]. apply IHl. intros y Hy. apply Hpos. by right.
  - rewrite sumvals_insert by done.
    destruct (Hm k v) as [-> Hin]; [by rewrite lookup_insert_eq|].
    pose proof (sumZ_filter_split G k l Hin Hpos) as Hsplit.
    assert (sumZ ((map_to_list m).*2) ≤ sumZ (G <$> filter (fun x => x ≠ k) l)); [|lia].
    apply IH.
    + intros k' v' Hk'. assert (k' ≠ k) as Hne by (intros ->; congruence).
      destruct (Hm k' v') as [-> Hin']; [by rewrite lookup_insert_ne|].
      split; [done|]. by apply list_elem_of_filter.
    + intros x [_ Hx]%list_elem_of_filter. by apply Hpos.
Qed.

(** ** The loop of submitHand *)

Lemma forOf_snoc {A S} (body : A → S → outcome S) xs x s :
  forOf body (xs ++ [x]) s
  = match forOf body xs s with
    | Done s' => body x s'
    | Rejected msg => Rejected msg
    | Failed => Failed
    end.
Proof.
  revert s. induction xs as [|y xs IH]; intros s; simpl.
  - by destruct (body x s).
  - destruct (body y s); [apply IH | done | done].
Qed.

Lemma meld_valid_iff (m v : Z) :
  Validation.meld (Num m) = Validation.Valid v ↔ v = m ∧ 0 ≤ m ≤ 1000 ∧ (10 | m).
Proof.
  unfold Validation.meld.
  destruct (Z.ltb_spec m 0); [split; [done | intros (_ & ? & _); lia]|].
  destruct (Z.eqb_spec (Z.rem m 10) 0) as [Hrem|Hrem]; simpl.
  2:{ split; [done|]. intros (_ & _ & Hdiv). exfalso. by apply Hrem, HandFacts.rem10_divide. }
  destruct (Z.ltb_spec 1000 m); [split; [done | intros (_ & ? & _); lia]|].
  split.
  - intros [= <-]. split; [done|]. split; [lia|]. by apply HandFacts.rem10_divide.
  - by intros (-> & _).
Qed.

Lemma tricks_valid_iff (t v : Z) :
  Validation.tricks (Num t) = Validation.Valid v ↔ v = t ∧ 0 ≤ t ≤ 25.
Proof.
  unfold Validation.tricks.
  destruct (Z.ltb_spec t 0); [split; [done | intros (_ & ?); lia]|].
  destruct (Z.ltb_spec 25 t); [split; [done | intros (_ & ?); lia]|].
  split; [intros [= <-]; split; [done|lia] | by intros (-> & _)].
Qed.

Lemma totalTricks_valid_iff (tc : list Z) (v : Z) :
  Validation.totalTricks tc = Validation.Valid v ↔ v = sumZ tc ∧ sumZ tc ≤ 25.
Proof.
  unfold Validation.totalTricks. rewrite foldl_sum, Z.add_0_l.
  destruct (Z.ltb_spec 25 (sumZ tc)); [split; [done | intros (_ & ?); lia]|].
  split; [intros [= <-]; split; [done|lia] | by intros (-> & _)].
Qed.

Lemma collectPlayer_Done pend f p st st' :
  collectPlayer pend f p st = Done st' ↔
  entryValid f (Player.id p)
  ∧ st' = (setPlayerScore (Player.id p) (tricksOf f (Player.id p) * 10)
             (setPlayerMeld (Player.id p) (storedMeld pend f (Player.id p)) st.1),
           st.2 ++ [tricksOf f (Player.id p)]).
Proof.
  unfold collectPlayer, entryValid.
  destruct (Validation.meld _) as [v|e] eqn:Hm.
  - apply meld_valid_iff in Hm as (-> & Hm).
    destruct (Validation.tricks _) as [v|e] eqn:Ht.
    + apply tricks_valid_iff in Ht as (-> & Ht).
      split; [by intros [= <-] | by intros (_ & ->)].
    + split; [done|]. intros ((_ & Ht') & _). exfalso.
      assert (Validation.tricks (Num (tricksOf f (Player.id p)))
              = Validation.Valid (tricksOf f (Player.id p))) as Hv
        by (by apply tricks_valid_iff).
      congruence.
  - split; [done|]. intros ((Hm' & _) & _). exfalso.
    assert (Validation.meld (Num (meldOf f (Player.id p)))
            = Validation.Valid (meldOf f (Player.id p))) as Hv
      by (by apply meld_valid_iff).
    congruence.
Qed.

Lemma collected_nil pend f start : collected pend f start [] start [].
Proof.
  split; try done. intros p Hp. by apply not_elem_of_nil in Hp.
Qed.

Lemma elem_of_snoc_ids (seen : list Player.t) (p : Player.t) (k : string) :
  k ∈ Player.id <$> seen ++ [p] ↔ k = Player.id p ∨ k ∈ Player.id <$> seen.
Proof.
  rewrite fmap_app, elem_of_app. change (Player.id <$> [p]) with [Player.id p].
  rewrite list_elem_of_singleton. tauto.
Qed.

Lemma collected_snoc pend f start seen hand tc p :
  collected pend f start seen hand tc → entryValid f (Player.id p) →
  collected pend f start (seen ++ [p])
    (setPlayerScore (Player.id p) (tricksOf f (Player.id p) * 10)
       (setPlayerMeld (Player.id p) (storedMeld pend f (Player.id p)) hand))
    (tc ++ [tricksOf f (Player.id p)]).
Proof.
  intros [Hm Hs Hc Hv Hb Hh] Hp. split; simpl; try done.
  - intros k. destruct (decide (k = Player.id p)) as [->|Hne].
    + rewrite lookup_insert_eq, bool_decide_eq_true_2; [done|].
      apply elem_of_snoc_ids. by left.
    + rewrite lookup_insert_ne, Hm by done.
      rewrite (bool_decide_ext (k ∈ Player.id <$> seen ++ [p]) (k ∈ Player.id <$> seen));
        [done|]. rewrite elem_of_snoc_ids. tauto.
  - intros k. destruct (decide (k = Player.id p)) as [->|Hne].
    + rewrite lookup_insert_eq, bool_decide_eq_true_2; [done|].
      apply elem_of_snoc_ids. by left.
    + rewrite lookup_insert_ne, Hs by done.
      rewrite (bool_decide_ext (k ∈ Player.id <$> seen ++ [p]) (k ∈ Player.id <$> seen));
        [done|]. rewrite elem_of_snoc_ids. tauto.
  - by rewrite Hc, fmap_app.
  - intros q [Hq|Hq]%elem_of_app; [by apply Hv|].
    by apply list_elem_of_singleton in Hq as ->.
Qed.

Lemma collect_all pend f start xs hand tc :
  forOf (collectPlayer pend f) xs (start, []) = Done (hand, tc) →
  collected pend f start xs hand tc.
Proof.
  revert hand tc. induction xs as [|x xs IH] using rev_ind; intros hand tc.
  - intros [= <- <-]. apply collected_nil.
  - rewrite forOf_snoc.
    destruct (forOf _ xs _) as [[hand' tc']| |] eqn:Hrun; [|done|done].
    intros (Hx & [= -> ->])%collectPlayer_Done.
    apply collected_snoc; [by apply IH | done].
Qed.

Lemma storedMeld_cases pend f k :
  storedMeld pend f k = meldOf f k ∨ storedMeld pend f k = 0.
Proof.
  unfold storedMeld, finalMeld.
  destruct (_ && _); [|by left]. destruct (_ && _); [by left|].
  destruct (_ <? _); [by right | by left].
Qed.

Lemma storedMeld_range pend f k :
  entryValid f k → 0 ≤ storedMeld pend f k ≤ 1000 ∧ (10 | storedMeld pend f k).
Proof.
  intros [[Hr Hd] _]. destruct (storedMeld_cases pend f k) as [->| ->]; [done|].
  split; [lia | apply Z.divide_0_r].
Qed.

Lemma tricks_le_250 (tp : Z) : tp ≤ 250 → (inject_Z tp / 10 <= 25)%Q.
Proof.
  intros Hle. apply Qle_shift_div_r; [reflexivity|].
  change (25 * 10)%Q with (inject_Z 250). by rewrite <- Zle_Qle.
Qed.

Lemma tricks_gt_250 (tp : Z) : 250 < tp → ¬ (inject_Z tp / 10 <= 25)%Q.
Proof.
  intros Hlt Hle. apply (Qmult_le_compat_r _ _ 10) in Hle; [|done].
  assert (inject_Z tp / 10 * 10 == inject_Z tp)%Q as Heq by (field).
  rewrite Heq in Hle. change (25 * 10)%Q with (inject_Z 250) in Hle.
  rewrite <- Zle_Qle in Hle. lia.
Qed.

Lemma validate_ok meldKeys scoreKeys ps h :
  enumerates scoreKeys (playerScores h) →
  map_Forall (fun _ m => (10 | m)) (playerMeld h) →
  map_Forall (fun _ s => 0 ≤ s ∧ (10 | s)) (playerScores h) → trickPoints h ≤ 250 →
  (validate meldKeys scoreKeys ps h).1 = {| valid := true; errors := [] |}.
Proof.
  intros Hkeys Hm Hs Ht.
  assert (meldErrors meldKeys ps h = []) as Hme
    by (by rewrite HandFacts.meldErrors_badMelds, HandFacts.badMelds_nil).
  assert (trickErrors scoreKeys h = []) as Hte.
  { rewrite (HandFacts.trickErrors_exact _ _ Hkeys); [|split; [done|lia]].
    rewrite decide_True; [done|]. by apply tricks_le_250. }
  unfold validate. simpl. by rewrite Hme, Hte.
Qed.

Lemma createdKeys_snoc (xs : list Player.t) (x : Player.t) :
  createdKeys (xs ++ [x])
  = if bool_decide (Player.id x ∈ createdKeys xs) then createdKeys xs
    else createdKeys xs ++ [Player.id x].
Proof. unfold createdKeys. by rewrite foldl_app. Qed.

Lemma createdKeys_ids (xs : list Player.t) :
  NoDup (createdKeys xs) ∧ ∀ k, k ∈ createdKeys xs ↔ k ∈ Player.id <$> xs.
Proof.
  induction xs as [|x xs [IHnd IHin]] using rev_ind.
  - split; [constructor|done].
  - rewrite createdKeys_snoc, fmap_app. case_bool_decide as Hx.
    + split; [done|]. intros k. rewrite elem_of_app, <- IHin.
      split; [auto|]. intros [?|Hk]; [done|].
      by apply list_elem_of_singleton in Hk as ->.
    + split.
      * apply NoDup_app. split; [done|]. split; [|apply NoDup_singleton].
        intros k Hk ->%list_elem_of_singleton. done.
      * intros k. by rewrite !elem_of_app, IHin.
Qed.

Lemma sumZ_times10 (G : string → Z) (l : list string) :
  sumZ ((fun k => G k * 10) <$> l) = 10 * sumZ (G <$> l).
Proof. induction l as [|x l IH]; [done|]. rewrite !fmap_cons, !sumZ_cons, IH. lia. Qed.

Lemma elem_of_ids (xs : list Player.t) (k : string) :
  k ∈ Player.id <$> xs ↔ ∃ p, p ∈ xs ∧ Player.id p = k.
Proof.
  rewrite list_elem_of_fmap. split.
  - intros (p & -> & Hp). by exists p.
  - intros (p & Hp & <-). by exists p.
Qed.

Lemma collected_valid_hand pend f start xs hand tc ps :
  collected pend f start xs hand tc →
  playerMeld start = ∅ → playerScores start = ∅ → sumZ tc ≤ 25 →
  map_Forall (fun _ m => 0 ≤ m ≤ 1000 ∧ (10 | m)) (playerMeld hand)
  ∧ map_Forall (fun _ s => 0 ≤ s ≤ 250 ∧ (10 | s)) (playerScores hand)
  ∧ trickPoints hand ≤ 250
  ∧ (validate (createdKeys xs) (createdKeys xs) ps hand).1
    = {| valid := true; errors := [] |}.
Proof.
  intros [Hm Hs Hc Hv _ _] Hm0 Hs0 Hsum.
  assert (map_Forall (fun _ m => 0 ≤ m ≤ 1000 ∧ (10 | m)) (playerMeld hand)) as Hmeld.
  { intros k v Hk. rewrite Hm in Hk. case_bool_decide as Hin.
    - injection Hk as <-. apply elem_of_ids in Hin as (p & Hp & <-).
      by apply storedMeld_range, Hv.
    - by rewrite Hm0, lookup_empty in Hk. }
  assert (∀ k v, playerScores hand !! k = Some v →
                 v = tricksOf f k * 10 ∧ k ∈ Player.id <$> xs) as Hscore.
  { intros k v Hk. rewrite Hs in Hk. case_bool_decide as Hin.
    - by injection Hk as <-.
    - by rewrite Hs0, lookup_empty in Hk. }
  assert (trickPoints hand ≤ 250) as Hpoints.
  { unfold trickPoints.
    etrans; [apply (sumvals_le_list _ (fun k => tricksOf f k * 10) (Player.id <$> xs) Hscore)|].
    - intros k (p & Hp & <-)%elem_of_ids. destruct (Hv p Hp) as [_ ?]. lia.
    - rewrite sumZ_times10.
      assert (tricksOf f <$> (Player.id <$> xs) = tc) as ->
        by (by rewrite Hc, <- list_fmap_compose).
      lia. }
  assert (map_Forall (fun _ s => 0 ≤ s ≤ 250 ∧ (10 | s)) (playerScores hand)) as Hscores.
  { intros k v Hk. destruct (Hscore k v Hk) as [-> (p & Hp & <-)%elem_of_ids].
    destruct (Hv p Hp) as [_ ?]. split; [lia|]. exists (tricksOf f (Player.id p)). lia. }
  split; [done|]. split; [done|]. split; [done|].
  apply validate_ok; [| | |done].
  - destruct (createdKeys_ids xs) as [Hnd Hin]. split; [done|].
    intros k. rewrite Hin, Hs. case_bool_decide; [by split; [eexists|]|].
    rewrite Hs0, lookup_empty. split; [done|by intros [? ?]].
  - intros k v Hk. by destruct (Hmeld k v Hk).
  - intros k v Hk. destruct (Hscores k v Hk). split; [lia|done].
Qed.

Lemma freshHand_Done now g hand0 :
  freshHand now g = Done hand0 →
  ∃ dealer, getCurrentDealer g = Some dealer
            ∧ hand0 = GameHand.new now (getNextHandNumber g) (Player.id dealer) (Player.name dealer).
Proof.
  unfold freshHand. destruct (getCurrentDealer g) as [dealer|]; [|done].
  intros [= <-]. by exists dealer.
Qed.

Lemma addToGame_Done hand g g' h :
  addToGame hand g = Done (g', h) → h = hand ∧ addHand hand g = Ok g'.
Proof. unfold addToGame. destruct (addHand hand g); [|done]. by intros [= <- <-]. Qed.

(** Everything [submitHand()] has checked and built when it adds a hand. *)
Lemma submitHand_Done_inv now pend f g g' h :
  submitHand now pend f g = Done (g', h) →
  ∃ dealer,
    getCurrentDealer g = Some dealer
    ∧ collected pend f
        (setWinningBid (p_winningBid pend) (p_bidderId pend) (p_bidderName pend)
           (GameHand.new now (getNextHandNumber g) (Player.id dealer) (Player.name dealer)))
        (players g) h ((fun p => tricksOf f (Player.id p)) <$> players g)
    ∧ sumZ ((fun p => tricksOf f (Player.id p)) <$> players g) ≤ 25
    ∧ addHand h g = Ok g'.
Proof.
  unfold submitHand.
  destruct (freshHand now g) as [hand0| |] eqn:Hfresh; [|done|done].
  apply freshHand_Done in Hfresh as (dealer & Hdealer & ->).
  destruct (forOf _ _ _) as [[hand tc]| |] eqn:Hloop; [|done|done].
  apply collect_all in Hloop.
  destruct (Validation.totalTricks tc) as [v|e] eqn:Htotal; [|done].
  apply totalTricks_valid_iff in Htotal as [-> Hsum].
  destruct (negb _); [done|].
  intros [-> Hadd]%addToGame_Done.
  exists dealer. split; [done|].
  pose proof (co_counts _ _ _ _ _ _ Hloop) as Hc. subst tc.
  split; [exact Hloop|]. split; [exact Hsum | exact Hadd].
Qed.

(** X16.  Every hand that [submitHand()] adds to the session is well formed:
    each player's entries passed [Validation.meld] and [Validation.tricks]
    and the tricks add up to 25 at most; the hand has a meld and a trick
    entry for exactly the players of the session, the trick entry being ten
    times the tricks entered; every stored meld is a multiple of 10 between
    0 and 1000 and every stored trick score a multiple of 10 between 0 and
    250; it carries the pending bid and bidder, the next hand number and the
    current dealer, and is not thrown in. *)
Theorem submitHand_adds_wellformed_hand (now : string) (pend : pending) (f : form)
  (g g' : Game.t) (h : GameHand.t) :
  submitHand now pend f g = Done (g', h) →
  (∀ p, p ∈ players g → entryValid f (Player.id p))
  ∧ sumZ ((fun p => tricksOf f (Player.id p)) <$> players g) ≤ 25
  ∧ (∀ k, playerMeld h !! k
          = if bool_decide (k ∈ playerIds g) then Some (storedMeld pend f k) else None)
  ∧ (∀ k, playerScores h !! k
          = if bool_decide (k ∈ playerIds g) then Some (tricksOf f k * 10) else None)
  ∧ map_Forall (fun _ m => 0 ≤ m ≤ 1000 ∧ (10 | m)) (playerMeld h)
  ∧ map_Forall (fun _ s => 0 ≤ s ≤ 250 ∧ (10 | s)) (playerScores h)
  ∧ trickPoints h ≤ 250
  ∧ (winningBid h = Some (p_winningBid pend) ∧ bidderId h = Some (p_bidderId pend)
     ∧ bidderName h = Some (p_bidderName pend))
  ∧ handNumber h = getNextHandNumber g
  ∧ (∃ dealer, getCurrentDealer g = Some dealer ∧ dealerId h = Player.id dealer
               ∧ dealerName h = Player.name dealer)
  ∧ thrownIn h = false
  ∧ addHand h g = Ok g'.
Proof.
  intros (dealer & Hdealer & Hcol & Hsum & Hadd)%submitHand_Done_inv.
  destruct (collected_valid_hand _ _ _ _ _ _ (players g) Hcol eq_refl eq_refl Hsum)
    as (Hmeld & Hscore & Hpoints & _).
  destruct Hcol as [Hm Hs _ Hv Hb Hh]. simpl in *.
  split; [done|]. split; [done|].
  split; [intros k; by rewrite Hm, lookup_empty|].
  split; [intros k; by rewrite Hs, lookup_empty|].
  split; [done|]. split; [done|]. split; [done|]. split; [done|].
  destruct Hh as (? & ? & ? & ? & ?).
  split; [done|]. split; [by exists dealer|]. done.
Qed.

Lemma forOf_Rejected {A S} (body : A → S → outcome S) xs s msg :
  forOf body xs s = Rejected msg →
  ∃ before x after s',
    xs = before ++ x :: after ∧ forOf body before s = Done s' ∧ body x s' = Rejected msg.
Proof.
  revert s. induction xs as [|y xs IH]; intros s; [done|]. simpl.
  destruct (body y s) as [s1| |] eqn:Hy; [|intros [= <-]|done].
  - intros (before & x & after & s' & -> & Hrun & Hx)%IH.
    exists (y :: before), x, after, s'. simpl. by rewrite Hy.
  - by exists [], y, xs, s.
Qed.

Lemma collectPlayer_Rejected pend f p st msg :
  collectPlayer pend f p st = Rejected msg →
  ∃ e, msg = (Player.name p ++ ": " ++ e)%string
       ∧ (Validation.meld (Num (meldOf f (Player.id p))) = Validation.Invalid e
          ∨ Validation.tricks (Num (tricksOf f (Player.id p))) = Validation.Invalid e).
Proof.
  unfold collectPlayer. destruct (Validation.meld _) as [v|e].
  - destruct (Validation.tricks _) as [v'|e]; [done|]. intros [= <-]. exists e. auto.
  - intros [= <-]. exists e. auto.
Qed.

(** X17.  When [submitHand()] turns a hand down, the message is that of the
    first player, in seating order, whose meld or tricks fail
    [Validation.meld] or [Validation.tricks], prefixed with the player's
    name; or, when every player passes, that of [Validation.totalTricks]
    with the total of the tricks entered.  The check by [hand.validate] that
    follows never turns a hand down. *)
Theorem submitHand_rejections (now : string) (pend : pending) (f : form)
  (g : Game.t) (msg : string) :
  submitHand now pend f g = Rejected msg →
  (∃ before p after e,
     players g = before ++ p :: after
     ∧ (∀ q, q ∈ before → entryValid f (Player.id q))
     ∧ msg = (Player.name p ++ ": " ++ e)%string
     ∧ (Validation.meld (Num (meldOf f (Player.id p))) = Validation.Invalid e
        ∨ Validation.tricks (Num (tricksOf f (Player.id p))) = Validation.Invalid e))
  ∨ ((∀ q, q ∈ players g → entryValid f (Player.id q))
     ∧ 25 < sumZ ((fun p => tricksOf f (Player.id p)) <$> players g)
     ∧ msg = ("Total tricks ("
              ++ pretty (sumZ ((fun p => tricksOf f (Player.id p)) <$> players g))
              ++ ") cannot exceed 25")%string).
Proof.
  unfold submitHand, freshHand.
  destruct (getCurrentDealer g) as [dealer|]; [|done].
  destruct (forOf _ _ _) as [[hand tc]| |] eqn:Hloop; [| |done].
  - apply collect_all in Hloop.
    pose proof (co_counts _ _ _ _ _ _ Hloop) as Hc.
    unfold Validation.totalTricks. rewrite foldl_sum, Z.add_0_l.
    destruct (Z.ltb_spec 25 (sumZ tc)) as [Hgt|Hle].
    + intros [= <-]. right. rewrite <- Hc.
      split; [apply (co_valid _ _ _ _ _ _ Hloop)|]. by split.
    + destruct (collected_valid_hand _ _ _ _ _ _ (players g) Hloop eq_refl eq_refl Hle)
        as (_ & _ & _ & Hvalid).
      rewrite Hvalid. simpl. unfold addToGame. by destruct (addHand hand g).
  - intros [= <-].
    apply forOf_Rejected in Hloop as (before & p & after & [hand tc] & Hps & Hrun & Hp).
    apply collect_all in Hrun. apply collectPlayer_Rejected in Hp as (e & -> & He).
    left. exists before, p, after, e.
    split; [done|]. split; [apply (co_valid _ _ _ _ _ _ Hrun)|]. by split.
Qed.

Lemma hand_total_lookup (h : GameHand.t) (k : string) (m s : Z) :
  playerMeld h !! k = Some m → playerScores h !! k = Some s →
  getPlayerHandTotal k h = m + s.
Proof.
  intros Hm Hs. rewrite HandFacts.getPlayerHandTotal_default. unfold bidderTotal.
  by rewrite Hm, Hs.
Qed.

(** X18.  The meld safety rule, as it shows in a hand added by
    [submitHand()]: the bidder, and every player who took a trick, scores
    meld plus ten per trick; a player who is not the bidder and took no trick
    scores the meld only when it is 10 or 20 and the nines-only box is
    ticked, and nothing otherwise, hence never more than 20. *)
Theorem submitHand_meld_safety (now : string) (pend : pending) (f : form)
  (g g' : Game.t) (h : GameHand.t) (p : Player.t) :
  submitHand now pend f g = Done (g', h) → p ∈ players g →
  (Player.id p = p_bidderId pend ∨ 1 ≤ tricksOf f (Player.id p) →
     getPlayerHandTotal (Player.id p) h
     = meldOf f (Player.id p) + tricksOf f (Player.id p) * 10)
  ∧ (Player.id p ≠ p_bidderId pend → tricksOf f (Player.id p) = 0 →
     getPlayerHandTotal (Player.id p) h
     = (if ((meldOf f (Player.id p) =? 10) || (meldOf f (Player.id p) =? 20))
           && ninesOnlyOf f (Player.id p)
        then meldOf f (Player.id p) else 0)
     ∧ getPlayerHandTotal (Player.id p) h ≤ 20).
Proof.
  intros (dealer & _ & Hcol & _)%submitHand_Done_inv Hp.
  destruct Hcol as [Hm Hs _ Hv _ _].
  assert (Player.id p ∈ Player.id <$> players g) as Hin
    by (apply elem_of_ids; by exists p).
  specialize (Hm (Player.id p)). specialize (Hs (Player.id p)).
  rewrite bool_decide_eq_true_2 in Hm, Hs by done.
  rewrite (hand_total_lookup h _ _ _ Hm Hs).
  destruct (Hv p Hp) as [[Hrange _] Htricks].
  unfold storedMeld, finalMeld. simpl. split.
  - intros [Hb|Ht].
    + rewrite bool_decide_eq_false_2 by (intros Hne; by apply Hne). done.
    + destruct (_ && _); [|done]. destruct (_ && _); [done|].
      destruct (Z.ltb_spec (tricksOf f (Player.id p)) 1); [lia|done].
  - intros Hne Ht. rewrite bool_decide_eq_true_2 by done. rewrite Ht. simpl.
    destruct (Z.ltb_spec 0 (meldOf f (Player.id p))) as [Hpos|Hzero]; simpl.
    + destruct (Z.eqb_spec (meldOf f (Player.id p)) 10) as [H10|H10];
        destruct (Z.eqb_spec (meldOf f (Player.id p)) 20) as [H20|H20];
        destruct (ninesOnlyOf f (Player.id p)); simpl; lia.
    + assert (meldOf f (Player.id p) = 0) as -> by lia. simpl.
      destruct (ninesOnlyOf f (Player.id p)); simpl; lia.
Qed.

(** ** shotTheMoon *)

Lemma moonPlayer_eq pend f h p :
  moonPlayer pend f h p
  = setPlayerScore (Player.id p) (moonScore pend (Player.id p))
      (setPlayerMeld (Player.id p) (moonMeld pend f (Player.id p)) h).
Proof. unfold moonPlayer, moonScore, moonMeld. by case_bool_decide. Qed.

Lemma moon_loop pend f start xs :
  (∀ k, playerMeld (foldl (moonPlayer pend f) start xs) !! k
        = if bool_decide (k ∈ Player.id <$> xs) then Some (moonMeld pend f k)
          else playerMeld start !! k)
  ∧ (∀ k, playerScores (foldl (moonPlayer pend f) start xs) !! k
          = if bool_decide (k ∈ Player.id <$> xs) then Some (moonScore pend k)
            else playerScores start !! k)
  ∧ winningBid (foldl (moonPlayer pend f) start xs) = winningBid start
  ∧ bidderId (foldl (moonPlayer pend f) start xs) = bidderId start
  ∧ handNumber (foldl (moonPlayer pend f) start xs) = handNumber start
  ∧ dealerId (foldl (moonPlayer pend f) start xs) = dealerId start
  ∧ dealerName (foldl (moonPlayer pend f) start xs) = dealerName start
  ∧ thrownIn (foldl (moonPlayer pend f) start xs) = thrownIn start.
Proof.
  induction xs as [|p xs IH] using rev_ind.
  - by repeat split.
  - destruct IH as (Hm & Hs & Hw & Hb & Hn & Hd & Hdn & Ht).
    rewrite foldl_app. cbn [foldl]. rewrite moonPlayer_eq.
    set (h := foldl (moonPlayer pend f) start xs) in *.
    assert (∀ k, k ≠ Player.id p →
              bool_decide (k ∈ Player.id <$> xs ++ [p])
              = bool_decide (k ∈ Player.id <$> xs)) as Hother.
    { intros k Hne. apply bool_decide_ext. rewrite elem_of_snoc_ids. tauto. }
    assert (bool_decide (Player.id p ∈ Player.id <$> xs ++ [p]) = true) as Hself.
    { apply bool_decide_eq_true_2, elem_of_snoc_ids. by left. }
    split; [|split; [|done]].
    + intros k. cbn [playerMeld setPlayerScore setPlayerMeld].
      destruct (decide (k = Player.id p)) as [->|Hne].
      * by rewrite lookup_insert_eq, Hself.
      * by rewrite lookup_insert_ne, Hother.
    + intros k. cbn [playerScores setPlayerScore setPlayerMeld].
      destruct (decide (k = Player.id p)) as [->|Hne].
      * by rewrite lookup_insert_eq, Hself.
      * by rewrite lookup_insert_ne, Hother.
Qed.

Lemma moonScore_sum (pend : pending) (l : list string) :
  NoDup l → sumZ (moonScore pend <$> l) ≤ 500.
Proof.
  assert (∀ l, p_bidderId pend ∉ l → sumZ (moonScore pend <$> l) = 0) as Hnone.
  { clear l. induction l as [|k l IH]; [done|].
    intros [Hne Hl]%not_elem_of_cons. rewrite fmap_cons, sumZ_cons, (IH Hl).
    unfold moonScore. by rewrite bool_decide_eq_false_2 by done. }
  induction 1 as [|k l Hk Hnd IH]; [simpl; lia|].
  rewrite fmap_cons, sumZ_cons. unfold moonScore at 1. case_bool_decide as Hb.
  - subst k. rewrite (Hnone l Hk). lia.
  - lia.
Qed.

(** X19.  A hand added by [shotTheMoon()] for a pending bid that
    [nextToMeldPhase()] let through: the bidder has 500 points and no meld,
    every other player the meld on the form as it is and no tricks.  The
    bidder is set exactly when the bid is above 500, so the hand gives the
    bidder 500 for a bid up to 500 and takes the bid away for a higher one.
    The hand is added without being validated, and [validate] would turn it
    down (500 points are 50 tricks), in whatever order it goes through the
    keys. *)
Theorem shotTheMoon_hand (now : string) (bidInput : jsnum) (choice : string)
  (pend : pending) (f : form) (g g' : Game.t) (h : GameHand.t) :
  nextToMeldPhase bidInput choice g = Done pend →
  shotTheMoon now pend f g = Done (g', h) →
  getPlayerHandTotal (p_bidderId pend) h = 500
  ∧ (∀ p, p ∈ players g → Player.id p ≠ p_bidderId pend →
          getPlayerHandTotal (Player.id p) h = meldOf f (Player.id p))
  ∧ (isBidderSet h = true ↔ 500 < p_winningBid pend)
  ∧ handContribution h (p_bidderId pend)
    = (if 500 <? p_winningBid pend then - p_winningBid pend else 500)
  ∧ (∀ meldKeys scoreKeys, enumerates scoreKeys (playerScores h) →
       valid (validate meldKeys scoreKeys (players g) h).1 = false)
  ∧ thrownIn h = false
  ∧ addHand h g = Ok g'.
Proof.
  intros Hpend Hmoon.
  destruct (nextToMeldPhase_Done_inv _ _ _ _ Hpend)
    as (_ & _ & _ & _ & Hchoice & _ & (bidder & Hbin & Hbid & _) & Hset).
  unfold shotTheMoon in Hmoon.
  destruct (freshHand now g) as [hand0| |] eqn:Hfresh; [|done|done].
  apply freshHand_Done in Hfresh as (dealer & _ & ->).
  apply addToGame_Done in Hmoon as [-> Hadd].
  match goal with |- context [foldl (moonPlayer pend f) ?st ?xs] =>
    destruct (moon_loop pend f st xs) as (Hm & Hs & Hw & Hb & _ & _ & _ & Ht);
    set (h := foldl (moonPlayer pend f) st xs) in * end.
  simpl in Hw, Hb, Ht.
  assert (p_bidderId pend ∈ Player.id <$> players g) as Hin.
  { apply elem_of_ids. exists bidder. split; [done|congruence]. }
  assert (getPlayerHandTotal (p_bidderId pend) h = 500) as Htotal.
  { rewrite (hand_total_lookup h _ 0 500); [done| |].
    - rewrite Hm, bool_decide_eq_true_2 by done. unfold moonMeld.
      by rewrite bool_decide_eq_true_2.
    - rewrite Hs, bool_decide_eq_true_2 by done. unfold moonScore.
      by rewrite bool_decide_eq_true_2. }
  assert (isBidderSet h = true ↔ 500 < p_winningBid pend) as Hiff.
  { rewrite (Hset h Hb Hw), <- HandFacts.getPlayerHandTotal_default, Htotal. done. }
  split; [done|]. split; [|split; [done|split; [|split; [|done]]]].
  - intros p Hp Hne.
    assert (Player.id p ∈ Player.id <$> players g) as Hpin
      by (apply elem_of_ids; by exists p).
    rewrite (hand_total_lookup h _ (meldOf f (Player.id p)) 0); [lia| |].
    + rewrite Hm, bool_decide_eq_true_2 by done. unfold moonMeld.
      by rewrite bool_decide_eq_false_2.
    + rewrite Hs, bool_decide_eq_true_2 by done. unfold moonScore.
      by rewrite bool_decide_eq_false_2.
  - unfold handContribution. rewrite Ht, Hb, Hw.
    rewrite bool_decide_eq_true_2 by done. simpl.
    rewrite HandFacts.getPlayerHandTotal_default in Htotal. unfold bidderTotal in Htotal.
    destruct (Z.ltb_spec 500 (p_winningBid pend)) as [Hgt|Hle].
    + by rewrite (proj2 Hiff Hgt).
    + destruct (isBidderSet h) eqn:Hs'; [|done].
      pose proof (proj1 Hiff eq_refl). lia.
  - assert (500 ≤ trickPoints h) as Hpoints.
    { unfold trickPoints. apply (sumvals_ge_entry _ (p_bidderId pend)).
      - intros k v Hk. rewrite Hs in Hk. case_bool_decide; [|done].
        injection Hk as <-. unfold moonScore. case_bool_decide; lia.
      - rewrite Hs, bool_decide_eq_true_2 by done. unfold moonScore.
        by rewrite bool_decide_eq_true_2. }
    assert (trickPoints h ≤ 500) as Hupper.
    { unfold trickPoints.
      etrans; [apply (sumvals_le_list _ (moonScore pend) (createdKeys (players g)))|].
      - intros k v Hk. rewrite Hs in Hk. case_bool_decide as Hk'; [|done].
        injection Hk as <-. split; [done|]. by apply createdKeys_ids.
      - intros k _. unfold moonScore. case_bool_decide; lia.
      - apply moonScore_sum, createdKeys_ids. }
    assert (tricksTimesTen h) as Hten.
    { split; [|lia]. intros k v Hk. rewrite Hs in Hk. case_bool_decide; [|done].
      injection Hk as <-. unfold moonScore.
      case_bool_decide; (split; [lia|]); [by exists 50|by exists 0]. }
    intros meldKeys scoreKeys Hkeys. simpl.
    rewrite (HandFacts.trickErrors_exact _ _ Hkeys Hten).
    rewrite decide_False by (apply tricks_gt_250; lia).
    rewrite length_app. simpl. apply Nat.eqb_neq. lia.
Qed.

(** ** Sessions built through the entry flow *)

Lemma replayedScores_again hs hs' sc :
  replayedScores hs (replayedScores hs' sc) = replayedScores hs sc.
Proof. unfold replayedScores. rewrite map_map. by apply map_ext. Qed.

Lemma seated_new nowId nowIso ps gt :
  NoDup (Player.id <$> ps) → seated ps (Game.new nowId nowIso ps gt).
Proof.
  intros Hnd. split; simpl.
  - done.
  - by apply GameFacts.wellFormed_new.
  - unfold replayedScores. rewrite map_map. by apply map_ext.
  - by rewrite Nat.Div0.mod_0_l.
  - intros i h Hi. by rewrite lookup_nil in Hi.
Qed.

Lemma seated_withTeams ps g teams : seated ps g → seated ps (withTeams teams g).
Proof.
  intros [Hp [Hnd Hal Hk] Hs Hd Hh]. by split.
Qed.

Lemma seated_dealer ps g :
  seated ps g → ps ≠ [] →
  ∃ dealer, getCurrentDealer g = Some dealer
            ∧ ps !! (length (hands g) mod length ps)%nat = Some dealer.
Proof.
  intros [Hp _ _ Hd _] Hne. unfold getCurrentDealer. rewrite Hd, Hp.
  destruct (Z.ltb_spec (Z.of_nat (length (hands g) mod length ps)) 0) as [|_]; [lia|].
  rewrite Nat2Z.id.
  destruct (lookup_lt_is_Some_2 ps (length (hands g) mod length ps)) as [dealer Hdealer].
  { apply Nat.mod_upper_bound. by destruct ps. }
  by exists dealer.
Qed.

Lemma getCurrentDealer_seat ps g dealer :
  seated ps g → getCurrentDealer g = Some dealer →
  ps ≠ [] ∧ ps !! (length (hands g) mod length ps)%nat = Some dealer.
Proof.
  intros Hse Hcur.
  assert (ps ≠ []) as Hne.
  { intros ->. destruct Hse as [Hp _ _ Hd _]. unfold getCurrentDealer in Hcur.
    rewrite Hd, Hp in Hcur. simpl in Hcur. by destruct (length (hands g)). }
  split; [done|]. destruct (seated_dealer ps g Hse Hne) as (dealer' & Hcur' & Hseat).
  congruence.
Qed.

Lemma seated_addHand ps g g' h dealer :
  seated ps g → getCurrentDealer g = Some dealer →
  handNumber h = getNextHandNumber g →
  dealerId h = Player.id dealer → dealerName h = Player.name dealer →
  bidderKnown (playerIds g) h →
  addHand h g = Ok g' → seated ps g'.
Proof.
  intros Hse Hcur Hnum Hdid Hdname Hknown Hadd.
  destruct (getCurrentDealer_seat ps g dealer Hse Hcur) as [Hne Hseat].
  destruct Hse as [Hp Hwf Hs Hd Hh].
  pose proof (GameFacts.wellFormed_withHands g h Hwf Hknown) as Hwf1.
  pose proof (GameFacts.wellFormed_addHand g h g' Hwf Hknown Hadd) as Hwf'.
  unfold addHand in Hadd.
  rewrite (GameFacts.recalculateScores_wellFormed _ Hwf1), bind_Ok in Hadd.
  injection Hadd as <-. simpl.
  assert (Z.of_nat (length ps) ≠ 0) as Hn by (destruct ps; [done | simpl; lia]).
  split; simpl.
  - done.
  - exact Hwf'.
  - by rewrite replayedScores_again.
  - rewrite Hd, Hp. simpl. destruct (Z.eqb_spec (Z.of_nat (length ps)) 0) as [|_]; [done|].
    f_equal. rewrite length_app. simpl.
    rewrite Z.rem_mod_nonneg by lia.
    rewrite !Nat2Z.inj_mod, Nat2Z.inj_add. simpl.
    by rewrite Zplus_mod_idemp_l.
  - intros i h' Hi. apply lookup_app_Some in Hi as [Hi|[Hlen Hi]]; [by apply Hh|].
    apply list_lookup_singleton_Some in Hi as [Hi0 <-].
    assert (i = length (hands g)) as -> by lia.
    split.
    + rewrite Hnum. unfold getNextHandNumber. lia.
    + by exists dealer.
Qed.

Lemma pending_bidderKnown bidInput choice g pend h :
  nextToMeldPhase bidInput choice g = Done pend →
  bidderId h = Some (p_bidderId pend) → bidderKnown (playerIds g) h.
Proof.
  intros Hpend Hb _ _.
  destruct (nextToMeldPhase_Done_inv _ _ _ _ Hpend)
    as (_ & _ & _ & _ & Hchoice & _ & (bidder & Hbin & Hbid & _) & _).
  exists (p_bidderId pend). split; [done|].
  apply elem_of_ids. exists bidder. split; [done | congruence].
Qed.

Lemma played_seated ps g : NoDup (Player.id <$> ps) → played ps g → seated ps g.
Proof.
  intros Hnd. induction 1 as [nowId nowIso gt | g teams _ IH
    | g now bidInput choice pend f g' h _ IH Hpend Hsub
    | g now g' h _ IH Hthrow
    | g now bidInput choice pend f g' h _ IH Hpend Hmoon].
  - by apply seated_new.
  - by apply seated_withTeams.
  - apply submitHand_Done_inv in Hsub as (dealer & Hcur & Hcol & _ & Hadd).
    destruct Hcol as [_ _ _ _ (_ & Hb & _) (Hn & Hd & Hdn & _)]. simpl in *.
    apply (seated_addHand ps g g' h dealer); try done.
    by apply (pending_bidderKnown bidInput choice g pend).
  - unfold throwInHand in Hthrow.
    destruct (freshHand now g) as [hand0| |] eqn:Hfresh; [|done|done].
    apply freshHand_Done in Hfresh as (dealer & Hcur & ->).
    apply addToGame_Done in Hthrow as [-> Hadd].
    refine (seated_addHand ps g g' _ dealer IH Hcur _ _ _ _ Hadd);
      first [done | by apply GameFacts.thrownIn_bidderKnown].
  - unfold shotTheMoon in Hmoon.
    destruct (freshHand now g) as [hand0| |] eqn:Hfresh; [|done|done].
    apply freshHand_Done in Hfresh as (dealer & Hcur & ->).
    apply addToGame_Done in Hmoon as [-> Hadd].
    match goal with _ : addHand (foldl (moonPlayer pend f) ?st ?xs) g = _ |- _ =>
      destruct (moon_loop pend f st xs) as (_ & _ & _ & Hb & Hn & Hd & Hdn & _) end.
    simpl in Hb, Hn, Hd, Hdn.
    refine (seated_addHand ps g g' _ dealer IH Hcur _ _ _ _ Hadd);
      first [done | by apply (pending_bidderKnown bidInput choice g pend)].
Qed.

(** X20.  In a session built through the entry flow for players with
    distinct ids (a new game, then hands submitted, thrown in or shot at the
    moon): the players never change; the hand at position [i] carries the
    number [i + 1] and, as its dealer, the player seated at
    [i mod players.length], so the deal goes round the table one seat per
    hand, thrown-in hands included; the dealer index is
    [hands.length mod players.length]; and the cached scores are the replay
    of the hands. *)
Theorem played_sessions_keep_seats (ps : list Player.t) (g : Game.t) :
  NoDup (Player.id <$> ps) → played ps g →
  players g = ps
  ∧ wellFormed g
  ∧ scores g = replayedScores (hands g) (scores g)
  ∧ dealerIndex g = Num (Z.of_nat (length (hands g) mod length ps))
  ∧ (∀ i h, hands g !! i = Some h → recorded ps i h)
  ∧ getNextHandNumber g = Z.of_nat (length (hands g)) + 1.
Proof.
  intros Hnd Hplayed. destruct (played_seated ps g Hnd Hplayed) as [Hp Hwf Hs Hd Hh].
  split; [exact Hp|]. split; [exact Hwf|]. split; [exact Hs|].
  split; [exact Hd|]. split; [exact Hh | reflexivity].
Qed.

Lemma forOf_collect_not_Failed pend f xs st : forOf (collectPlayer pend f) xs st ≠ Failed.
Proof.
  revert st. induction xs as [|x xs IH]; intros st; [done|]. simpl.
  destruct (collectPlayer pend f x st) as [st'| |] eqn:Hx; [apply IH | done |].
  unfold collectPlayer in Hx.
  destruct (Validation.meld _); [|done]. by destruct (Validation.tricks _).
Qed.

Lemma seated_addHand_Ok ps g h :
  seated ps g → bidderKnown (playerIds g) h → ∃ g', addHand h g = Ok g'.
Proof.
  intros [_ Hwf _ _ _] Hknown.
  pose proof (GameFacts.wellFormed_withHands g h Hwf Hknown) as Hwf1.
  unfold addHand.
  rewrite (GameFacts.recalculateScores_wellFormed _ Hwf1), bind_Ok. by eexists.
Qed.

(** X21.  Once a player is seated, the entry flow never runs into an
    exception on a session it has built: throwing a hand in always adds a
    hand; with a pending hand from [nextToMeldPhase()], shooting the moon
    always adds a hand, and [submitHand()] either adds one or turns the form
    down with a message. *)
Theorem entry_flow_never_fails (ps : list Player.t) (g : Game.t) :
  NoDup (Player.id <$> ps) → ps ≠ [] → played ps g →
  (∀ now, ∃ g' h, throwInHand now g = Done (g', h))
  ∧ (∀ now bidInput choice pend f,
       nextToMeldPhase bidInput choice g = Done pend →
       submitHand now pend f g ≠ Failed
       ∧ ∃ g' h, shotTheMoon now pend f g = Done (g', h)).
Proof.
  intros Hnd Hne Hplayed. pose proof (played_seated ps g Hnd Hplayed) as Hse.
  destruct (seated_dealer ps g Hse Hne) as (dealer & Hcur & _).
  split.
  - intros now. unfold throwInHand, freshHand. rewrite Hcur. unfold addToGame.
    destruct (seated_addHand_Ok ps g
                (throwIn (GameHand.new now (getNextHandNumber g) (Player.id dealer)
                            (Player.name dealer))) Hse) as [g' ->];
      [by apply GameFacts.thrownIn_bidderKnown | by eauto].
  - intros now bidInput choice pend f Hpend. split.
    + unfold submitHand, freshHand. rewrite Hcur.
      destruct (forOf _ _ _) as [[hand tc]| |] eqn:Hloop;
        [|done|by apply forOf_collect_not_Failed in Hloop].
      apply collect_all in Hloop. destruct Hloop as [_ _ _ _ (_ & Hb & _) _].
      destruct (Validation.totalTricks tc); [|done].
      destruct (negb _); [done|]. unfold addToGame.
      destruct (seated_addHand_Ok ps g hand Hse) as [g' ->]; [|done].
      by apply (pending_bidderKnown bidInput choice g pend).
    + unfold shotTheMoon, freshHand. rewrite Hcur. unfold addToGame.
      match goal with |- context [foldl (moonPlayer pend f) ?st ?xs] =>
        destruct (moon_loop pend f st xs) as (_ & _ & _ & Hb & _);
        destruct (seated_addHand_Ok ps g (foldl (moonPlayer pend f) st xs) Hse)
          as [g' ->] end; [|by eauto].
      by apply (pending_bidderKnown bidInput choice g pend).
Qed.

End ControllerFacts.

(** * Teams *)

Module TeamFacts.
Import Game GameSpec GameController.

Lemma existsb_id (team : list Player.t) (k : string) :
  existsb (fun p => String.eqb (Player.id p) k) team = true ↔ k ∈ Player.id <$> team.
Proof.
  rewrite existsb_exists, list_elem_of_fmap. split.
  - intros (p & Hp & Heq%String.eqb_eq). exists p. split; [done | by apply list_elem_of_In].
  - intros (p & -> & Hp). exists p. split; [by apply list_elem_of_In | apply String.eqb_refl].
Qed.

(** X22.  [isPlayerBidderTeammate] answers true exactly in a 4-player session
    with team assignments and a pending hand, for a player who is on team A
    if and only if the bidder is: the bidder counts as their own teammate,
    and so does everybody who is not on team A when the bidder is not.  A
    session that was saved and loaded again has no team assignments, so the
    answer is then false for everybody. *)
Theorem isPlayerBidderTeammate_spec (pend : pending) (playerId : string) (g : Game.t) :
  (isPlayerBidderTeammate (Some pend) playerId g = true
   ↔ gameType g = 4
     ∧ ∃ teamA teamB, teamAssignments g = Some (teamA, teamB)
         ∧ (p_bidderId pend ∈ Player.id <$> teamA ↔ playerId ∈ Player.id <$> teamA))
  ∧ (∀ nowId nowIso o,
       isPlayerBidderTeammate o playerId (fromData nowId nowIso (toData g)) = false)
  ∧ isPlayerBidderTeammate None playerId g = false.
Proof.
  split; [|split; [|done]].
  - unfold isPlayerBidderTeammate.
    destruct (Z.eqb_spec (gameType g) 4) as [H4|H4]; simpl.
    2:{ split; [done | by intros [? _]]. }
    destruct (teamAssignments g) as [[teamA teamB]|].
    2:{ split; [done | by intros (_ & ? & ? & ? & _)]. }
    split.
    + intros Heq%eqb_prop. split; [done|]. exists teamA, teamB. split; [done|].
      by rewrite <- !existsb_id, Heq.
    + intros (_ & A & B & [= <- <-] & Hiff). rewrite <- !existsb_id in Hiff.
      destruct (existsb _ teamA) eqn:Hb,
               (existsb (fun p => (Player.id p =? playerId)%string) teamA) eqn:Hp;
        try done.
      * by pose proof (proj1 Hiff eq_refl).
      * by pose proof (proj2 Hiff eq_refl).
  - intros nowId nowIso [o|]; [|done]. unfold isPlayerBidderTeammate. simpl.
    by destruct (negb _).
Qed.

End TeamFacts.

(** * The properties above on the sample sessions *)

Module ExtraWitnesses.
Import GameHand HandSpec Game GameSpec ExtraSpec GameController ControllerSpec.

Lemma staleGame_recalculated : recalculateScores staleGame = Ok recalculatedGame.
Proof. vm_compute. reflexivity. Qed.

Lemma recalculateScores_idempotent_witness :
  recalculateScores recalculatedGame = Ok recalculatedGame.
Proof.
  apply (GameExtras.recalculateScores_idempotent staleGame recalculatedGame
           staleGame_recalculated).
Defined.

Lemma advanceDealer_cycles_witness :
  dealerIndex (Nat.iter 3 advanceDealer twoPlayerGame) = Num 1
  ∧ getCurrentDealer (Nat.iter 3 advanceDealer twoPlayerGame) = Some bob.
Proof.
  destruct (GameExtras.advanceDealer_cycles twoPlayerGame 0 3
              ltac:(discriminate) eq_refl ltac:(simpl; lia))
    as (Hidx & Hcur & _).
  split; [exact Hidx | exact Hcur].
Defined.

Lemma advanceDealer_without_players_witness :
  dealerIndex (Nat.iter 2 advanceDealer emptyGame) = NaN
  ∧ getCurrentDealer (Nat.iter 1 advanceDealer emptyGame) = None.
Proof. exact (GameExtras.advanceDealer_without_players emptyGame 1 eq_refl). Defined.

Lemma sampleCalls_run : runCalls sampleCalls twoPlayerGame = Ok afterSampleCalls.
Proof. vm_compute. reflexivity. Qed.

Lemma runCalls_frame_witness :
  hands afterSampleCalls = [setHand; thrownHand]
  ∧ getNextHandNumber afterSampleCalls = 3
  ∧ isCompleted afterSampleCalls = true.
Proof.
  destruct (GameExtras.runCalls_frame sampleCalls twoPlayerGame afterSampleCalls
              sampleCalls_run)
    as (_ & _ & _ & _ & _ & Hh & Hn & Hc).
  split; [exact Hh|]. split; [exact Hn|]. apply Hc. by right.
Defined.

Lemma bidder_without_entries_is_set_witness : isBidderSet bareBidHand = true.
Proof.
  apply (HandExtras.bidder_without_entries_is_set bareBidHand "p1" 300
           eq_refl ltac:(discriminate) eq_refl ltac:(lia) eq_refl eq_refl).
Defined.

Lemma samplePending_accepted :
  nextToMeldPhase (Num 200) "p1" twoPlayerGame = Done samplePending.
Proof. vm_compute. reflexivity. Qed.

Lemma moonPending_accepted :
  nextToMeldPhase (Num 600) "p1" twoPlayerGame = Done moonPending.
Proof. vm_compute. reflexivity. Qed.

Lemma nextToMeldPhase_accepts_witness :
  150 ≤ p_winningBid samplePending ≤ 2000 ∧ (10 | p_winningBid samplePending).
Proof.
  destruct (ControllerFacts.nextToMeldPhase_accepts (Num 200) "p1" twoPlayerGame
              samplePending samplePending_accepted)
    as (_ & Hrange & Hmin & Hdiv & _).
  split; [lia | exact Hdiv].
Defined.

Lemma tricksRequired_least_witness :
  tricksRequired 300 50 = 25 ∧ moonOptionsShown 300 50 = false
  ∧ 300 ≤ 50 + 10 * tricksRequired 300 50.
Proof.
  destruct (ControllerFacts.tricksRequired_least 300 50 ltac:(by exists 25))
    as (_ & Hmake & _).
  split; [reflexivity|]. split; [reflexivity | exact Hmake].
Defined.

Lemma sampleForm_submitted :
  submitHand "t1" samplePending sampleForm twoPlayerGame = Done (submittedGame, submittedHand).
Proof. vm_compute. reflexivity. Qed.

Lemma submitHand_adds_wellformed_hand_witness :
  trickPoints submittedHand ≤ 250
  ∧ handNumber submittedHand = 1
  ∧ addHand submittedHand twoPlayerGame = Ok submittedGame.
Proof.
  destruct (ControllerFacts.submitHand_adds_wellformed_hand "t1" samplePending sampleForm
              twoPlayerGame submittedGame submittedHand sampleForm_submitted)
    as (_ & _ & _ & _ & _ & _ & Hpoints & _ & Hnum & _ & _ & Hadd).
  split; [exact Hpoints|]. split; [exact Hnum | exact Hadd].
Defined.

Lemma crowdedForm_rejected :
  submitHand "t1" samplePending crowdedForm twoPlayerGame
  = Rejected "Total tricks (30) cannot exceed 25".
Proof. vm_compute. reflexivity. Qed.

Lemma submitHand_rejections_witness :
  25 < sumZ ((fun p => tricksOf crowdedForm (Player.id p)) <$> players twoPlayerGame).
Proof.
  destruct (ControllerFacts.submitHand_rejections "t1" samplePending crowdedForm
              twoPlayerGame _ crowdedForm_rejected)
    as [(before & p & after & e & _ & _ & Hmsg & _) | (_ & Hsum & _)].
  - vm_compute. reflexivity.
  - exact Hsum.
Defined.

Lemma bob_is_seated : bob ∈ players twoPlayerGame.
Proof. right. left. Qed.

Lemma submitHand_meld_safety_witness :
  getPlayerHandTotal "p2" submittedHand = 20
  ∧ getPlayerHandTotal "p2" submittedHand ≤ 20.
Proof.
  destruct (ControllerFacts.submitHand_meld_safety "t1" samplePending sampleForm
              twoPlayerGame submittedGame submittedHand bob
              sampleForm_submitted bob_is_seated)
    as (_ & Hsafe).
  exact (Hsafe ltac:(discriminate) eq_refl).
Defined.

Lemma sampleForm_moon :
  shotTheMoon "t1" moonPending sampleForm twoPlayerGame = Done (moonGame, moonHand).
Proof. vm_compute. reflexivity. Qed.

Lemma moonHand_keys : enumerates ["p2"; "p1"]%string (playerScores moonHand).
Proof. by apply HandFacts.enumerates_dom; vm_compute. Qed.

Lemma shotTheMoon_hand_witness :
  isBidderSet moonHand = true
  ∧ handContribution moonHand "p1" = -600
  ∧ valid (validate ["p1"; "p2"]%string ["p2"; "p1"]%string
             (players twoPlayerGame) moonHand).1 = false.
Proof.
  destruct (ControllerFacts.shotTheMoon_hand "t1" (Num 600) "p1" moonPending sampleForm
              twoPlayerGame moonGame moonHand moonPending_accepted sampleForm_moon)
    as (_ & _ & Hset & Hcontrib & Hvalid & _).
  split; [apply Hset; simpl; lia|]. split; [exact Hcontrib|].
  exact (Hvalid _ _ moonHand_keys).
Defined.

Lemma submittedGame_played : played [alice; bob] submittedGame.
Proof.
  apply (played_submit [alice; bob] twoPlayerGame "t1" (Num 200) "p1"
           samplePending sampleForm submittedGame submittedHand).
  - apply played_new.
  - exact samplePending_accepted.
  - exact sampleForm_submitted.
Qed.

Lemma played_sessions_keep_seats_witness :
  dealerIndex submittedGame = Num 1
  ∧ getNextHandNumber submittedGame = 2
  ∧ scores submittedGame = replayedScores (hands submittedGame) (scores submittedGame).
Proof.
  destruct (ControllerFacts.played_sessions_keep_seats [alice; bob] submittedGame
              GameFacts.twoPlayer_ids_distinct submittedGame_played)
    as (_ & _ & Hscores & Hdealer & _ & Hnext).
  split; [exact Hdealer|]. split; [exact Hnext | exact Hscores].
Defined.

Lemma entry_flow_never_fails_witness :
  ∃ g' h, throwInHand "t2" submittedGame = Done (g', h).
Proof.
  destruct (ControllerFacts.entry_flow_never_fails [alice; bob] submittedGame
              GameFacts.twoPlayer_ids_distinct ltac:(discriminate) submittedGame_played)
    as (Hthrow & _).
  exact (Hthrow "t2"%string).
Defined.

End ExtraWitnesses.
